(** * Retirement calculator (App.tsx): projection and solving engine

    A shallow embedding of the numeric core of [src/App.tsx]:
    [monthlyRateFromRealAnnual], [projectToRetirement], [projectFullTo100],
    and, from the body of the [App] component, [wealthAtRetire],
    [solveRequiredMonthlyAccum], [yearsOfRunway] and
    [monthsToGoalAtCurrentPlan].

    Numbers.  A JavaScript number is modelled by [number]: a real, one of the
    two infinities, or NaN.  Arithmetic on finite values is exact (rounding
    and overflow of binary64 are idealised away, and the two zeros are one
    value, taken as +0 where a sign is needed); the special values follow
    IEEE 754 / ECMAScript, so that a NaN produced by [Math.pow] or
    [Math.log] travels through the code as it does in the source.
    Integer-valued numbers (month indices, loop counters, ages) are [Z]. *)

From Stdlib Require Import Reals Lra Lia ZArith List.
From stdpp Require Import gmap sorting.

Open Scope R_scope.

(** ** Numbers *)

Inductive number : Type :=
  | NaN
  | NegInf
  | Fin (x : R)
  | PosInf.

#[global] Instance Rlt_decision : RelDecision Rlt := Rlt_dec.
#[global] Instance Rle_decision : RelDecision Rle := Rle_dec.
#[global] Instance Req_decision : EqDecision R := Req_dec_T.

Declare Scope js_scope.
Delimit Scope js_scope with js.
Bind Scope js_scope with number.

Module Num.

Definition neg (a : number) : number :=
  match a with
  | NaN => NaN
  | NegInf => PosInf
  | Fin x => Fin (- x)
  | PosInf => NegInf
  end.

Definition add (a b : number) : number :=
  match a, b with
  | NaN, _ | _, NaN => NaN
  | Fin x, Fin y => Fin (x + y)
  | PosInf, NegInf | NegInf, PosInf => NaN
  | PosInf, _ | _, PosInf => PosInf
  | NegInf, _ | _, NegInf => NegInf
  end.

Definition sub (a b : number) : number := add a (neg b).

(** [x * i] for a finite [x] and an infinity [i]: the sign of [x] decides,
    and [0 * Infinity] is NaN. *)
Definition scale (x : R) (i : number) : number :=
  if decide (0 < x) then i else if decide (x < 0) then neg i else NaN.

Definition mul (a b : number) : number :=
  match a, b with
  | NaN, _ | _, NaN => NaN
  | Fin x, Fin y => Fin (x * y)
  | Fin x, i | i, Fin x => scale x i
  | PosInf, PosInf | NegInf, NegInf => PosInf
  | PosInf, NegInf | NegInf, PosInf => NegInf
  end.

Definition div (a b : number) : number :=
  match a, b with
  | NaN, _ | _, NaN => NaN
  | Fin x, Fin y =>
      if decide (y = 0) then
        if decide (0 < x) then PosInf else if decide (x < 0) then NegInf else NaN
      else Fin (x / y)
  | Fin _, _ => Fin 0
  | i, Fin y => if decide (y < 0) then neg i else i
  | _, _ => NaN
  end.

(** The relational operators; every comparison with NaN is false. *)
Definition lt (a b : number) : bool :=
  match a, b with
  | NaN, _ | _, NaN => false
  | Fin x, Fin y => bool_decide (x < y)
  | NegInf, NegInf | PosInf, _ | _, NegInf => false
  | NegInf, _ | _, PosInf => true
  end.

Definition le (a b : number) : bool :=
  match a, b with
  | NaN, _ | _, NaN => false
  | Fin x, Fin y => bool_decide (x <= y)
  | NegInf, _ | _, PosInf => true
  | PosInf, _ | _, NegInf => false
  end.

Definition gt (a b : number) : bool := lt b a.
Definition ge (a b : number) : bool := le b a.

(** [a === b] *)
Definition eq (a b : number) : bool :=
  match a, b with
  | Fin x, Fin y => bool_decide (x = y)
  | NegInf, NegInf | PosInf, PosInf => true
  | _, _ => false
  end.

(** [Math.abs], [Math.max], [Math.min] *)
Definition abs (a : number) : number :=
  match a with
  | NaN => NaN
  | Fin x => Fin (Rabs x)
  | _ => PosInf
  end.

Definition max (a b : number) : number :=
  match a, b with
  | NaN, _ | _, NaN => NaN
  | _, _ => if lt a b then b else a
  end.

Definition min (a b : number) : number :=
  match a, b with
  | NaN, _ | _, NaN => NaN
  | _, _ => if lt b a then b else a
  end.

Definition is_int (y : R) : bool := bool_decide (IZR (Zfloor y) = y).
Definition is_odd_int (y : R) : bool := is_int y && Z.odd (Zfloor y).

(** [Math.pow base exponent], by the cases of ECMAScript's
    Number::exponentiate. *)
Definition pow (base exponent : number) : number :=
  match exponent with
  | NaN => NaN
  | Fin y =>
      if decide (y = 0) then Fin 1 else
      match base with
      | NaN => NaN
      | PosInf => if decide (0 < y) then PosInf else Fin 0
      | NegInf =>
          if decide (0 < y)
          then (if is_odd_int y then NegInf else PosInf)
          else Fin 0
      | Fin x =>
          if decide (x = 0) then (if decide (0 < y) then Fin 0 else PosInf)
          else if decide (0 < x) then Fin (Rpower x y)
          else if is_int y then Fin (powerRZ x (Zfloor y))
          else NaN
      end
  | PosInf =>
      match base with
      | NaN => NaN
      | PosInf | NegInf => PosInf
      | Fin x =>
          if decide (x = 0) then Fin 0
          else if decide (1 < Rabs x) then PosInf
          else if decide (Rabs x = 1) then NaN
          else Fin 0
      end
  | NegInf =>
      match base with
      | NaN => NaN
      | PosInf | NegInf => Fin 0
      | Fin x =>
          if decide (x = 0) then PosInf
          else if decide (1 < Rabs x) then Fin 0
          else if decide (Rabs x = 1) then NaN
          else PosInf
      end
  end.

(** [Math.log] *)
Definition log (a : number) : number :=
  match a with
  | NaN | NegInf => NaN
  | PosInf => PosInf
  | Fin x =>
      if decide (x < 0) then NaN
      else if decide (x = 0) then NegInf
      else Fin (ln x)
  end.

End Num.

Infix "+" := Num.add : js_scope.
Infix "-" := Num.sub : js_scope.
Infix "*" := Num.mul : js_scope.
Infix "/" := Num.div : js_scope.
Notation "- a" := (Num.neg a) : js_scope.
Infix "<?" := Num.lt : js_scope.
Infix "<=?" := Num.le : js_scope.
Infix ">?" := Num.gt : js_scope.
Infix ">=?" := Num.ge : js_scope.
Infix "===" := Num.eq (at level 70) : js_scope.

(** ** Helpers *)

(** [monthlyRateFromRealAnnual] *)
Definition monthlyRateFromRealAnnual (realAnnualPct : number) : number :=
  (Num.pow (Fin 1 + realAnnualPct / Fin 100) (Fin (1 / 12)) - Fin 1)%js.

(** [type Lump = { id: number; month: number; amount: number }].  The form
    stores finite numbers in [month] and [amount]; on a finite amount
    [Number(ls.amount) || 0] is the amount itself. *)
Record Lump : Type := mkLump { id : Z; month : R; amount : R }.

Record Row : Type := mkRow { m : Z; wealth : number }.

(** ** Projections *)

(** The [byMonth] map of the three simulations.  [clip] is the expression
    that turns [ls.month] into the key; the loop body is
    [byMonth.set(m, (byMonth.get(m) || 0) + (Number(ls.amount) || 0))]. *)
Definition setLump (clip : R -> Z) (byMonth : gmap Z R) (ls : Lump) : gmap Z R :=
  let m := clip (month ls) in
  <[ m := default 0 (byMonth !! m) + amount ls ]> byMonth.

Definition buildByMonth (clip : R -> Z) (lumpSums : list Lump) : gmap Z R :=
  fold_left (setLump clip) lumpSums ∅.

(** [byMonth.get(t + 1) || 0] *)
Definition oneOffAt (byMonth : gmap Z R) (t : Z) : number :=
  Fin (default 0 (byMonth !! (t + 1)%Z)).

(** [W * (1 + rate) + monthlySaving + oneOff] *)
Definition accumStep (rate monthlySaving : number) (byMonth : gmap Z R)
    (t : Z) (W : number) : number :=
  (W * (Fin 1 + rate) + monthlySaving + oneOffAt byMonth t)%js.

(** [Math.max(0, Math.min(months, Math.floor(ls.month)))] *)
Definition clipToHorizon (months : Z) (month : R) : Z :=
  Z.max 0 (Z.min months (Zfloor month)).

(** The [for (let t = 0; t <= months; t++)] loop of [projectToRetirement];
    [n] counts the iterations that remain. *)
Fixpoint retirementLoop (rate monthlySaving : number) (byMonth : gmap Z R)
    (n : nat) (t : Z) (W : number) : list Row :=
  match n with
  | O => []
  | S n' =>
      mkRow t W
        :: retirementLoop rate monthlySaving byMonth n' (t + 1)%Z
             (accumStep rate monthlySaving byMonth t W)
  end.

Definition projectToRetirement (currentWealth monthlySaving : number)
    (months : Z) (monthlyRealReturn : number) (lumpSums : list Lump) : list Row :=
  let byMonth := buildByMonth (clipToHorizon months) lumpSums in
  retirementLoop monthlyRealReturn monthlySaving byMonth
    (Z.to_nat (months + 1)) 0%Z currentWealth.

(** [W * (1 + monthlyRetireReturn) - monthlySpend] *)
Definition spendStep (rate monthlySpend : number) (W : number) : number :=
  (W * (Fin 1 + rate) - monthlySpend)%js.

(** One pass through the body of the loop of [projectFullTo100], after the
    row is pushed. *)
Definition fullStep (monthsToRetire : Z) (monthlySaving accumRate retireRate
    monthlySpend : number) (byMonth : gmap Z R) (t : Z) (W : number) : number :=
  if (t <? monthsToRetire)%Z
  then accumStep accumRate monthlySaving byMonth t W
  else spendStep retireRate monthlySpend W.

Fixpoint fullLoop (monthsToRetire : Z) (monthlySaving accumRate retireRate
    monthlySpend : number) (byMonth : gmap Z R)
    (n : nat) (t : Z) (W : number) : list Row :=
  match n with
  | O => []
  | S n' =>
      mkRow t (Num.max (Fin 0) W)
        :: fullLoop monthsToRetire monthlySaving accumRate retireRate
             monthlySpend byMonth n' (t + 1)%Z
             (fullStep monthsToRetire monthlySaving accumRate retireRate
                monthlySpend byMonth t W)
  end.

(** [Math.max(0, (100 - age) * 12)] *)
Definition monthsTo100Of (age : Z) : Z := Z.max 0 ((100 - age) * 12).

Definition projectFullTo100 (age : Z) (currentWealth : number)
    (monthsToRetire : Z) (monthlySaving monthlyAccumReturn monthlyRetireReturn
    monthlySpend : number) (lumpSums : list Lump) : list Row :=
  let monthsTo100 := monthsTo100Of age in
  let byMonth := buildByMonth (clipToHorizon monthsToRetire) lumpSums in
  fullLoop monthsToRetire monthlySaving monthlyAccumReturn monthlyRetireReturn
    monthlySpend byMonth (Z.to_nat (monthsTo100 + 1)) 0%Z currentWealth.

(** ** The [App] component: derived values

    The functions below are closures in the body of [App]; the state
    variables they read are their leading parameters here. *)

(** [arr[arr.length - 1]?.wealth ?? currentWealth] *)
Definition lastWealth (arr : list Row) (currentWealth : number) : number :=
  from_option wealth currentWealth (last arr).

Definition wealthAtRetireWithMonthlyAccum (currentWealth monthlySaving : number)
    (monthsToRetire : Z) (lumpSums : list Lump) (monthlyRate : number) : number :=
  lastWealth
    (projectToRetirement currentWealth monthlySaving monthsToRetire monthlyRate lumpSums)
    currentWealth.

(** [const toMonthly = (annual) => Math.pow(1 + annual, 1/12) - 1] *)
Definition toMonthly (annual : number) : number :=
  (Num.pow (Fin 1 + annual) (Fin (1 / 12)) - Fin 1)%js.

(** The variables [loA], [hiA], [fLo], [fHi] of [solveRequiredMonthlyAccum]
    ([lo] and [hi] are only read to compute [fLo] and [fHi]). *)
Record Bracket : Type := mkBracket { loA : number; hiA : number; fLo : number; fHi : number }.

Definition evalBracket (f : number -> number) (lo hi : number) : Bracket :=
  mkBracket lo hi (f (toMonthly lo)) (f (toMonthly hi)).

(** [for (let i = 0; i < 10 && fLo*fHi > 0; i++) { ...; if (hiA > 3) break; }] *)
Fixpoint expandLoop (f : number -> number) (n : nat) (b : Bracket) : Bracket :=
  match n with
  | O => b
  | S n' =>
      if (fLo b * fHi b >? Fin 0)%js then
        let b' := evalBracket f (loA b - Fin (1 / 4))%js (hiA b + Fin (1 / 4))%js in
        if (hiA b' >? Fin 3)%js then b' else expandLoop f n' b'
      else b
  end.

(** [for (let it = 0; it < 40; it++) { ... }  return (loA + hiA) / 2] *)
Fixpoint bisectLoop (f : number -> number) (n : nat) (b : Bracket) : number :=
  match n with
  | O => ((loA b + hiA b) / Fin 2)%js
  | S n' =>
      let midA := ((loA b + hiA b) / Fin 2)%js in
      let fMid := f (toMonthly midA) in
      if (Num.abs fMid <? Fin 1)%js then midA
      else if (fLo b * fMid <=? Fin 0)%js
      then bisectLoop f n' (mkBracket (loA b) midA (fLo b) fMid)
      else bisectLoop f n' (mkBracket midA (hiA b) fMid (fHi b))
  end.

(** [solveRequiredMonthlyAccum(target)]; [null] is [None]. *)
Definition solveRequiredMonthlyAccum (monthsToRetire : Z)
    (currentWealth monthlySaving : number) (lumpSums : list Lump)
    (wealthAtRetire : number) (target : number) : option number :=
  if (monthsToRetire <=? 0)%Z then None else
  let f := fun rate =>
    (wealthAtRetireWithMonthlyAccum currentWealth monthlySaving monthsToRetire
       lumpSums rate - target)%js in
  let b0 := evalBracket f (Fin (- (1 / 2))) (Fin (1 / 2)) in
  if (wealthAtRetire >=? target)%js then Some (Fin 0) else
  let b := expandLoop f 10 b0 in
  if (fLo b * fHi b >? Fin 0)%js then None else
  Some (bisectLoop f 40 b).

Definition yearsOfRunway (startingWealth annualSpend realReturnAnnual : number) : number :=
  let r := (realReturnAnnual / Fin 100)%js in
  if (annualSpend <=? Fin 0)%js then PosInf
  else if (r === Fin 0)%js then (startingWealth / annualSpend)%js
  else
    let ratio := (Fin 1 - (startingWealth * r) / annualSpend)%js in
    if (ratio <=? Fin 0)%js then PosInf
    else (- Num.log ratio / Num.log (Fin 1 + r))%js.

(** [Math.max(1, Math.floor(ls.month))] *)
Definition clipFromOne (month : R) : Z := Z.max 1 (Zfloor month).

(** [for (let t = 0; t <= cap; t++) { if (W >= targetWealth) return t; ... }
    return Infinity] *)
Fixpoint goalLoop (rate monthlySaving : number) (byMonth : gmap Z R)
    (targetWealth : number) (n : nat) (t : Z) (W : number) : number :=
  match n with
  | O => PosInf
  | S n' =>
      if (W >=? targetWealth)%js then Fin (IZR t)
      else goalLoop rate monthlySaving byMonth targetWealth n' (t + 1)%Z
             (accumStep rate monthlySaving byMonth t W)
  end.

Definition cap : Z := 1200.

(** The body of the [useMemo] that computes [monthsToGoalAtCurrentPlan], as
    a function of its dependency list. *)
Definition monthsToGoal (targetWealth currentWealth monthlySaving : number)
    (lumpSums : list Lump) (monthlyAccum : number) : number :=
  if (targetWealth <=? Fin 0)%js then Fin 0 else
  let byMonth := buildByMonth clipFromOne lumpSums in
  goalLoop monthlyAccum monthlySaving byMonth targetWealth
    (Z.to_nat (cap + 1)) 0%Z currentWealth.

(** The state of [App] (the values held by its [useState] hooks). *)
Record Plan : Type := mkPlan {
  age : Z;
  retireAge : Z;
  currentWealth : R;
  monthlySaving : R;
  monthlySpend : R;
  swrPct : R;
  accumRealReturn : R;
  retireRealReturn : R;
  lumpSums : list Lump
}.

Section App.
Variable p : Plan.

Definition monthsToRetire : Z := Z.max 0 ((retireAge p - age p) * 12).
Definition monthsTo100 : Z := monthsTo100Of (age p).
Definition monthlyAccum : number := monthlyRateFromRealAnnual (Fin (accumRealReturn p)).
Definition monthlyRetire : number := monthlyRateFromRealAnnual (Fin (retireRealReturn p)).

Definition accumulation : list Row :=
  projectToRetirement (Fin (currentWealth p)) (Fin (monthlySaving p))
    monthsToRetire monthlyAccum (lumpSums p).

Definition wealthAtRetire : number :=
  lastWealth accumulation (Fin (currentWealth p)).

Definition fullProjection : list Row :=
  projectFullTo100 (age p) (Fin (currentWealth p)) monthsToRetire
    (Fin (monthlySaving p)) monthlyAccum monthlyRetire (Fin (monthlySpend p))
    (lumpSums p).

(** [(monthlySpend * 12) / Math.max(swrPct / 100, 1e-9)] *)
Definition targetWealth : number :=
  ((Fin (monthlySpend p) * Fin 12)
     / Num.max (Fin (swrPct p) / Fin 100) (Fin (1 / 1000000000)))%js.

Definition gap : number := (targetWealth - wealthAtRetire)%js.

(** [gap > 0 ? solveRequiredMonthlyAccum(targetWealth) : null] *)
Definition requiredAccumAnnualToHitTarget : option number :=
  if (gap >? Fin 0)%js
  then solveRequiredMonthlyAccum monthsToRetire (Fin (currentWealth p))
         (Fin (monthlySaving p)) (lumpSums p) wealthAtRetire targetWealth
  else None.

Definition runwayY : number :=
  yearsOfRunway wealthAtRetire (Fin (monthlySpend p) * Fin 12)%js
    (Fin (retireRealReturn p)).

Definition monthsToGoalAtCurrentPlan : number :=
  monthsToGoal targetWealth (Fin (currentWealth p)) (Fin (monthlySaving p))
    (lumpSums p) monthlyAccum.
End App.

(** ** The [App] component: the other derived values *)

(** [isFinite(x)] *)
Definition isFinite (a : number) : bool :=
  match a with
  | Fin _ => true
  | _ => false
  end.

Section AppCards.
Variable p : Plan.

(** [Math.max(0, Math.min(100, (100 * wealthAtRetire) / Math.max(targetWealth, 1)))] *)
Definition progressPct : number :=
  Num.max (Fin 0)
    (Num.min (Fin 100)
       ((Fin 100 * wealthAtRetire p) / Num.max (targetWealth p) (Fin 1))%js).

Definition sustainableMonthlySWR : number := (wealthAtRetire p * monthlyRetire p)%js.

Definition hasPerpetuity : bool := (sustainableMonthlySWR >=? Fin (monthlySpend p))%js.

(** [wealthAtRetire > 0 ? (monthlySpend * 12 / wealthAtRetire) * 100 : null] *)
Definition impliedSWRPct : option number :=
  if (wealthAtRetire p >? Fin 0)%js
  then Some ((Fin (monthlySpend p) * Fin 12 / wealthAtRetire p) * Fin 100)%js
  else None.

(** [gap > 0 && monthsToRetire > 0
      ? gap / Math.max(monthlyAccum > 0
                         ? (Math.pow(1 + monthlyAccum, monthsToRetire) - 1) / monthlyAccum
                         : monthsToRetire, 1)
      : 0] *)
Definition extraMonthlyNeeded : number :=
  if (gap p >? Fin 0)%js && (0 <? monthsToRetire p)%Z
  then (gap p
        / Num.max
            (if (monthlyAccum p >? Fin 0)%js
             then (Num.pow (Fin 1 + monthlyAccum p) (Fin (IZR (monthsToRetire p))) - Fin 1)
                  / monthlyAccum p
             else Fin (IZR (monthsToRetire p)))
            (Fin 1))%js
  else Fin 0.

(** [isFinite(runwayY) ? retireAge + runwayY : Infinity] *)
Definition endAge : number :=
  if isFinite (runwayY p) then (Fin (IZR (retireAge p)) + runwayY p)%js else PosInf.
End AppCards.

(** The state after [setMonthlySaving(v)]. *)
Definition withMonthlySaving (p : Plan) (v : R) : Plan :=
  mkPlan (age p) (retireAge p) (currentWealth p) v (monthlySpend p) (swrPct p)
    (accumRealReturn p) (retireRealReturn p) (lumpSums p).

(** *** The ticks of the chart's time axis ([yearTicks]) *)

(** [Math.ceil(yearsRange / 8)] and [Math.round(stepYears / 5)] on integers;
    [Math.round] rounds halves up. *)
Definition ceilDiv8 (y : Z) : Z := (- ((- y) / 8))%Z.
Definition roundDiv5 (x : Z) : Z := ((2 * x + 5) / 10)%Z.

Definition stepYearsOf (age : Z) : Z :=
  let yearsRange := (100 - age)%Z in
  let stepYears := ceilDiv8 yearsRange in
  let stepYears := if (5 <=? stepYears)%Z then (roundDiv5 stepYears * 5)%Z else stepYears in
  Z.max 2 stepYears.

(** [for (let m = 0; m <= monthsTo100; m += stepMonths) list.push(m)];
    [n] bounds the number of passes. *)
Fixpoint ticksLoop (monthsTo100 stepMonths : Z) (n : nat) (m : Z) : list Z :=
  match n with
  | O => []
  | S n' =>
      if (m <=? monthsTo100)%Z
      then m :: ticksLoop monthsTo100 stepMonths n' (m + stepMonths)%Z
      else []
  end.

Definition yearTicks (age : Z) : list Z :=
  let monthsTo100 := monthsTo100Of age in
  let stepMonths := (stepYearsOf age * 12)%Z in
  let list := ticksLoop monthsTo100 stepMonths (Z.to_nat (monthsTo100 + 1)) 0%Z in
  if decide (last list = Some monthsTo100) then list else list ++ [monthsTo100].

(** *** The list of lump sums *)

(** [[...arr, { id: (arr[arr.length - 1]?.id || 0) + 1, month: 1, amount: 100_000 }]] *)
Definition addLump (arr : list Lump) : list Lump :=
  arr ++ [mkLump (from_option id 0%Z (last arr) + 1)%Z 1 100000].

Inductive LumpField : Type := FieldMonth | FieldAmount.

(** [{ ...ls, [field]: value }] *)
Definition setField (ls : Lump) (field : LumpField) (value : R) : Lump :=
  match field with
  | FieldMonth => mkLump (id ls) value (amount ls)
  | FieldAmount => mkLump (id ls) (month ls) value
  end.

(** [arr.map((ls) => (ls.id === id ? { ...ls, [field]: value } : ls))] *)
Definition updateLump (i : Z) (field : LumpField) (value : R) (arr : list Lump) : list Lump :=
  map (fun ls => if decide (id ls = i) then setField ls field value else ls) arr.

(** [arr.filter((ls) => ls.id !== id)] *)
Definition removeLump (i : Z) (arr : list Lump) : list Lump :=
  filter (fun ls => id ls <> i) arr.

(** ** The inputs

    A string is the list of its UTF-16 code units. *)

(** [/\d/.test(ch)] *)
Definition isDigit (ch : N) : bool := (48 <=? ch)%N && (ch <=? 57)%N.

(** [(s || "").replace(/\D+/g, "")] *)
Definition parseDigits (s : list N) : list N := filter (fun ch => isDigit ch = true) s.

(** The loop of [countDigitsLeft]: [n] characters of [str] are still to be
    read, [c] digits have been counted. *)
Fixpoint countDigitsLoop (str : list N) (n : nat) (c : Z) : Z :=
  match n, str with
  | S n', ch :: rest => countDigitsLoop rest n' (if isDigit ch then c + 1 else c)%Z
  | _, _ => c
  end.

Definition countDigitsLeft (str : list N) (pos : Z) : Z :=
  countDigitsLoop str (Z.to_nat (Z.max 0 (Z.min pos (Z.of_nat (length str))))) 0%Z.

(** The loop of [posFromDigitsCount] at index [i] with [c] digits counted;
    [str] is what is left of the string. *)
Fixpoint posFromDigitsLoop (str : list N) (digitsCount : Z) (i c : Z) : Z :=
  match str with
  | [] => i
  | ch :: rest =>
      let c' := (if isDigit ch then c + 1 else c)%Z in
      if (digitsCount <=? c')%Z then (i + 1)%Z
      else posFromDigitsLoop rest digitsCount (i + 1)%Z c'
  end.

Definition posFromDigitsCount (str : list N) (digitsCount : Z) : Z :=
  posFromDigitsLoop str digitsCount 0%Z 0%Z.

(** *** The slider of the withdrawal rate ([SwrSlider]) *)

(** [Math.max(0, Math.min(1, (value - min) / (max - min)))] *)
Definition sliderT (value min max : number) : number :=
  Num.max (Fin 0) (Num.min (Fin 1) ((value - min) / (max - min))%js).

(** [w ? thumb / 2 + (w - thumb) * t : 0], with [thumb = 20]; a number is
    falsy when it is 0 or NaN. *)
Definition sliderCenter (w t : number) : number :=
  match w with
  | NaN => Fin 0
  | Fin x => if decide (x = 0) then Fin 0 else (Fin 20 / Fin 2 + (w - Fin 20) * t)%js
  | _ => (Fin 20 / Fin 2 + (w - Fin 20) * t)%js
  end.

(** [Math.max(thumb / 2, Math.min(center, w))] *)
Definition sliderFill (w center : number) : number :=
  Num.max (Fin 20 / Fin 2)%js (Num.min center w).

(** ** Auxiliary definitions for the further statements *)

(** The value, [n] months after month [t], of the flows paid at the months
    [t + 1 .. t + n], at the monthly rate [r]. *)
Fixpoint flowsValue (r : R) (flow : Z -> R) (n : nat) (t : Z) : R :=
  match n with
  | O => 0
  | S n' => flow (t + 1)%Z * (1 + r) ^ n' + flowsValue r flow n' (t + 1)%Z
  end.

(** [1 + (1+r) + ... + (1+r)^(n-1)] *)
Fixpoint annuityFactor (r : R) (n : nat) : R :=
  match n with
  | O => 0
  | S n' => (1 + r) ^ n' + annuityFactor r n'
  end.

(** The sum of the amounts of the lump sums that satisfy [P]. *)
Definition totalAmount (P : Lump -> bool) (lumps : list Lump) : R :=
  fold_right (fun ls acc => if P ls then amount ls + acc else acc) 0 lumps.

(** [max(0, wealth)] on a row. *)
Definition floorRow (row : Row) : Row := mkRow (m row) (Num.max (Fin 0) (wealth row)).

(** The function the solver looks for a zero of, at the annual rate
    [annual]: [wealthAtRetireWithMonthlyAccum(toMonthly(annual)) - target]. *)
Definition objective (currentWealth monthlySaving : number) (monthsToRetire : Z)
    (lumpSums : list Lump) (target : number) (annual : R) : number :=
  (wealthAtRetireWithMonthlyAccum currentWealth monthlySaving monthsToRetire lumpSums
     (toMonthly (Fin annual)) - target)%js.

(** The three ways in which the form changes the list of lump sums, and the
    list after a sequence of them, starting from the empty list of
    [useState<Lump[]>([])]. *)
Inductive LumpAction : Type :=
  | ActAdd
  | ActUpdate (i : Z) (field : LumpField) (value : R)
  | ActRemove (i : Z).

Definition applyAction (arr : list Lump) (a : LumpAction) : list Lump :=
  match a with
  | ActAdd => addLump arr
  | ActUpdate i field value => updateLump i field value arr
  | ActRemove i => removeLump i arr
  end.

Definition lumpsAfter (actions : list LumpAction) : list Lump :=
  fold_left applyAction actions [].

(** The ids of a list of lump sums are positive and increase along the list. *)
Definition idsIncrease (arr : list Lump) : Prop :=
  StronglySorted (fun a b => (id a < id b)%Z) arr
  /\ Forall (fun ls => (0 < id ls)%Z) arr.

(** ** Auxiliary definitions for the statements *)

(** The running wealth [W] of [projectToRetirement] after [n] more passes
    through the loop body, started at month [t] with wealth [W]. *)
Fixpoint accumAfter (rate monthlySaving : number) (byMonth : gmap Z R)
    (n : nat) (t : Z) (W : number) : number :=
  match n with
  | O => W
  | S n' =>
      accumAfter rate monthlySaving byMonth n' (t + 1)%Z
        (accumStep rate monthlySaving byMonth t W)
  end.

(** A row whose wealth is a number that is at least 0. *)
Definition nonnegRow (row : Row) : Prop := (Fin 0 <=? wealth row)%js = true.

(** The sum of the amounts of the lump sums whose clipped month is [k]. *)
Definition clippedSum (clip : R -> Z) (lumpSums : list Lump) (k : Z) : R :=
  fold_right
    (fun ls acc => if decide (clip (month ls) = k) then amount ls + acc else acc)
    0 lumpSums.

(** The wealth at month [t] when the lump sums are clipped and summed as
    the schedule is described: month [max(0, min(horizon, floor(month)))],
    amounts of one clipped month added up. *)
Fixpoint clippedWealth (W0 s rate : number) (months : Z) (lumps : list Lump)
    (t : nat) : number :=
  match t with
  | O => W0
  | S t' =>
      (clippedWealth W0 s rate months lumps t' * (Fin 1 + rate) + s
       + Fin (clippedSum (fun month => Z.max 0 (Z.min months (Zfloor month)))
                lumps (Z.of_nat (S t'))))%js
  end.

(** What a lump sum of amount [a], disbursed in the step that ends at month
    [k], does to a row. *)
Definition disburseAt (k : Z) (a : R) (row : Row) : Row :=
  if decide (m row = k) then mkRow (m row) (wealth row + Fin a)%js else row.

(** The running wealth [W] of [projectFullTo100] when the row of month [t]
    is pushed: the start wealth, then one pass through the loop body per
    month, each on the wealth the pass before left. *)
Fixpoint rawWealth (monthsToRetire : Z) (s accumRate retireRate spend : number)
    (byMonth : gmap Z R) (W0 : number) (t : nat) : number :=
  match t with
  | O => W0
  | S t' =>
      fullStep monthsToRetire s accumRate retireRate spend byMonth (Z.of_nat t')
        (rawWealth monthsToRetire s accumRate retireRate spend byMonth W0 t')
  end.

(** The wealth after [t] steps of the accumulation step rule
    [wealth * (1 + rate) + flow + lump], where [lump k] is what the step
    that ends at month [k] receives in lump sums. *)
Fixpoint stepRuleWealth (W0 s rate : number) (lump : Z -> R) (t : nat) : number :=
  match t with
  | O => W0
  | S t' =>
      (stepRuleWealth W0 s rate lump t' * (Fin 1 + rate) + s
       + Fin (lump (Z.of_nat (S t'))))%js
  end.

(** A plan with nothing saved, nothing to save and twelve months to
    retirement; its target is 100 * 12 / 0.04 = 30000. *)
Definition unreachablePlan : Plan :=
  mkPlan 30 31 0 0 100 4 5 (7 / 2) [].

(** * Properties *)

(** ** Arithmetic on finite numbers *)

Lemma le_Fin (x y : R) : (Fin x <=? Fin y)%js = true <-> x <= y.
Proof. simpl. apply bool_decide_eq_true. Qed.

Lemma le_Fin_false (x y : R) : (Fin x <=? Fin y)%js = false <-> y < x.
Proof. simpl. rewrite bool_decide_eq_false. split; lra. Qed.

Lemma lt_Fin (x y : R) : (Fin x <? Fin y)%js = true <-> x < y.
Proof. simpl. apply bool_decide_eq_true. Qed.

Lemma lt_Fin_false (x y : R) : (Fin x <? Fin y)%js = false <-> y <= x.
Proof. simpl. rewrite bool_decide_eq_false. split; lra. Qed.

Lemma eq_Fin (x y : R) : (Fin x === Fin y)%js = true <-> x = y.
Proof. simpl. apply bool_decide_eq_true. Qed.

Lemma eq_Fin_false (x y : R) : (Fin x === Fin y)%js = false <-> x <> y.
Proof. simpl. apply bool_decide_eq_false. Qed.

Lemma add_Fin (x y : R) : (Fin x + Fin y)%js = Fin (x + y).
Proof. reflexivity. Qed.

Lemma sub_Fin (x y : R) : (Fin x - Fin y)%js = Fin (x - y).
Proof. reflexivity. Qed.

Lemma mul_Fin (x y : R) : (Fin x * Fin y)%js = Fin (x * y).
Proof. reflexivity. Qed.

Lemma neg_Fin (x : R) : (- Fin x)%js = Fin (- x).
Proof. reflexivity. Qed.

Lemma div_Fin (x y : R) : y <> 0 -> (Fin x / Fin y)%js = Fin (x / y).
Proof. intros Hy. simpl. now rewrite decide_False. Qed.

Lemma log_Fin (x : R) : 0 < x -> Num.log (Fin x) = Fin (ln x).
Proof.
  intros Hx. unfold Num.log.
  rewrite (decide_False (P := x < 0)), (decide_False (P := x = 0)) by lra.
  reflexivity.
Qed.

(** Settles the comparisons of concrete reals that the evaluation leaves. *)
Ltac js_decide :=
  repeat match goal with
    | |- context [bool_decide ?P] =>
        first [ rewrite (bool_decide_eq_true_2 P) by lra
              | rewrite (bool_decide_eq_false_2 P) by lra ]
    end.

Lemma accumStep_Fin (r s : R) (byMonth : gmap Z R) (t : Z) (W : R) :
  accumStep (Fin r) (Fin s) byMonth t (Fin W)
  = Fin (W * (1 + r) + s + default 0 (byMonth !! (t + 1)%Z)).
Proof. reflexivity. Qed.

(** Evaluation of the code on concrete finite inputs. *)
Ltac js_eval :=
  unfold buildByMonth; simpl; rewrite ?accumStep_Fin, ?lookup_empty; simpl.

(** ** The loop of [projectToRetirement] *)

Lemma last_retirementLoop (rate s : number) (byMonth : gmap Z R) (n : nat) :
  forall (t : Z) (W : number),
    last (retirementLoop rate s byMonth (S n) t W)
    = Some (mkRow (t + Z.of_nat n) (accumAfter rate s byMonth n t W)).
Proof.
  induction n as [|n IH]; intros t W.
  - simpl. do 2 f_equal. lia.
  - change (retirementLoop rate s byMonth (S (S n)) t W)
      with (mkRow t W :: retirementLoop rate s byMonth (S n) (t + 1)
              (accumStep rate s byMonth t W)).
    rewrite last_cons, IH. simpl. do 2 f_equal. lia.
Qed.

Lemma wealthAtRetireWithMonthlyAccum_eq (W s : number) (months : Z)
    (lumps : list Lump) (rate : number) :
  (0 <= months)%Z ->
  wealthAtRetireWithMonthlyAccum W s months lumps rate
  = accumAfter rate s (buildByMonth (clipToHorizon months) lumps)
      (Z.to_nat months) 0%Z W.
Proof.
  intros Hm. unfold wealthAtRetireWithMonthlyAccum, projectToRetirement, lastWealth.
  replace (Z.to_nat (months + 1)) with (S (Z.to_nat months)) by lia.
  now rewrite last_retirementLoop.
Qed.

Lemma length_retirementLoop (rate s : number) (byMonth : gmap Z R) (n : nat) :
  forall (t : Z) (W : number), length (retirementLoop rate s byMonth n t W) = n.
Proof. induction n; intros; simpl; [reflexivity | now rewrite IHn]. Qed.

(** ** Closed form without lump sums *)

Lemma accumAfter_annuity (r s : R) (n : nat) :
  r <> 0 ->
  forall (t : Z) (W : R),
    accumAfter (Fin r) (Fin s) ∅ n t (Fin W)
    = Fin (W * (1 + r) ^ n + s * ((1 + r) ^ n - 1) / r).
Proof.
  intros Hr. induction n as [|n IH]; intros t W.
  - simpl. f_equal. field. exact Hr.
  - simpl accumAfter. rewrite accumStep_Fin, IH, lookup_empty. simpl.
    f_equal. field. exact Hr.
Qed.

(** C7.  With no lump sums, a monthly rate [r <> 0] and [n >= 0] months, the
    end wealth (the last row) of [projectToRetirement] is the annuity value
    [W0 * (1+r)^n + s * ((1+r)^n - 1) / r].  (Exact on the idealised
    arithmetic; the source agrees up to binary64 rounding.) *)
Theorem C7_annuity_closed_form (W0 s r : R) (n : Z) :
  (0 <= n)%Z -> r <> 0 ->
  wealthAtRetireWithMonthlyAccum (Fin W0) (Fin s) n [] (Fin r)
  = Fin (W0 * (1 + r) ^ Z.to_nat n + s * ((1 + r) ^ Z.to_nat n - 1) / r).
Proof.
  intros Hn Hr. rewrite wealthAtRetireWithMonthlyAccum_eq by exact Hn.
  unfold buildByMonth. simpl fold_left. now apply accumAfter_annuity.
Qed.

Lemma C7_annuity_closed_form_witness :
  wealthAtRetireWithMonthlyAccum (Fin 1000) (Fin 100) 2 [] (Fin (1 / 10))
  = Fin (1000 * (1 + 1 / 10) ^ Z.to_nat 2 + 100 * ((1 + 1 / 10) ^ Z.to_nat 2 - 1) / (1 / 10)).
Proof. apply (C7_annuity_closed_form 1000 100 (1 / 10) 2); [lia | lra]. Defined.

(** ** Monotonicity of the end wealth *)

Lemma accumAfter_Fin (r s : R) (byMonth : gmap Z R) (n : nat) :
  forall (t : Z) (W : R), exists x : R,
    accumAfter (Fin r) (Fin s) byMonth n t (Fin W) = Fin x.
Proof.
  induction n as [|n IH]; intros t W; simpl.
  - now exists W.
  - rewrite accumStep_Fin. apply IH.
Qed.

(** More saving never lowers the wealth, as long as [1 + rate >= 0]. *)
Lemma accumAfter_mono_saving (r s1 s2 : R) (byMonth : gmap Z R) (n : nat) :
  0 <= 1 + r -> s1 <= s2 ->
  forall (t : Z) (W1 W2 : R), W1 <= W2 ->
    (accumAfter (Fin r) (Fin s1) byMonth n t (Fin W1)
     <=? accumAfter (Fin r) (Fin s2) byMonth n t (Fin W2))%js = true.
Proof.
  intros Hr Hs. induction n as [|n IH]; intros t W1 W2 HW; simpl accumAfter.
  - now apply le_Fin.
  - rewrite !accumStep_Fin. apply IH. nra.
Qed.

(** A higher rate never lowers the wealth while the wealth it compounds is
    non-negative and [1 + rate >= 0]. *)
Lemma accumAfter_mono_rate (r1 r2 s : R) (byMonth : gmap Z R) (n : nat) :
  r1 <= r2 -> 0 <= 1 + r2 ->
  forall (t : Z) (W1 W2 : R), W1 <= W2 ->
    Forall nonnegRow (retirementLoop (Fin r1) (Fin s) byMonth (S n) t (Fin W1)) ->
    (accumAfter (Fin r1) (Fin s) byMonth n t (Fin W1)
     <=? accumAfter (Fin r2) (Fin s) byMonth n t (Fin W2))%js = true.
Proof.
  intros Hr H2. induction n as [|n IH]; intros t W1 W2 HW Hrows; simpl accumAfter.
  - now apply le_Fin.
  - change (retirementLoop (Fin r1) (Fin s) byMonth (S (S n)) t (Fin W1))
      with (mkRow t (Fin W1) :: retirementLoop (Fin r1) (Fin s) byMonth (S n) (t + 1)
              (accumStep (Fin r1) (Fin s) byMonth t (Fin W1))) in Hrows.
    apply Forall_cons in Hrows as [H0 Hrows].
    apply le_Fin in H0. rewrite accumStep_Fin in Hrows.
    rewrite !accumStep_Fin. apply IH; [nra | exact Hrows].
Qed.

(** C2, as the code has it.  The end wealth of [projectToRetirement] is
    non-decreasing in the monthly saving whenever [1 + monthlyRate >= 0],
    whatever the signs of the start wealth, the saving and the lump sums;
    it is non-decreasing in the monthly rate, for rates with
    [1 + rate >= 0], when every row of the projection at the lower rate has
    a non-negative wealth. *)
Theorem C2_end_wealth_monotone (W0 : R) (lumps : list Lump) (months : Z) :
  (forall r s1 s2 : R, 0 <= 1 + r -> s1 <= s2 ->
     (wealthAtRetireWithMonthlyAccum (Fin W0) (Fin s1) months lumps (Fin r)
      <=? wealthAtRetireWithMonthlyAccum (Fin W0) (Fin s2) months lumps (Fin r))%js = true)
  /\
  (forall s r1 r2 : R, r1 <= r2 -> 0 <= 1 + r2 ->
     Forall nonnegRow (projectToRetirement (Fin W0) (Fin s) months (Fin r1) lumps) ->
     (wealthAtRetireWithMonthlyAccum (Fin W0) (Fin s) months lumps (Fin r1)
      <=? wealthAtRetireWithMonthlyAccum (Fin W0) (Fin s) months lumps (Fin r2))%js = true).
Proof.
  destruct (Z_lt_le_dec months 0) as [Hneg|Hm].
  - assert (Hnone : forall s r : R,
              wealthAtRetireWithMonthlyAccum (Fin W0) (Fin s) months lumps (Fin r) = Fin W0).
    { intros s r. unfold wealthAtRetireWithMonthlyAccum, projectToRetirement.
      now replace (Z.to_nat (months + 1)) with 0%nat by lia. }
    split; intros; rewrite !Hnone; apply le_Fin; lra.
  - split.
    + intros r s1 s2 Hr Hs. rewrite !wealthAtRetireWithMonthlyAccum_eq by exact Hm.
      apply accumAfter_mono_saving; [exact Hr | exact Hs | lra].
    + intros s r1 r2 Hr H2 Hrows. rewrite !wealthAtRetireWithMonthlyAccum_eq by exact Hm.
      apply accumAfter_mono_rate; [exact Hr | exact H2 | lra |].
      unfold projectToRetirement in Hrows.
      now replace (Z.to_nat (months + 1)) with (S (Z.to_nat months)) in Hrows by lia.
Qed.

Lemma C2_end_wealth_monotone_witness :
  (wealthAtRetireWithMonthlyAccum (Fin 100) (Fin 0) 1 [] (Fin 0)
   <=? wealthAtRetireWithMonthlyAccum (Fin 100) (Fin 10) 1 [] (Fin 0))%js = true
  /\
  (wealthAtRetireWithMonthlyAccum (Fin 100) (Fin 0) 1 [] (Fin 0)
   <=? wealthAtRetireWithMonthlyAccum (Fin 100) (Fin 0) 1 [] (Fin 1))%js = true.
Proof.
  destruct (C2_end_wealth_monotone 100 [] 1) as [Hs Hr]. split.
  - apply (Hs 0 0 10); lra.
  - apply (Hr 0 0 1); [lra | lra |].
    unfold projectToRetirement, buildByMonth. simpl.
    repeat constructor; unfold nonnegRow; simpl;
      rewrite ?accumStep_Fin, ?lookup_empty; apply le_Fin; simpl; lra.
Defined.

(** C2 as stated fails.  With a start wealth of -100, no saving and one
    month, raising the monthly rate from 0 to 1 lowers the end wealth from
    -100 to -200; with a monthly rate of -3 (so [1 + rate = -2]), no start
    wealth and two months, raising the saving from 0 to 1 lowers the end
    wealth from 0 to -1. *)
Lemma C2_counterexample :
  let byRate r := wealthAtRetireWithMonthlyAccum (Fin (-100)) (Fin 0) 1 [] (Fin r) in
  let bySaving s := wealthAtRetireWithMonthlyAccum (Fin 0) (Fin s) 2 [] (Fin (-3)) in
  (0 <= 1
   /\ byRate 0 = Fin (-100) /\ byRate 1 = Fin (-200)
   /\ (byRate 0 <=? byRate 1)%js = false)
  /\
  (0 <= 1
   /\ bySaving 0 = Fin 0 /\ bySaving 1 = Fin (-1)
   /\ (bySaving 0 <=? bySaving 1)%js = false).
Proof.
  assert (E1 : wealthAtRetireWithMonthlyAccum (Fin (-100)) (Fin 0) 1 [] (Fin 0) = Fin (-100)).
  { rewrite wealthAtRetireWithMonthlyAccum_eq by lia. simpl.
    rewrite accumStep_Fin. f_equal. unfold buildByMonth. simpl.
    rewrite lookup_empty. simpl. lra. }
  assert (E2 : wealthAtRetireWithMonthlyAccum (Fin (-100)) (Fin 0) 1 [] (Fin 1) = Fin (-200)).
  { rewrite wealthAtRetireWithMonthlyAccum_eq by lia. simpl.
    rewrite accumStep_Fin. f_equal. unfold buildByMonth. simpl.
    rewrite lookup_empty. simpl. lra. }
  assert (E3 : wealthAtRetireWithMonthlyAccum (Fin 0) (Fin 0) 2 [] (Fin (-3)) = Fin 0).
  { rewrite wealthAtRetireWithMonthlyAccum_eq by lia. simpl.
    rewrite !accumStep_Fin. f_equal. unfold buildByMonth. simpl.
    rewrite !lookup_empty. simpl. lra. }
  assert (E4 : wealthAtRetireWithMonthlyAccum (Fin 0) (Fin 1) 2 [] (Fin (-3)) = Fin (-1)).
  { rewrite wealthAtRetireWithMonthlyAccum_eq by lia. simpl.
    rewrite !accumStep_Fin. f_equal. unfold buildByMonth. simpl.
    rewrite !lookup_empty. simpl. lra. }
  cbv beta zeta. rewrite E1, E2, E3, E4.
  repeat split; try lra; apply le_Fin_false; lra.
Qed.

(** ** The lump-sum schedule *)

Lemma fold_setLump_lookup (clip : R -> Z) (lumps : list Lump) :
  forall (byMonth : gmap Z R) (k : Z),
    default 0 (fold_left (setLump clip) lumps byMonth !! k)
    = default 0 (byMonth !! k) + clippedSum clip lumps k.
Proof.
  induction lumps as [|ls lumps IH]; intros byMonth k; simpl.
  - lra.
  - rewrite IH. unfold setLump. rewrite lookup_insert.
    destruct (decide (clip (month ls) = k)) as [->|Hne]; simpl; lra.
Qed.

Lemma buildByMonth_lookup (clip : R -> Z) (lumps : list Lump) (k : Z) :
  default 0 (buildByMonth clip lumps !! k) = clippedSum clip lumps k.
Proof.
  unfold buildByMonth. rewrite fold_setLump_lookup, lookup_empty. simpl. lra.
Qed.

Lemma clippedSum_app (clip : R -> Z) (l1 l2 : list Lump) (k : Z) :
  clippedSum clip (l1 ++ l2) k = clippedSum clip l1 k + clippedSum clip l2 k.
Proof.
  induction l1 as [|ls l1 IH]; simpl.
  - lra.
  - rewrite IH. destruct (decide (clip (month ls) = k)); lra.
Qed.

Lemma clippedSum_insert (clip : R -> Z) (l1 l2 : list Lump) (ls : Lump) (k : Z) :
  clippedSum clip (l1 ++ ls :: l2) k
  = clippedSum clip (l1 ++ l2) k + (if decide (clip (month ls) = k) then amount ls else 0).
Proof.
  rewrite !clippedSum_app. simpl.
  destruct (decide (clip (month ls) = k)); lra.
Qed.

Lemma oneOffAt_insert (clip : R -> Z) (l1 l2 : list Lump) (ls : Lump) (t : Z) :
  oneOffAt (buildByMonth clip (l1 ++ ls :: l2)) t
  = Fin (default 0 (buildByMonth clip (l1 ++ l2) !! (t + 1)%Z)
         + (if decide (clip (month ls) = (t + 1)%Z) then amount ls else 0)).
Proof.
  unfold oneOffAt. now rewrite !buildByMonth_lookup, clippedSum_insert.
Qed.

(** The clipped month of a lump sum placed at or before month 0, or after
    the horizon. *)
Lemma clipToHorizon_nonpos (months : Z) (month : R) :
  month <= 0 -> clipToHorizon months month = 0%Z.
Proof.
  intros H. unfold clipToHorizon.
  assert (Zfloor month <= 0)%Z.
  { pose proof (Zfloor_bound month) as [Hlo _].
    apply le_IZR. lra. }
  lia.
Qed.

Lemma clipToHorizon_beyond (months : Z) (month : R) :
  (0 <= months)%Z -> IZR months < month -> clipToHorizon months month = months.
Proof.
  intros Hm H. unfold clipToHorizon.
  assert (months <= Zfloor month)%Z by (apply Zfloor_lub; lra).
  lia.
Qed.

Lemma clipToHorizon_range (months : Z) (month : R) :
  (0 <= months)%Z -> (0 <= clipToHorizon months month <= months)%Z.
Proof. unfold clipToHorizon. lia. Qed.

Lemma clipFromOne_nonpos (month : R) : month <= 0 -> clipFromOne month = 1%Z.
Proof.
  intros H. unfold clipFromOne.
  assert (Zfloor month <= 0)%Z.
  { pose proof (Zfloor_bound month) as [Hlo _].
    apply le_IZR. lra. }
  lia.
Qed.

Lemma clipFromOne_from_one (month : R) : 1 <= month -> clipFromOne month = Zfloor month.
Proof.
  intros H. unfold clipFromOne.
  assert (1 <= Zfloor month)%Z by (apply Zfloor_lub; lra).
  lia.
Qed.

(** Two schedules that agree on every month the loop reads give the same
    rows. *)
Lemma retirementLoop_ext (rate s : number) (bm1 bm2 : gmap Z R) (n : nat) :
  forall (t : Z) (W : number),
    (forall k : Z, (t < k)%Z -> default 0 (bm1 !! k) = default 0 (bm2 !! k)) ->
    retirementLoop rate s bm1 n t W = retirementLoop rate s bm2 n t W.
Proof.
  induction n as [|n IH]; intros t W Hagree; simpl.
  - reflexivity.
  - f_equal. unfold accumStep, oneOffAt. rewrite (Hagree (t + 1)%Z) by lia.
    apply IH. intros k Hk. apply Hagree. lia.
Qed.

Lemma projectToRetirement_nonpos_lump (W0 s rate : number) (months : Z)
    (l1 l2 : list Lump) (ls : Lump) :
  month ls <= 0 ->
  projectToRetirement W0 s months rate (l1 ++ ls :: l2)
  = projectToRetirement W0 s months rate (l1 ++ l2).
Proof.
  intros Hnonpos. unfold projectToRetirement. apply retirementLoop_ext.
  intros k Hk. rewrite !buildByMonth_lookup, clippedSum_insert.
  rewrite clipToHorizon_nonpos by exact Hnonpos.
  rewrite decide_False by lia. lra.
Qed.

Lemma retirementLoop_clipped (W0 s rate : number) (months : Z) (lumps : list Lump)
    (n : nat) :
  forall k : nat,
    retirementLoop rate s (buildByMonth (clipToHorizon months) lumps) n
      (Z.of_nat k) (clippedWealth W0 s rate months lumps k)
    = map (fun t => mkRow (Z.of_nat t) (clippedWealth W0 s rate months lumps t))
        (seq k n).
Proof.
  induction n as [|n IH]; intros k; simpl.
  - reflexivity.
  - f_equal. replace (Z.of_nat k + 1)%Z with (Z.of_nat (S k)) by lia.
    rewrite <- IH. f_equal.
    unfold accumStep, oneOffAt. rewrite buildByMonth_lookup.
    simpl clippedWealth. do 3 f_equal. lia.
Qed.

Lemma add_Fin_assoc (a : number) (x y : R) :
  (a + Fin (x + y))%js = (a + Fin x + Fin y)%js.
Proof. destruct a; simpl; try reflexivity. f_equal. lra. Qed.

Lemma retirementLoop_disburse_last (rate s : number) (bm1 bm2 : gmap Z R)
    (months : Z) (a : R) (n : nat) :
  (forall k : Z, default 0 (bm1 !! k)
                 = default 0 (bm2 !! k) + (if decide (k = months) then a else 0)) ->
  forall (t : Z) (W : number),
    (t + Z.of_nat n = months + 1)%Z -> (t < months)%Z ->
    retirementLoop rate s bm1 n t W
    = map (disburseAt months a) (retirementLoop rate s bm2 n t W).
Proof.
  intros Hbm. induction n as [|n IH]; intros t W Hn Ht; simpl.
  - reflexivity.
  - unfold disburseAt at 1. simpl. rewrite decide_False by lia. f_equal.
    destruct (decide (t + 1 = months)%Z) as [Hlast|Hmid].
    + assert (n = 1%nat) as -> by lia. simpl. f_equal.
      unfold disburseAt. simpl. rewrite decide_True by lia. f_equal.
      unfold accumStep, oneOffAt. rewrite Hbm, decide_True by lia.
      apply add_Fin_assoc.
    + replace (accumStep rate s bm1 t W) with (accumStep rate s bm2 t W).
      * apply IH; lia.
      * unfold accumStep, oneOffAt. rewrite (Hbm (t + 1)%Z), decide_False by lia.
        do 2 f_equal. lra.
Qed.

(** C4, as the code has it.  [projectToRetirement] clips the month of every
    lump sum to [max(0, min(horizon, floor(month)))] and adds up the amounts
    of one clipped month: its rows are those of the step rule fed with these
    sums.  A lump sum placed after the horizon lands in the bucket of the
    horizon month; with a horizon of at least 1 it changes the series in its
    last row only, by its amount, and with a horizon of 0, where no step is
    taken, the series is the single row of the current wealth.  A lump sum
    placed at month 0 or before lands in bucket 0 and the series is the one
    without it. *)
Theorem C4_lump_sum_clipping (W0 s rate : number) (months : Z)
    (lumps l1 l2 : list Lump) (ls : Lump) :
  let clip := fun month => Z.max 0 (Z.min months (Zfloor month)) in
  projectToRetirement W0 s months rate lumps
  = map (fun t => mkRow (Z.of_nat t) (clippedWealth W0 s rate months lumps t))
      (seq 0 (Z.to_nat (months + 1)))
  /\
  ((0 <= months)%Z -> IZR months < month ls ->
     (forall k : Z,
        clippedSum clip (l1 ++ ls :: l2) k
        = clippedSum clip (l1 ++ l2) k + (if decide (k = months) then amount ls else 0))
     /\
     ((1 <= months)%Z ->
        projectToRetirement W0 s months rate (l1 ++ ls :: l2)
        = map (disburseAt months (amount ls))
            (projectToRetirement W0 s months rate (l1 ++ l2)))
     /\
     (months = 0%Z ->
        projectToRetirement W0 s months rate (l1 ++ ls :: l2) = [mkRow 0 W0]))
  /\
  (month ls <= 0 ->
     (forall k : Z,
        clippedSum clip (l1 ++ ls :: l2) k
        = clippedSum clip (l1 ++ l2) k + (if decide (k = 0%Z) then amount ls else 0))
     /\
     projectToRetirement W0 s months rate (l1 ++ ls :: l2)
     = projectToRetirement W0 s months rate (l1 ++ l2)).
Proof.
  intros clip. split; [|split].
  - unfold projectToRetirement.
    apply (retirementLoop_clipped W0 s rate months lumps _ 0).
  - intros Hm Hbeyond.
    assert (Hclip : clip (month ls) = months)
      by now apply clipToHorizon_beyond.
    assert (Hsum : forall k : Z,
        clippedSum clip (l1 ++ ls :: l2) k
        = clippedSum clip (l1 ++ l2) k + (if decide (k = months) then amount ls else 0)).
    { intros k. rewrite clippedSum_insert, Hclip.
      destruct (decide (months = k)), (decide (k = months)); congruence || lra. }
    split; [exact Hsum|]. split.
    + intros H1. unfold projectToRetirement.
      apply retirementLoop_disburse_last; [|lia|lia].
      intros k. rewrite !buildByMonth_lookup. apply Hsum.
    + intros ->. reflexivity.
  - intros Hnonpos.
    assert (Hclip : clip (month ls) = 0%Z)
      by now apply clipToHorizon_nonpos.
    assert (Hsum : forall k : Z,
        clippedSum clip (l1 ++ ls :: l2) k
        = clippedSum clip (l1 ++ l2) k + (if decide (k = 0%Z) then amount ls else 0)).
    { intros k. rewrite clippedSum_insert, Hclip.
      destruct (decide (0%Z = k)), (decide (k = 0%Z)); congruence || lra. }
    split; [exact Hsum|].
    now apply projectToRetirement_nonpos_lump.
Qed.

Lemma C4_lump_sum_clipping_witness :
  let late := mkLump 1 52 7 in
  let early := mkLump 2 (-5) 7 in
  projectToRetirement (Fin 1000) (Fin 100) 2 (Fin 0) ([] ++ late :: [])
  = map (disburseAt 2 7) (projectToRetirement (Fin 1000) (Fin 100) 2 (Fin 0) ([] ++ []))
  /\
  projectToRetirement (Fin 1000) (Fin 100) 0 (Fin 0) ([] ++ late :: [])
  = [mkRow 0 (Fin 1000)]
  /\
  projectToRetirement (Fin 1000) (Fin 100) 2 (Fin 0) ([] ++ early :: [])
  = projectToRetirement (Fin 1000) (Fin 100) 2 (Fin 0) ([] ++ []).
Proof.
  intros late early. split; [|split].
  - destruct (C4_lump_sum_clipping (Fin 1000) (Fin 100) (Fin 0) 2 [] [] [] late)
      as (_ & Hlate & _).
    destruct Hlate as (_ & Hlast & _); [lia | simpl; lra |].
    apply Hlast. lia.
  - destruct (C4_lump_sum_clipping (Fin 1000) (Fin 100) (Fin 0) 0 [] [] [] late)
      as (_ & Hlate & _).
    destruct Hlate as (_ & _ & Hnone); [lia | simpl; lra |].
    apply Hnone. reflexivity.
  - destruct (C4_lump_sum_clipping (Fin 1000) (Fin 100) (Fin 0) 2 [] [] [] early)
      as (_ & _ & Hearly).
    apply Hearly. simpl. lra.
Defined.

(** C4 as stated fails at a horizon of 0.  A lump sum of 9 entered for
    month 1 is placed after the horizon, but no step ends at month 0: the
    only row is the current wealth 5, as without the lump sum, and not the
    14 that a disbursement at the horizon month would give. *)
Lemma C4_counterexample :
  IZR 0 < month (mkLump 1 1 9)
  /\ projectToRetirement (Fin 5) (Fin 0) 0 (Fin 0) [mkLump 1 1 9] = [mkRow 0 (Fin 5)]
  /\ projectToRetirement (Fin 5) (Fin 0) 0 (Fin 0) [mkLump 1 1 9]
     = projectToRetirement (Fin 5) (Fin 0) 0 (Fin 0) []
  /\ map (disburseAt 0 (amount (mkLump 1 1 9)))
       (projectToRetirement (Fin 5) (Fin 0) 0 (Fin 0) [])
     = [mkRow 0 (Fin (5 + 9))]
  /\ projectToRetirement (Fin 5) (Fin 0) 0 (Fin 0) [mkLump 1 1 9]
     <> map (disburseAt 0 (amount (mkLump 1 1 9)))
          (projectToRetirement (Fin 5) (Fin 0) 0 (Fin 0) []).
Proof.
  assert (Hrows : map (disburseAt 0 (amount (mkLump 1 1 9)))
                    (projectToRetirement (Fin 5) (Fin 0) 0 (Fin 0) [])
                  = [mkRow 0 (Fin (5 + 9))]) by reflexivity.
  split; [simpl; lra|]. split; [reflexivity|]. split; [reflexivity|].
  split; [exact Hrows|].
  rewrite Hrows. intros H. injection H as H. lra.
Qed.

(** ** The goal-time estimator *)

Lemma goalLoop_ext (rate s : number) (bm1 bm2 : gmap Z R) (target : number) (n : nat) :
  forall (t : Z) (W : number),
    (forall k : Z, (t < k)%Z -> default 0 (bm1 !! k) = default 0 (bm2 !! k)) ->
    goalLoop rate s bm1 target n t W = goalLoop rate s bm2 target n t W.
Proof.
  induction n as [|n IH]; intros t W Hagree; simpl.
  - reflexivity.
  - destruct (W >=? target)%js; [reflexivity|].
    unfold accumStep, oneOffAt. rewrite (Hagree (t + 1)%Z) by lia.
    apply IH. intros k Hk. apply Hagree. lia.
Qed.

(** The loop of the estimator returns the first month at which the
    simulated wealth reaches the target, if there is one among the [n]
    months it tests, and [Infinity] if there is none. *)
Lemma goalLoop_first (rate s : number) (byMonth : gmap Z R) (target : number) (n : nat) :
  forall (j : nat) (t : Z) (W : number),
    (j < n)%nat ->
    (accumAfter rate s byMonth j t W >=? target)%js = true ->
    (forall i : nat, (i < j)%nat ->
       (accumAfter rate s byMonth i t W >=? target)%js = false) ->
    goalLoop rate s byMonth target n t W = Fin (IZR (t + Z.of_nat j)).
Proof.
  induction n as [|n IH]; intros j t W Hj Hhit Hbefore; [lia|].
  simpl. destruct j as [|j].
  - simpl in Hhit. rewrite Hhit. do 2 f_equal. lia.
  - pose proof (Hbefore 0%nat ltac:(lia)) as H0. simpl in H0. rewrite H0.
    rewrite (IH j); [do 2 f_equal; lia | lia | exact Hhit |].
    intros i Hi. apply (Hbefore (S i)). lia.
Qed.

Lemma goalLoop_none (rate s : number) (byMonth : gmap Z R) (target : number) (n : nat) :
  forall (t : Z) (W : number),
    (forall i : nat, (i < n)%nat ->
       (accumAfter rate s byMonth i t W >=? target)%js = false) ->
    goalLoop rate s byMonth target n t W = PosInf.
Proof.
  induction n as [|n IH]; intros t W Hnever; simpl; [reflexivity|].
  pose proof (Hnever 0%nat ltac:(lia)) as H0. simpl in H0. rewrite H0.
  apply IH. intros i Hi. apply (Hnever (S i)). lia.
Qed.

(** The running wealth of the loops follows any sequence built by the step
    rule from the sums the schedule holds. *)
Lemma accumAfter_follows_rule (rate s : number) (byMonth : gmap Z R)
    (lump : Z -> R) (wealthAt : nat -> number) :
  (forall k : Z, default 0 (byMonth !! k) = lump k) ->
  (forall t : nat,
     wealthAt (S t)
     = (wealthAt t * (Fin 1 + rate) + s + Fin (lump (Z.of_nat (S t))))%js) ->
  forall n t0 : nat,
    accumAfter rate s byMonth n (Z.of_nat t0) (wealthAt t0) = wealthAt (t0 + n)%nat.
Proof.
  intros Hbm Hrule. induction n as [|n IH]; intros t0; cbn [accumAfter].
  - f_equal. lia.
  - replace (accumStep rate s byMonth (Z.of_nat t0) (wealthAt t0))
      with (wealthAt (S t0)).
    + replace (Z.of_nat t0 + 1)%Z with (Z.of_nat (S t0)) by lia.
      rewrite IH. f_equal. lia.
    + rewrite Hrule. unfold accumStep, oneOffAt. rewrite Hbm.
      do 3 f_equal. lia.
Qed.

(** The estimator on a wealth sequence: the first month that reaches the
    target, or [Infinity] when none of the months 0 .. 1200 does. *)
Lemma monthsToGoal_first_month (targetWealth W0 s : number) (lumps : list Lump)
    (rate : number) (lump : Z -> R) (wealthAt : nat -> number) :
  (forall k : Z, clippedSum clipFromOne lumps k = lump k) ->
  wealthAt 0%nat = W0 ->
  (forall t : nat,
     wealthAt (S t)
     = (wealthAt t * (Fin 1 + rate) + s + Fin (lump (Z.of_nat (S t))))%js) ->
  (targetWealth <=? Fin 0)%js = false ->
  (forall t : nat, (t <= 1200)%nat ->
     (wealthAt t >=? targetWealth)%js = true ->
     (forall i : nat, (i < t)%nat -> (wealthAt i >=? targetWealth)%js = false) ->
     monthsToGoal targetWealth W0 s lumps rate = Fin (INR t))
  /\
  ((forall t : nat, (t <= 1200)%nat -> (wealthAt t >=? targetWealth)%js = false) ->
   monthsToGoal targetWealth W0 s lumps rate = PosInf).
Proof.
  intros Hlump H0 Hrule Hpos.
  assert (Hrun : forall t : nat,
             accumAfter rate s (buildByMonth clipFromOne lumps) t 0%Z W0 = wealthAt t).
  { intros t. rewrite <- H0.
    apply (accumAfter_follows_rule rate s (buildByMonth clipFromOne lumps) lump
             wealthAt) with (n := t) (t0 := 0%nat); [|exact Hrule].
    intros k. now rewrite buildByMonth_lookup. }
  unfold monthsToGoal. rewrite Hpos.
  change (Z.to_nat (cap + 1)) with 1201%nat. split.
  - intros t Ht Hhit Hbefore.
    rewrite (goalLoop_first _ _ _ _ _ t).
    + f_equal. rewrite INR_IZR_INZ. f_equal.
    + lia.
    + now rewrite Hrun.
    + intros i Hi. rewrite Hrun. now apply Hbefore.
  - intros Hnever. apply goalLoop_none.
    intros i Hi. rewrite Hrun. apply Hnever. lia.
Qed.

Lemma Zfloor_of_Z (z : Z) : Zfloor (IZR z) = z.
Proof. apply Zfloor_eq. lra. Qed.

(** C9.  The estimator clips the month of a lump sum from below only, to
    [max(1, floor(month))], its bucket: a month from 1 on is kept, however
    large, and a month of 0 or less becomes 1.  The estimator's result is
    the one of the step rule in which the amount of the lump sum is paid in
    the step that ends at its bucket, so a lump sum with [month <= 0] is
    paid in the first simulated step; [projectToRetirement] puts the same
    lump sum in bucket 0 and its rows are those of the step rule fed with
    the other lump sums only. *)
Theorem C9_goal_estimator_clipping (targetWealth W0 s rate : number) (months : Z)
    (l1 l2 : list Lump) (ls : Lump) (wealthAt : nat -> number) :
  let bucket := Z.max 1 (Zfloor (month ls)) in
  let others := clippedSum (fun month => Z.max 1 (Zfloor month)) (l1 ++ l2) in
  wealthAt 0%nat = W0 ->
  (forall t : nat,
     wealthAt (S t)
     = (wealthAt t * (Fin 1 + rate) + s
        + Fin (others (Z.of_nat (S t))
               + (if decide (Z.of_nat (S t) = bucket) then amount ls else 0)))%js) ->
  (1 <= month ls -> bucket = Zfloor (month ls))
  /\
  (month ls <= 0 -> bucket = 1%Z)
  /\
  ((targetWealth <=? Fin 0)%js = false ->
     (forall t : nat, (t <= 1200)%nat ->
        (wealthAt t >=? targetWealth)%js = true ->
        (forall i : nat, (i < t)%nat -> (wealthAt i >=? targetWealth)%js = false) ->
        monthsToGoal targetWealth W0 s (l1 ++ ls :: l2) rate = Fin (INR t))
     /\
     ((forall t : nat, (t <= 1200)%nat ->
         (wealthAt t >=? targetWealth)%js = false) ->
      monthsToGoal targetWealth W0 s (l1 ++ ls :: l2) rate = PosInf))
  /\
  (month ls <= 0 ->
     clipToHorizon months (month ls) = 0%Z
     /\ projectToRetirement W0 s months rate (l1 ++ ls :: l2)
        = projectToRetirement W0 s months rate (l1 ++ l2)
     /\ projectToRetirement W0 s months rate (l1 ++ ls :: l2)
        = map (fun t => mkRow (Z.of_nat t)
                          (clippedWealth W0 s rate months (l1 ++ l2) t))
            (seq 0 (Z.to_nat (months + 1)))).
Proof.
  intros bucket others H0 Hrule. split; [|split; [|split]].
  - exact (clipFromOne_from_one (month ls)).
  - exact (clipFromOne_nonpos (month ls)).
  - intros Hpos.
    apply (monthsToGoal_first_month targetWealth W0 s (l1 ++ ls :: l2) rate
             (fun k => others k + (if decide (k = bucket) then amount ls else 0))
             wealthAt); [| exact H0 | exact Hrule | exact Hpos].
    intros k. rewrite clippedSum_insert. fold others. f_equal.
    change (clipFromOne (month ls)) with bucket.
    destruct (decide (bucket = k)), (decide (k = bucket)); congruence.
  - intros Hnonpos. split; [now apply clipToHorizon_nonpos|].
    rewrite projectToRetirement_nonpos_lump by exact Hnonpos.
    split; [reflexivity|].
    unfold projectToRetirement.
    apply (retirementLoop_clipped W0 s rate months (l1 ++ l2) _ 0).
Qed.

Lemma C9_goal_estimator_clipping_witness :
  let early := mkLump 1 (-5) 700 in
  let late := mkLump 2 (7 / 2) 700 in
  (monthsToGoal (Fin 500) (Fin 0) (Fin 0) ([] ++ early :: []) (Fin 0) = Fin (INR 1)
   /\ projectToRetirement (Fin 0) (Fin 0) 2 (Fin 0) ([] ++ early :: [])
      = map (fun t => mkRow (Z.of_nat t)
                        (clippedWealth (Fin 0) (Fin 0) (Fin 0) 2 ([] ++ []) t))
          (seq 0 (Z.to_nat (2 + 1))))
  /\ monthsToGoal (Fin 500) (Fin 0) (Fin 0) ([] ++ late :: []) (Fin 0) = Fin (INR 3).
Proof.
  intros early late.
  assert (Hpos : (Fin 500 <=? Fin 0)%js = false) by (apply le_Fin_false; lra).
  assert (Hearly : month early <= 0) by (simpl; lra).
  assert (Hlate : 1 <= month late) by (simpl; lra).
  pose (paid := fun (ls : Lump) (k : Z) =>
          clippedSum (fun month => Z.max 1 (Zfloor month)) ([] ++ []) k
          + (if decide (k = Z.max 1 (Zfloor (month ls))) then amount ls else 0)).
  split; [split|].
  - destruct (C9_goal_estimator_clipping (Fin 500) (Fin 0) (Fin 0) (Fin 0) 2 [] [] early
                (stepRuleWealth (Fin 0) (Fin 0) (Fin 0) (paid early)))
      as (_ & Hbucket & Hgoal & _); [reflexivity | reflexivity |].
    destruct (Hgoal Hpos) as [Hfirst _]. apply Hfirst; [lia | |].
    + cbn [stepRuleWealth]. unfold paid. rewrite (Hbucket Hearly).
      simpl. apply bool_decide_eq_true. lra.
    + intros i Hi. assert (i = 0%nat) as -> by lia.
      simpl. apply bool_decide_eq_false. lra.
  - destruct (C9_goal_estimator_clipping (Fin 500) (Fin 0) (Fin 0) (Fin 0) 2 [] [] early
                (stepRuleWealth (Fin 0) (Fin 0) (Fin 0) (paid early)))
      as (_ & _ & _ & Hproj); [reflexivity | reflexivity |].
    apply (Hproj Hearly).
  - destruct (C9_goal_estimator_clipping (Fin 500) (Fin 0) (Fin 0) (Fin 0) 2 [] [] late
                (stepRuleWealth (Fin 0) (Fin 0) (Fin 0) (paid late)))
      as (Hbucket & _ & Hgoal & _); [reflexivity | reflexivity |].
    assert (Hfloor : Zfloor (month late) = 3%Z) by (apply Zfloor_eq; simpl; lra).
    destruct (Hgoal Hpos) as [Hfirst _]. apply Hfirst; [lia | |].
    + cbn [stepRuleWealth]. unfold paid. rewrite (Hbucket Hlate), Hfloor.
      simpl. apply bool_decide_eq_true. lra.
    + intros i Hi.
      destruct i as [|[|[|i]]]; [| | |lia]; cbn [stepRuleWealth]; unfold paid;
        rewrite ?(Hbucket Hlate), ?Hfloor; simpl; apply bool_decide_eq_false; lra.
Defined.

(** The two clipping rules side by side: a lump sum of 700 entered for month
    -5 takes the estimator to a target of 500 in month 1, and leaves the
    projection at 0. *)
Example early_lump_sum_reaches_the_estimator_only :
  let ls := mkLump 1 (-5) 700 in
  monthsToGoal (Fin 500) (Fin 0) (Fin 0) [ls] (Fin 0) = Fin 1
  /\ projectToRetirement (Fin 0) (Fin 0) 1 (Fin 0) [ls]
     = [mkRow 0 (Fin 0); mkRow 1 (Fin 0)].
Proof.
  intros ls. split.
  - unfold monthsToGoal.
    rewrite (proj2 (le_Fin_false 500 0)) by lra.
    change (Z.to_nat (cap + 1)) with (S (S (Z.to_nat (cap - 1)))).
    cbn [goalLoop]. unfold Num.ge.
    rewrite (proj2 (le_Fin_false 500 0)) by lra.
    rewrite accumStep_Fin, buildByMonth_lookup. cbn [clippedSum fold_right ls month amount].
    rewrite clipFromOne_nonpos by lra. rewrite decide_True by reflexivity.
    rewrite (proj2 (le_Fin 500 _)) by lra. reflexivity.
  - change ([ls]) with ([] ++ ls :: []).
    rewrite projectToRetirement_nonpos_lump by (simpl; lra).
    unfold projectToRetirement. js_eval. repeat f_equal; try lia; lra.
Qed.

(** C6.  [monthsToGoal] returns 0 at once when the target is [<= 0].
    Otherwise, for the wealth sequence of the accumulation step rule, which
    starts at the current wealth and at every step turns the wealth into
    [wealth * (1 + rate) + flow + lump], the lump of the step that ends at
    month [k] being the sum of the lump sums entered for month [k] (month
    [max(1, floor(month))]), it returns the first month [t <= 1200] whose
    wealth is [>=] the target, and [Infinity] when no month up to 1200 has
    such a wealth. *)
Theorem C6_months_to_goal (targetWealth W0 s : number) (lumps : list Lump)
    (rate : number) (wealthAt : nat -> number) :
  wealthAt 0%nat = W0 ->
  (forall t : nat,
     wealthAt (S t)
     = (wealthAt t * (Fin 1 + rate) + s
        + Fin (clippedSum (fun month => Z.max 1 (Zfloor month)) lumps
                 (Z.of_nat (S t))))%js) ->
  ((targetWealth <=? Fin 0)%js = true ->
     monthsToGoal targetWealth W0 s lumps rate = Fin 0)
  /\
  ((targetWealth <=? Fin 0)%js = false ->
     (forall t : nat, (t <= 1200)%nat ->
        (wealthAt t >=? targetWealth)%js = true ->
        (forall i : nat, (i < t)%nat -> (wealthAt i >=? targetWealth)%js = false) ->
        monthsToGoal targetWealth W0 s lumps rate = Fin (INR t))
     /\
     ((forall t : nat, (t <= 1200)%nat ->
         (wealthAt t >=? targetWealth)%js = false) ->
      monthsToGoal targetWealth W0 s lumps rate = PosInf)).
Proof.
  intros H0 Hrule. split.
  - intros Hneg. unfold monthsToGoal. now rewrite Hneg.
  - intros Hpos.
    apply (monthsToGoal_first_month targetWealth W0 s lumps rate
             (clippedSum (fun month => Z.max 1 (Zfloor month)) lumps) wealthAt);
      [reflexivity | exact H0 | exact Hrule | exact Hpos].
Qed.

Lemma C6_months_to_goal_witness :
  let lumps := [mkLump 1 3 40; mkLump 2 (7 / 2) 40] in
  monthsToGoal (Fin (-5)) (Fin 0) (Fin 10) lumps (Fin 0) = Fin 0
  /\ monthsToGoal (Fin 100) (Fin 0) (Fin 10) lumps (Fin 0) = Fin (INR 3)
  /\ monthsToGoal (Fin 100) (Fin 0) (Fin 0) lumps (Fin 0) = PosInf.
Proof.
  intros lumps.
  set (lump := clippedSum (fun month => Z.max 1 (Zfloor month)) lumps).
  assert (Hneg : (Fin (-5) <=? Fin 0)%js = true) by (apply le_Fin; lra).
  assert (Hpos : (Fin 100 <=? Fin 0)%js = false) by (apply le_Fin_false; lra).
  assert (Hfloor : Zfloor (7 / 2) = 3%Z) by (apply Zfloor_eq; simpl; lra).
  assert (Hlump : forall k : Z, lump k = if decide (k = 3%Z) then 80 else 0).
  { intros k. unfold lump, lumps, clippedSum. cbn [fold_right month amount].
    rewrite Hfloor, (Zfloor_of_Z 3).
    destruct (decide (Z.max 1 3 = k)), (decide (k = 3%Z)); try lia; lra. }
  split; [|split].
  - now apply (C6_months_to_goal (Fin (-5)) (Fin 0) (Fin 10) lumps (Fin 0)
                 (stepRuleWealth (Fin 0) (Fin 10) (Fin 0) lump)).
  - destruct (C6_months_to_goal (Fin 100) (Fin 0) (Fin 10) lumps (Fin 0)
                (stepRuleWealth (Fin 0) (Fin 10) (Fin 0) lump)) as [_ H];
      [reflexivity | reflexivity |].
    destruct (H Hpos) as [Hfirst _]. apply Hfirst; [lia | |].
    + cbn [stepRuleWealth]. rewrite !Hlump. simpl. apply bool_decide_eq_true. lra.
    + intros i Hi.
      destruct i as [|[|[|i]]]; [| | |lia]; cbn [stepRuleWealth]; rewrite ?Hlump;
        simpl; apply bool_decide_eq_false; lra.
  - destruct (C6_months_to_goal (Fin 100) (Fin 0) (Fin 0) lumps (Fin 0)
                (stepRuleWealth (Fin 0) (Fin 0) (Fin 0) lump)) as [_ H];
      [reflexivity | reflexivity |].
    destruct (H Hpos) as [_ Hnever]. apply Hnever. intros t _.
    assert (Hle : exists x : R,
               stepRuleWealth (Fin 0) (Fin 0) (Fin 0) lump t = Fin x
               /\ ((t < 3)%nat -> x = 0) /\ ((3 <= t)%nat -> x = 80)).
    { induction t as [|t IHt].
      - exists 0. split; [reflexivity|]. split; [reflexivity | lia].
      - destruct IHt as (x & Hx & Hlow & Hhigh).
        cbn [stepRuleWealth]. rewrite Hx, Hlump. simpl.
        eexists. split; [reflexivity|].
        destruct (decide (Z.of_nat (S t) = 3%Z)) as [E|E].
        + rewrite Hlow by lia. split; [lia | lra].
        + destruct (le_lt_dec 3 t) as [Hge|Hlt].
          * rewrite Hhigh by lia. split; [lia | lra].
          * rewrite Hlow by lia. split; [lra | lia]. }
    destruct Hle as (x & -> & Hlow & Hhigh). apply le_Fin_false.
    destruct (le_lt_dec 3 t) as [Hge|Hlt]; [rewrite Hhigh by lia | rewrite Hlow by lia]; lra.
Defined.

(** ** The two-regime projection *)

Lemma fullLoop_raw (mtr : Z) (s ra rr sp : number) (byMonth : gmap Z R)
    (W0 : number) (n : nat) :
  forall k : nat,
    fullLoop mtr s ra rr sp byMonth n (Z.of_nat k)
      (rawWealth mtr s ra rr sp byMonth W0 k)
    = map (fun t => mkRow (Z.of_nat t)
                      (Num.max (Fin 0) (rawWealth mtr s ra rr sp byMonth W0 t)))
        (seq k n).
Proof.
  induction n as [|n IH]; intros k; simpl.
  - reflexivity.
  - f_equal. replace (Z.of_nat k + 1)%Z with (Z.of_nat (S k)) by lia.
    now rewrite <- IH.
Qed.

Lemma fullStep_Fin (mtr : Z) (s ra rr sp : R) (byMonth : gmap Z R) (t : Z) (W : R) :
  exists x : R, fullStep mtr (Fin s) (Fin ra) (Fin rr) (Fin sp) byMonth t (Fin W) = Fin x.
Proof.
  unfold fullStep. destruct (t <? mtr)%Z.
  - rewrite accumStep_Fin. eauto.
  - unfold spendStep. simpl. eauto.
Qed.

Lemma rawWealth_Fin (mtr : Z) (s ra rr sp : R) (byMonth : gmap Z R) (W0 : R) (t : nat) :
  exists x : R,
    rawWealth mtr (Fin s) (Fin ra) (Fin rr) (Fin sp) byMonth (Fin W0) t = Fin x.
Proof.
  induction t as [|t [x IH]]; simpl.
  - eauto.
  - rewrite IH. apply fullStep_Fin.
Qed.

Lemma max_zero_nonneg (x : R) : (Fin 0 <=? Num.max (Fin 0) (Fin x))%js = true.
Proof.
  unfold Num.max. destruct (Fin 0 <? Fin x)%js eqn:E.
  - apply lt_Fin in E. apply le_Fin. lra.
  - apply le_Fin. lra.
Qed.

(** C8.  On finite inputs every row of [projectFullTo100] has a wealth
    [>= 0].  The row of month [t] holds [max(0, W)] for the running wealth
    [W], and the running wealth itself is carried from step to step as it
    is: the next step starts from [W], not from the floored value. *)
Theorem C8_floor_at_emission_only (age : Z) (W0 : R) (monthsToRetire : Z)
    (s accumRate retireRate spend : R) (lumps : list Lump) :
  let rows :=
    projectFullTo100 age (Fin W0) monthsToRetire (Fin s) (Fin accumRate)
      (Fin retireRate) (Fin spend) lumps in
  let W :=
    rawWealth monthsToRetire (Fin s) (Fin accumRate) (Fin retireRate) (Fin spend)
      (buildByMonth (clipToHorizon monthsToRetire) lumps) (Fin W0) in
  Forall nonnegRow rows
  /\ rows = map (fun t => mkRow (Z.of_nat t) (Num.max (Fin 0) (W t)))
              (seq 0 (Z.to_nat (monthsTo100Of age + 1))).
Proof.
  intros rows W.
  assert (Hrows : rows = map (fun t => mkRow (Z.of_nat t) (Num.max (Fin 0) (W t)))
                           (seq 0 (Z.to_nat (monthsTo100Of age + 1)))).
  { unfold rows, projectFullTo100.
    apply (fullLoop_raw monthsToRetire (Fin s) (Fin accumRate) (Fin retireRate)
             (Fin spend) _ (Fin W0) _ 0%nat). }
  split; [|exact Hrows].
  rewrite Hrows. apply Forall_map, Forall_forall. intros t _.
  unfold nonnegRow, W. simpl.
  destruct (rawWealth_Fin monthsToRetire s accumRate retireRate spend
              (buildByMonth (clipToHorizon monthsToRetire) lumps) W0 t) as [x ->].
  apply max_zero_nonneg.
Qed.

(** The floor does not feed back: with a start wealth of -150 and a monthly
    spend of -100 (an income) after retirement, the rows are 0, 0, 50; had
    the floored 0 been carried on, month 1 would show 100. *)
Example floor_does_not_feed_back :
  projectFullTo100 100 (Fin (-150)) 0 (Fin 0) (Fin 0) (Fin 0) (Fin (-100)) []
  = [mkRow 0 (Fin 0)]
  /\ fullLoop 0 (Fin 0) (Fin 0) (Fin 0) (Fin (-100)) ∅ 3 0%Z (Fin (-150))
     = [mkRow 0 (Fin 0); mkRow 1 (Fin 0); mkRow 2 (Fin 50)].
Proof.
  split.
  - unfold projectFullTo100. simpl. unfold Num.max. simpl. js_decide. reflexivity.
  - simpl. unfold Num.max. simpl. js_decide.
    unfold fullStep, spendStep. rewrite !Z.add_0_l. simpl.
    repeat f_equal; try lia; lra.
Qed.

Lemma fullLoop_accumulation_only (mtr : Z) (s ra rr sp : number)
    (byMonth : gmap Z R) (n : nat) :
  forall (t : Z) (W : number),
    (t + Z.of_nat n <= mtr + 1)%Z ->
    fullLoop mtr s ra rr sp byMonth n t W
    = map (fun row => mkRow (m row) (Num.max (Fin 0) (wealth row)))
        (retirementLoop ra s byMonth n t W).
Proof.
  induction n as [|n IH]; intros t W Hn; simpl.
  - reflexivity.
  - f_equal. destruct n as [|n].
    + reflexivity.
    + unfold fullStep. replace (t <? mtr)%Z with true by (symmetry; apply Z.ltb_lt; lia).
      apply IH. lia.
Qed.

(** C10.  When [monthsToRetire >= monthsTo100], every step of
    [projectFullTo100] that a row depends on is an accumulation step: the
    rows are those of the accumulation loop, floored, and two runs that
    differ only in the retirement return and the monthly spend return the
    same rows. *)
Theorem C10_independent_of_retirement_inputs (age : Z) (W0 : number)
    (monthsToRetire : Z) (s accumRate : number) (lumps : list Lump)
    (retireRate1 spend1 retireRate2 spend2 : number) :
  (monthsTo100Of age <= monthsToRetire)%Z ->
  projectFullTo100 age W0 monthsToRetire s accumRate retireRate1 spend1 lumps
  = map (fun row => mkRow (m row) (Num.max (Fin 0) (wealth row)))
      (retirementLoop accumRate s (buildByMonth (clipToHorizon monthsToRetire) lumps)
         (Z.to_nat (monthsTo100Of age + 1)) 0%Z W0)
  /\
  projectFullTo100 age W0 monthsToRetire s accumRate retireRate1 spend1 lumps
  = projectFullTo100 age W0 monthsToRetire s accumRate retireRate2 spend2 lumps.
Proof.
  intros Hle.
  assert (H0 : (0 <= monthsTo100Of age)%Z) by (unfold monthsTo100Of; lia).
  unfold projectFullTo100.
  rewrite !fullLoop_accumulation_only by lia. split; reflexivity.
Qed.

Lemma C10_independent_of_retirement_inputs_witness :
  projectFullTo100 99 (Fin 1000) 12 (Fin 100) (Fin 0) (Fin (1 / 100)) (Fin 500) []
  = projectFullTo100 99 (Fin 1000) 12 (Fin 100) (Fin 0) (Fin (-1 / 2)) (Fin 90000) [].
Proof.
  apply (C10_independent_of_retirement_inputs 99 (Fin 1000) 12 (Fin 100) (Fin 0) []
           (Fin (1 / 100)) (Fin 500) (Fin (-1 / 2)) (Fin 90000)).
  vm_compute. discriminate.
Defined.

(** ** Years of runway *)

(** C5.  [yearsOfRunway] returns [Infinity] when [annualSpend <= 0];
    otherwise, with [r = pct / 100], it returns [startingWealth / annualSpend]
    when [r = 0]; otherwise, with [ratio = 1 - startingWealth * r / annualSpend],
    it returns [Infinity] when [ratio <= 0] and [-ln(ratio) / ln(1 + r)]
    when [ratio > 0]. *)
Theorem C5_years_of_runway (startingWealth annualSpend pct : R) :
  let r := pct / 100 in
  let ratio := 1 - startingWealth * r / annualSpend in
  let years := yearsOfRunway (Fin startingWealth) (Fin annualSpend) (Fin pct) in
  (annualSpend <= 0 -> years = PosInf)
  /\ (0 < annualSpend -> r = 0 -> years = Fin (startingWealth / annualSpend))
  /\ (0 < annualSpend -> r <> 0 -> ratio <= 0 -> years = PosInf)
  /\ (0 < annualSpend -> r <> 0 -> 0 < ratio ->
        years = (- Num.log (Fin ratio) / Num.log (Fin (1 + r)))%js
        /\ (0 < 1 + r -> years = Fin (- ln ratio / ln (1 + r)))).
Proof.
  intros r ratio years. unfold years, yearsOfRunway. cbv zeta.
  rewrite (div_Fin pct 100) by lra. fold r.
  split; [|split; [|split]].
  - intros Hs. rewrite (proj2 (le_Fin annualSpend 0)) by exact Hs. reflexivity.
  - intros Hs Hr. rewrite (proj2 (le_Fin_false annualSpend 0)) by exact Hs.
    rewrite (proj2 (eq_Fin r 0)) by exact Hr.
    apply div_Fin. lra.
  - intros Hs Hr Hratio. rewrite (proj2 (le_Fin_false annualSpend 0)) by exact Hs.
    rewrite (proj2 (eq_Fin_false r 0)) by exact Hr.
    rewrite mul_Fin, div_Fin, sub_Fin by lra. fold ratio.
    rewrite (proj2 (le_Fin ratio 0)) by exact Hratio. reflexivity.
  - intros Hs Hr Hratio. rewrite (proj2 (le_Fin_false annualSpend 0)) by exact Hs.
    rewrite (proj2 (eq_Fin_false r 0)) by exact Hr.
    rewrite mul_Fin, div_Fin, sub_Fin by lra. fold ratio.
    rewrite (proj2 (le_Fin_false ratio 0)) by exact Hratio.
    rewrite add_Fin. split; [reflexivity|].
    intros Hr1. rewrite !log_Fin by lra. rewrite neg_Fin.
    apply div_Fin.
    intros Hz. rewrite <- ln_1 in Hz. apply ln_inv in Hz; lra.
Qed.

Lemma C5_years_of_runway_witness :
  yearsOfRunway (Fin 100) (Fin 0) (Fin 5) = PosInf
  /\ yearsOfRunway (Fin 100) (Fin 10) (Fin 0) = Fin (100 / 10)
  /\ yearsOfRunway (Fin 1000) (Fin 10) (Fin 5) = PosInf
  /\ yearsOfRunway (Fin 100) (Fin 10) (Fin 5)
     = Fin (- ln (1 - 100 * (5 / 100) / 10) / ln (1 + 5 / 100)).
Proof.
  split; [|split; [|split]].
  - destruct (C5_years_of_runway 100 0 5) as (H & _). apply H. lra.
  - destruct (C5_years_of_runway 100 10 0) as (_ & H & _). apply H; lra.
  - destruct (C5_years_of_runway 1000 10 5) as (_ & _ & H & _). apply H; lra.
  - destruct (C5_years_of_runway 100 10 5) as (_ & _ & _ & H).
    destruct H as [_ H]; [lra | lra | lra |]. apply H. lra.
Defined.

(** ** The required-return solver *)

Lemma one_twelfth_not_int : Num.is_int (1 / 12) = false.
Proof.
  unfold Num.is_int. apply bool_decide_eq_false.
  rewrite (Zfloor_eq 0 (1 / 12)) by (simpl; lra). simpl. lra.
Qed.

(** [toMonthly] on a finite annual rate: a real for rates from -1 on, NaN
    below -1, where [Math.pow] gets a negative base and the exponent 1/12. *)
Lemma toMonthly_above (x : R) :
  -1 < x -> toMonthly (Fin x) = Fin (Rpower (1 + x) (1 / 12) - 1).
Proof.
  intros Hx. unfold toMonthly, Num.pow. rewrite add_Fin.
  rewrite (decide_False (P := 1 / 12 = 0)) by lra.
  rewrite (decide_False (P := 1 + x = 0)) by lra.
  rewrite (decide_True (P := 0 < 1 + x)) by lra.
  reflexivity.
Qed.

Lemma toMonthly_minus_one (x : R) : x = -1 -> toMonthly (Fin x) = Fin (0 - 1).
Proof.
  intros ->. unfold toMonthly, Num.pow. rewrite add_Fin.
  rewrite (decide_False (P := 1 / 12 = 0)) by lra.
  rewrite (decide_True (P := 1 + -1 = 0)) by lra.
  rewrite (decide_True (P := 0 < 1 / 12)) by lra.
  reflexivity.
Qed.

Lemma toMonthly_below (x : R) : x < -1 -> toMonthly (Fin x) = NaN.
Proof.
  intros Hx. unfold toMonthly, Num.pow. rewrite add_Fin.
  rewrite (decide_False (P := 1 / 12 = 0)) by lra.
  rewrite (decide_False (P := 1 + x = 0)) by lra.
  rewrite (decide_False (P := 0 < 1 + x)) by lra.
  rewrite one_twelfth_not_int. reflexivity.
Qed.

Lemma toMonthly_finite (x : R) : -1 <= x -> exists y : R, toMonthly (Fin x) = Fin y.
Proof.
  intros Hx. destruct (Req_dec_T x (-1)) as [Heq|Hne].
  - rewrite toMonthly_minus_one by exact Heq. eauto.
  - rewrite toMonthly_above by lra. eauto.
Qed.

(** A NaN rate makes the wealth NaN from the first step on. *)
Lemma accumStep_NaN_rate (s : number) (byMonth : gmap Z R) (t : Z) (W : number) :
  accumStep NaN s byMonth t W = NaN.
Proof. unfold accumStep. now destruct W. Qed.

Lemma accumStep_NaN_wealth (rate s : number) (byMonth : gmap Z R) (t : Z) :
  accumStep rate s byMonth t NaN = NaN.
Proof. reflexivity. Qed.

Lemma accumAfter_NaN_wealth (rate s : number) (byMonth : gmap Z R) (n : nat) :
  forall t : Z, accumAfter rate s byMonth n t NaN = NaN.
Proof. induction n as [|n IH]; intros t; simpl; [reflexivity | apply IH]. Qed.

Lemma wealthAtRetire_NaN_rate (W s : number) (months : Z) (lumps : list Lump) :
  (0 < months)%Z -> wealthAtRetireWithMonthlyAccum W s months lumps NaN = NaN.
Proof.
  intros Hm. rewrite wealthAtRetireWithMonthlyAccum_eq by lia.
  destruct (Z.to_nat months) as [|n] eqn:E; [lia|].
  simpl. rewrite accumStep_NaN_rate. apply accumAfter_NaN_wealth.
Qed.

Lemma expandLoop_S (f : number -> number) (n : nat) (b : Bracket) :
  expandLoop f (S n) b
  = if (fLo b * fHi b >? Fin 0)%js then
      let b' := evalBracket f (loA b - Fin (1 / 4))%js (hiA b + Fin (1 / 4))%js in
      if (hiA b' >? Fin 3)%js then b' else expandLoop f n b'
    else b.
Proof. reflexivity. Qed.

Lemma bisectLoop_S (f : number -> number) (n : nat) (b : Bracket) :
  bisectLoop f (S n) b
  = let midA := ((loA b + hiA b) / Fin 2)%js in
    let fMid := f (toMonthly midA) in
    if (Num.abs fMid <? Fin 1)%js then midA
    else if (fLo b * fMid <=? Fin 0)%js
    then bisectLoop f n (mkBracket (loA b) midA (fLo b) fMid)
    else bisectLoop f n (mkBracket midA (hiA b) fMid (fHi b)).
Proof. reflexivity. Qed.

Lemma expandLoop_stops (f : number -> number) (n : nat) (b : Bracket) :
  (fLo b * fHi b >? Fin 0)%js = false -> expandLoop f n b = b.
Proof. intros H. destruct n; [reflexivity | now rewrite expandLoop_S, H]. Qed.

(** The third expansion moves [loA] to -1.25, where [toMonthly] is NaN; the
    product [fLo * fHi] is then NaN and no test on it succeeds. *)
Lemma expandLoop_no_sign_test (f : number -> number) :
  f NaN = NaN ->
  let b := expandLoop f 10 (evalBracket f (Fin (- (1 / 2))) (Fin (1 / 2))) in
  (fLo b * fHi b >? Fin 0)%js = false.
Proof.
  intros HNaN.
  set (b0 := evalBracket f (Fin (- (1 / 2))) (Fin (1 / 2))).
  set (b1 := evalBracket f (loA b0 - Fin (1 / 4))%js (hiA b0 + Fin (1 / 4))%js).
  set (b2 := evalBracket f (loA b1 - Fin (1 / 4))%js (hiA b1 + Fin (1 / 4))%js).
  set (b3 := evalBracket f (loA b2 - Fin (1 / 4))%js (hiA b2 + Fin (1 / 4))%js).
  assert (H3 : (fLo b3 * fHi b3 >? Fin 0)%js = false).
  { unfold b3, b2, b1, b0. simpl loA. rewrite !sub_Fin.
    unfold evalBracket at 1. simpl fLo.
    rewrite toMonthly_below by lra. rewrite HNaN. reflexivity. }
  assert (Hhi : forall b', hiA b' = Fin (1 / 2) \/ hiA b' = Fin (1 / 2 + 1 / 4)
                           \/ hiA b' = Fin (1 / 2 + 1 / 4 + 1 / 4) ->
              ((hiA b' + Fin (1 / 4))%js >? Fin 3)%js = false).
  { intros b' [-> | [-> | ->]]; rewrite add_Fin; apply lt_Fin_false; lra. }
  cbv zeta. change (expandLoop f 10 b0) with
    (if (fLo b0 * fHi b0 >? Fin 0)%js then
       if (hiA b1 >? Fin 3)%js then b1 else expandLoop f 9 b1
     else b0).
  destruct (fLo b0 * fHi b0 >? Fin 0)%js eqn:E0; [|exact E0].
  replace (hiA b1 >? Fin 3)%js with false by (symmetry; apply Hhi; now left).
  change (expandLoop f 9 b1) with
    (if (fLo b1 * fHi b1 >? Fin 0)%js then
       if (hiA b2 >? Fin 3)%js then b2 else expandLoop f 8 b2
     else b1).
  destruct (fLo b1 * fHi b1 >? Fin 0)%js eqn:E1; [|exact E1].
  replace (hiA b2 >? Fin 3)%js with false
    by (symmetry; apply Hhi; right; left; reflexivity).
  change (expandLoop f 8 b2) with
    (if (fLo b2 * fHi b2 >? Fin 0)%js then
       if (hiA b3 >? Fin 3)%js then b3 else expandLoop f 7 b3
     else b2).
  destruct (fLo b2 * fHi b2 >? Fin 0)%js eqn:E2; [|exact E2].
  replace (hiA b3 >? Fin 3)%js with false
    by (symmetry; apply Hhi; right; right; reflexivity).
  now rewrite expandLoop_stops.
Qed.

(** With a positive horizon the solver always returns a number: its second
    [return null] is never reached. *)
Lemma solveRequiredMonthlyAccum_returns_number (monthsToRetire : Z)
    (currentWealth monthlySaving : number) (lumpSums : list Lump)
    (wealthAtRetire target : number) :
  (0 < monthsToRetire)%Z ->
  exists x : number,
    solveRequiredMonthlyAccum monthsToRetire currentWealth monthlySaving lumpSums
      wealthAtRetire target = Some x.
Proof.
  intros Hm. unfold solveRequiredMonthlyAccum.
  replace (monthsToRetire <=? 0)%Z with false by (symmetry; apply Z.leb_gt; lia).
  cbv zeta. destruct (wealthAtRetire >=? target)%js; [eauto|].
  rewrite expandLoop_no_sign_test; [eauto|].
  now rewrite wealthAtRetire_NaN_rate.
Qed.

(** *** A target no return reaches

    With nothing saved and nothing to save, the end wealth is 0 at every
    rate, so [f] is the constant [- target] and no bracket has a sign
    change. *)

Lemma accumAfter_nothing (r : R) (n : nat) :
  forall t : Z, accumAfter (Fin r) (Fin 0) ∅ n t (Fin 0) = Fin 0.
Proof.
  induction n as [|n IH]; intros t; simpl accumAfter; [reflexivity|].
  rewrite accumStep_Fin, lookup_empty. simpl.
  replace (0 * (1 + r) + 0 + 0) with 0 by lra. apply IH.
Qed.

Lemma wealthAtRetire_nothing (months : Z) (r : R) :
  (0 <= months)%Z ->
  wealthAtRetireWithMonthlyAccum (Fin 0) (Fin 0) months [] (Fin r) = Fin 0.
Proof.
  intros Hm. rewrite wealthAtRetireWithMonthlyAccum_eq by exact Hm.
  apply accumAfter_nothing.
Qed.

Section ConstantObjective.
Variable f : number -> number.
Variable T : R.
Hypothesis f_const : forall r : R, f (Fin r) = Fin (- T).
Hypothesis f_NaN : f NaN = NaN.
Hypothesis T_large : 1 <= T.

Lemma f_toMonthly (x : R) : -1 <= x -> f (toMonthly (Fin x)) = Fin (- T).
Proof using f_const.
  intros Hx. destruct (toMonthly_finite x Hx) as [y ->]. apply f_const.
Qed.

Lemma same_sign : (Fin (- T) * Fin (- T) >? Fin 0)%js = true.
Proof using T_large. rewrite mul_Fin. apply lt_Fin. nra. Qed.

Lemma expandLoop_constant :
  expandLoop f 10 (evalBracket f (Fin (- (1 / 2))) (Fin (1 / 2)))
  = mkBracket (Fin (- (1 / 2) - 1 / 4 - 1 / 4 - 1 / 4))
      (Fin (1 / 2 + 1 / 4 + 1 / 4 + 1 / 4)) NaN (Fin (- T)).
Proof using f_const f_NaN T_large.
  unfold evalBracket. rewrite !f_toMonthly by lra.
  do 3 (rewrite expandLoop_S; cbn [fLo fHi loA hiA]; rewrite same_sign;
        cbv zeta; unfold evalBracket; rewrite !sub_Fin, !add_Fin;
        cbn [hiA]; unfold Num.gt; rewrite (proj2 (lt_Fin_false 3 _)) by lra;
        rewrite ?f_toMonthly by lra).
  rewrite toMonthly_below by lra. rewrite f_NaN, f_toMonthly by lra.
  now rewrite expandLoop_stops.
Qed.

Lemma bisectLoop_constant (n : nat) :
  forall (lo hi : R) (fh : number),
    -1 <= lo <= hi ->
    bisectLoop f n (mkBracket (Fin lo) (Fin hi) (Fin (- T)) fh)
    = Fin (hi - (hi - lo) / 2 ^ S n).
Proof using f_const T_large.
  induction n as [|n IH]; intros lo hi fh Hlo.
  - cbn [bisectLoop loA hiA]. rewrite add_Fin, div_Fin by lra. f_equal. simpl. lra.
  - rewrite bisectLoop_S. cbn [loA hiA fLo fHi]. cbv zeta.
    rewrite add_Fin, div_Fin by lra. rewrite f_toMonthly by lra.
    replace (Num.abs (Fin (- T)) <? Fin 1)%js with false.
    2:{ symmetry. apply lt_Fin_false. rewrite Rabs_Ropp, Rabs_pos_eq; lra. }
    replace (Fin (- T) * Fin (- T) <=? Fin 0)%js with false.
    2:{ symmetry. rewrite mul_Fin. apply le_Fin_false. nra. }
    rewrite IH by lra. f_equal.
    assert (Hp : 0 < 2 ^ S n) by (apply pow_lt; lra).
    change (2 ^ S (S n)) with (2 * 2 ^ S n). field. lra.
Qed.

(** The bisection starts from a NaN [fLo]: its first pass moves [loA] to
    the midpoint 0, the others move it towards [hiA]. *)
Lemma bisectLoop_from_NaN :
  bisectLoop f 40
    (mkBracket (Fin (- (1 / 2) - 1 / 4 - 1 / 4 - 1 / 4))
       (Fin (1 / 2 + 1 / 4 + 1 / 4 + 1 / 4)) NaN (Fin (- T)))
  = Fin (5 / 4 - 5 / 4 / 2 ^ 40).
Proof using f_const T_large.
  rewrite bisectLoop_S. cbn [loA hiA fLo fHi]. cbv zeta.
  rewrite add_Fin, div_Fin by lra.
  rewrite f_toMonthly by lra.
  replace (Num.abs (Fin (- T)) <? Fin 1)%js with false.
  2:{ symmetry. apply lt_Fin_false. rewrite Rabs_Ropp, Rabs_pos_eq; lra. }
  change (NaN * Fin (- T) <=? Fin 0)%js with false. cbv iota.
  rewrite bisectLoop_constant by lra. f_equal.
  assert (Hp : 0 < 2 ^ 40) by (apply pow_lt; lra).
  field; lra.
Qed.
End ConstantObjective.

Lemma solveRequiredMonthlyAccum_nothing (monthsToRetire : Z) (T : R) :
  (0 < monthsToRetire)%Z -> 1 <= T ->
  solveRequiredMonthlyAccum monthsToRetire (Fin 0) (Fin 0) [] (Fin 0) (Fin T)
  = Some (Fin (5 / 4 - 5 / 4 / 2 ^ 40)).
Proof.
  intros Hm HT. unfold solveRequiredMonthlyAccum.
  replace (monthsToRetire <=? 0)%Z with false by (symmetry; apply Z.leb_gt; lia).
  cbv zeta.
  replace (Fin 0 >=? Fin T)%js with false by (symmetry; apply le_Fin_false; lra).
  set (f := fun rate : number =>
              (wealthAtRetireWithMonthlyAccum (Fin 0) (Fin 0) monthsToRetire [] rate
               - Fin T)%js).
  assert (Hconst : forall r : R, f (Fin r) = Fin (- T)).
  { intros r. unfold f. rewrite wealthAtRetire_nothing by lia.
    rewrite sub_Fin. f_equal. lra. }
  assert (HNaN : f NaN = NaN).
  { unfold f. now rewrite wealthAtRetire_NaN_rate. }
  rewrite (expandLoop_constant f T Hconst HNaN HT).
  cbn [fLo fHi]. change (NaN * Fin (- T) >? Fin 0)%js with false. cbv iota.
  now rewrite (bisectLoop_from_NaN f T Hconst HT).
Qed.

Lemma monthlyRateFromRealAnnual_Fin (pct : R) :
  -100 < pct ->
  monthlyRateFromRealAnnual (Fin pct) = Fin (Rpower (1 + pct / 100) (1 / 12) - 1).
Proof.
  intros Hp. unfold monthlyRateFromRealAnnual, Num.pow.
  rewrite div_Fin, add_Fin by lra.
  rewrite (decide_False (P := 1 / 12 = 0)) by lra.
  rewrite (decide_False (P := 1 + pct / 100 = 0)) by lra.
  rewrite (decide_True (P := 0 < 1 + pct / 100)) by lra.
  reflexivity.
Qed.

Lemma unreachablePlan_target : targetWealth unreachablePlan = Fin 30000.
Proof.
  unfold targetWealth, unreachablePlan. cbn [monthlySpend swrPct].
  rewrite mul_Fin, div_Fin by lra. unfold Num.max.
  rewrite (proj2 (lt_Fin_false _ _)) by lra.
  rewrite div_Fin by lra. f_equal. lra.
Qed.

Lemma unreachablePlan_wealthAtRetire : wealthAtRetire unreachablePlan = Fin 0.
Proof.
  unfold wealthAtRetire, accumulation, monthlyAccum, unreachablePlan.
  cbn [currentWealth monthlySaving accumRealReturn lumpSums].
  rewrite monthlyRateFromRealAnnual_Fin by lra.
  apply wealthAtRetire_nothing. unfold monthsToRetire. cbn [retireAge age]. lia.
Qed.

(** C3, at the input on which the code leaves it.  For [unreachablePlan] the
    end wealth is 0 at every rate, so [f] is -30000 on every bracket and no
    sign change is ever found; the solver does not report "unsolvable" but
    returns about 1.25 (125% a year), the upper end of the bracket at which
    [toMonthly loA] became NaN. *)
Theorem C3_unsolvable_not_reported :
  (forall annual : R, -1 <= annual ->
     (wealthAtRetireWithMonthlyAccum (Fin 0) (Fin 0) (monthsToRetire unreachablePlan) []
        (toMonthly (Fin annual)) - targetWealth unreachablePlan)%js = Fin (- 30000))
  /\ requiredAccumAnnualToHitTarget unreachablePlan = Some (Fin (5 / 4 - 5 / 4 / 2 ^ 40)).
Proof.
  assert (Hm : monthsToRetire unreachablePlan = 12%Z) by reflexivity.
  split.
  - intros annual Ha. destruct (toMonthly_finite annual Ha) as [y ->].
    rewrite unreachablePlan_target, wealthAtRetire_nothing by (rewrite Hm; lia).
    rewrite sub_Fin. f_equal. lra.
  - unfold requiredAccumAnnualToHitTarget, gap.
    rewrite unreachablePlan_target, unreachablePlan_wealthAtRetire, Hm.
    rewrite sub_Fin. unfold Num.gt. rewrite (proj2 (lt_Fin _ _)) by lra.
    cbn [currentWealth monthlySaving lumpSums unreachablePlan].
    apply solveRequiredMonthlyAccum_nothing; [lia | lra].
Qed.

(** The two outcomes the solver does tell apart: [null] with a non-positive
    horizon, and exactly 0 with a positive horizon and a target already
    met. *)
Lemma solveRequiredMonthlyAccum_not_applicable (months : Z) (W s : number)
    (lumps : list Lump) (atRetire target : number) :
  (months <= 0)%Z ->
  solveRequiredMonthlyAccum months W s lumps atRetire target = None.
Proof.
  intros Hm. unfold solveRequiredMonthlyAccum.
  now replace (months <=? 0)%Z with true by (symmetry; apply Z.leb_le; lia).
Qed.

Lemma solveRequiredMonthlyAccum_already_met (months : Z) (W s : number)
    (lumps : list Lump) (atRetire target : number) :
  (0 < months)%Z -> (atRetire >=? target)%js = true ->
  solveRequiredMonthlyAccum months W s lumps atRetire target = Some (Fin 0).
Proof.
  intros Hm Hmet. unfold solveRequiredMonthlyAccum.
  replace (months <=? 0)%Z with false by (symmetry; apply Z.leb_gt; lia).
  cbv zeta. now rewrite Hmet.
Qed.

(** C1, at the input on which the code leaves it.  The solver reports a
    non-positive horizon by [null] and a target already met by exactly 0.
    With twelve months to go, nothing saved, nothing to save and a target of
    30000, the target is not met and the end wealth minus the target is
    -30000 at every annual rate from -1 on, so no bracket has a sign change;
    the solver does not report this by [null]: it returns the rate
    1.25 (1 - 2^-40), a number like the rates it returns when it has found
    one.  With a positive horizon it never returns [null]. *)
Theorem C1_unsolvable_is_returned_as_a_rate :
  (forall (months : Z) (W s : number) (lumps : list Lump) (atRetire target : number),
     (months <= 0)%Z ->
     solveRequiredMonthlyAccum months W s lumps atRetire target = None)
  /\
  (forall (months : Z) (W s : number) (lumps : list Lump) (atRetire target : number),
     (0 < months)%Z -> (atRetire >=? target)%js = true ->
     solveRequiredMonthlyAccum months W s lumps atRetire target = Some (Fin 0))
  /\
  ((Fin 0 >=? Fin 30000)%js = false
   /\ (forall annual : R, -1 <= annual ->
         (wealthAtRetireWithMonthlyAccum (Fin 0) (Fin 0) 12 [] (toMonthly (Fin annual))
          - Fin 30000)%js = Fin (- 30000))
   /\ solveRequiredMonthlyAccum 12 (Fin 0) (Fin 0) [] (Fin 0) (Fin 30000)
      = Some (Fin (5 / 4 - 5 / 4 / 2 ^ 40)))
  /\
  (forall (months : Z) (W s : number) (lumps : list Lump) (atRetire target : number),
     (0 < months)%Z ->
     solveRequiredMonthlyAccum months W s lumps atRetire target <> None).
Proof.
  split; [exact solveRequiredMonthlyAccum_not_applicable|].
  split; [exact solveRequiredMonthlyAccum_already_met|].
  split; [split; [|split]|].
  - apply le_Fin_false. lra.
  - intros annual Ha. destruct (toMonthly_finite annual Ha) as [y ->].
    rewrite wealthAtRetire_nothing by lia. rewrite sub_Fin. f_equal. lra.
  - apply solveRequiredMonthlyAccum_nothing; [lia | lra].
  - intros months W s lumps atRetire target Hm.
    destruct (solveRequiredMonthlyAccum_returns_number months W s lumps atRetire
                target Hm) as [x ->].
    discriminate.
Qed.

(** * Further properties *)

(** ** Shape of the projections *)

(** X1.  The rows of [projectToRetirement] are the months 0, 1, ..., months
    in this order, starting from the current wealth; with a negative
    [months] there is no row at all.  [projectFullTo100] always returns the
    months 0 .. monthsTo100, at least the row of month 0. *)
Theorem X1_rows_are_the_months (age : Z) (W0 s rate retireRate spend : number)
    (months : Z) (lumps : list Lump) :
  map m (projectToRetirement W0 s months rate lumps)
  = map Z.of_nat (seq 0 (Z.to_nat (months + 1)))
  /\ head (projectToRetirement W0 s months rate lumps)
     = (if (0 <=? months)%Z then Some (mkRow 0 W0) else None)
  /\ map m (projectFullTo100 age W0 months s rate retireRate spend lumps)
     = map Z.of_nat (seq 0 (Z.to_nat (monthsTo100Of age + 1)))
  /\ head (projectFullTo100 age W0 months s rate retireRate spend lumps)
     = Some (mkRow 0 (Num.max (Fin 0) W0)).
Proof.
  split; [|split; [|split]].
  - unfold projectToRetirement.
    rewrite (retirementLoop_clipped W0 s rate months lumps _ 0), map_map.
    reflexivity.
  - unfold projectToRetirement. destruct (Z.leb_spec 0 months) as [Hm|Hm].
    + now replace (Z.to_nat (months + 1)) with (S (Z.to_nat months)) by lia.
    + now replace (Z.to_nat (months + 1)) with 0%nat by lia.
  - unfold projectFullTo100.
    rewrite (fullLoop_raw months s rate retireRate spend _ W0 _ 0), map_map.
    reflexivity.
  - unfold projectFullTo100.
    assert (H0 : (0 <= monthsTo100Of age)%Z) by (unfold monthsTo100Of; lia).
    now replace (Z.to_nat (monthsTo100Of age + 1))
      with (S (Z.to_nat (monthsTo100Of age))) by lia.
Qed.

(** ** The end wealth as a sum of future values *)

Lemma accumAfter_flows (r s : R) (byMonth : gmap Z R) (n : nat) :
  forall (t : Z) (W : R),
    accumAfter (Fin r) (Fin s) byMonth n t (Fin W)
    = Fin (W * (1 + r) ^ n
           + flowsValue r (fun k => s + default 0 (byMonth !! k)) n t).
Proof.
  induction n as [|n IH]; intros t W; simpl accumAfter.
  - f_equal. simpl. lra.
  - rewrite accumStep_Fin, IH. f_equal. simpl. lra.
Qed.

Lemma flowsValue_plus (r e : R) (g : Z -> R) (n : nat) :
  forall t : Z,
    flowsValue r (fun k => e + g k) n t = e * annuityFactor r n + flowsValue r g n t.
Proof.
  induction n as [|n IH]; intros t; simpl.
  - lra.
  - rewrite IH. lra.
Qed.

Lemma flowsValue_ext (r : R) (g1 g2 : Z -> R) (n : nat) :
  forall t : Z,
    (forall k : Z, (t < k <= t + Z.of_nat n)%Z -> g1 k = g2 k) ->
    flowsValue r g1 n t = flowsValue r g2 n t.
Proof.
  induction n as [|n IH]; intros t Hg; simpl.
  - reflexivity.
  - rewrite (Hg (t + 1)%Z) by lia. rewrite (IH (t + 1)%Z); [reflexivity|].
    intros k Hk. apply Hg. lia.
Qed.

Lemma annuityFactor_closed (r : R) (n : nat) :
  r <> 0 -> annuityFactor r n = ((1 + r) ^ n - 1) / r.
Proof.
  intros Hr. induction n as [|n IH]; simpl.
  - field. exact Hr.
  - rewrite IH. field. exact Hr.
Qed.

Lemma annuityFactor_zero (n : nat) : annuityFactor 0 n = INR n.
Proof.
  induction n as [|n IH].
  - reflexivity.
  - rewrite S_INR. simpl. rewrite IH, Rplus_0_r, pow1. lra.
Qed.

Lemma annuityFactor_ge (r : R) (n : nat) : 0 <= r -> INR n <= annuityFactor r n.
Proof.
  intros Hr. induction n as [|n IH].
  - simpl. lra.
  - rewrite S_INR. simpl.
    assert (1 <= (1 + r) ^ n) by (apply pow_R1_Rle; lra). lra.
Qed.

(** X2.  On finite inputs the end wealth of [projectToRetirement] is the
    start wealth compounded over the horizon plus, for every month [k] of
    the horizon, the saving and the lump sums of that month compounded over
    the months that remain. *)
Theorem X2_end_wealth_superposition (W0 s r : R) (months : Z) (lumps : list Lump) :
  (0 <= months)%Z ->
  wealthAtRetireWithMonthlyAccum (Fin W0) (Fin s) months lumps (Fin r)
  = Fin (W0 * (1 + r) ^ Z.to_nat months
         + flowsValue r
             (fun k => s + clippedSum (clipToHorizon months) lumps k)
             (Z.to_nat months) 0%Z).
Proof.
  intros Hm. rewrite wealthAtRetireWithMonthlyAccum_eq by exact Hm.
  rewrite accumAfter_flows. do 2 f_equal.
  apply flowsValue_ext. intros k _. now rewrite buildByMonth_lookup.
Qed.

Lemma X2_end_wealth_superposition_witness :
  wealthAtRetireWithMonthlyAccum (Fin 1000) (Fin 100) 2 [mkLump 1 2 50] (Fin (1 / 10))
  = Fin (1000 * (1 + 1 / 10) ^ Z.to_nat 2
         + flowsValue (1 / 10)
             (fun k => 100 + clippedSum (clipToHorizon 2) [mkLump 1 2 50] k)
             (Z.to_nat 2) 0%Z).
Proof. apply (X2_end_wealth_superposition 1000 100 (1 / 10) 2 [mkLump 1 2 50]). lia. Defined.

(** X3.  The end wealth is affine in the monthly saving: [e] more a month
    adds [e * (1 + (1+r) + ... + (1+r)^(n-1))], whatever the lump sums. *)
Theorem X3_end_wealth_affine_in_saving (W0 s e r : R) (months : Z) (lumps : list Lump) :
  (0 <= months)%Z ->
  wealthAtRetireWithMonthlyAccum (Fin W0) (Fin (s + e)) months lumps (Fin r)
  = (wealthAtRetireWithMonthlyAccum (Fin W0) (Fin s) months lumps (Fin r)
     + Fin (e * annuityFactor r (Z.to_nat months)))%js.
Proof.
  intros Hm. rewrite !wealthAtRetireWithMonthlyAccum_eq by exact Hm.
  rewrite !accumAfter_flows, add_Fin. f_equal.
  rewrite (flowsValue_ext r
             (fun k => s + e + default 0 (buildByMonth (clipToHorizon months) lumps !! k))
             (fun k => e + (s + default 0 (buildByMonth (clipToHorizon months) lumps !! k))))
    by (intros; lra).
  rewrite flowsValue_plus. lra.
Qed.

Lemma X3_end_wealth_affine_in_saving_witness :
  wealthAtRetireWithMonthlyAccum (Fin 1000) (Fin (100 + 5)) 2 [] (Fin (1 / 10))
  = (wealthAtRetireWithMonthlyAccum (Fin 1000) (Fin 100) 2 [] (Fin (1 / 10))
     + Fin (5 * annuityFactor (1 / 10) (Z.to_nat 2)))%js.
Proof. apply (X3_end_wealth_affine_in_saving 1000 100 5 (1 / 10) 2 []). lia. Defined.

(** ** Zero rate: nothing is gained and nothing is lost *)

Lemma flowsValue_add (r : R) (g1 g2 : Z -> R) (n : nat) :
  forall t : Z,
    flowsValue r (fun k => g1 k + g2 k) n t = flowsValue r g1 n t + flowsValue r g2 n t.
Proof.
  induction n as [|n IH]; intros t; simpl.
  - lra.
  - rewrite IH. lra.
Qed.

Lemma flowsValue_const_zero_rate (c : R) (n : nat) :
  forall t : Z, flowsValue 0 (fun _ => c) n t = INR n * c.
Proof.
  induction n as [|n IH]; intros t.
  - simpl. lra.
  - rewrite S_INR. simpl. rewrite IH, Rplus_0_r, pow1. lra.
Qed.

Lemma flowsValue_indicator (c : Z) (a : R) (n : nat) :
  forall t : Z,
    flowsValue 0 (fun k => if decide (c = k) then a else 0) n t
    = if (t <? c)%Z && (c <=? t + Z.of_nat n)%Z then a else 0.
Proof.
  induction n as [|n IH]; intros t.
  - cbn [flowsValue]. change (Z.of_nat 0) with 0%Z. rewrite Z.add_0_r.
    destruct (Z.ltb_spec t c), (Z.leb_spec c t); simpl; reflexivity || lia.
  - simpl flowsValue. rewrite IH, Rplus_0_r, pow1.
    destruct (decide (c = (t + 1)%Z)) as [Heq|Hne];
      destruct (Z.ltb_spec (t + 1) c), (Z.leb_spec c (t + 1 + Z.of_nat n)),
               (Z.ltb_spec t c), (Z.leb_spec c (t + Z.of_nat (S n))); simpl; lra || lia.
Qed.

Lemma flowsValue_clippedSum (clip : R -> Z) (lumps : list Lump) (n : nat) (t : Z) :
  flowsValue 0 (clippedSum clip lumps) n t
  = totalAmount
      (fun ls => (t <? clip (month ls))%Z && (clip (month ls) <=? t + Z.of_nat n)%Z)
      lumps.
Proof.
  induction lumps as [|ls lumps IH]; simpl.
  - rewrite (flowsValue_const_zero_rate 0). lra.
  - rewrite (flowsValue_ext 0 _
               (fun k => (if decide (clip (month ls) = k) then amount ls else 0)
                         + clippedSum clip lumps k)).
    + rewrite flowsValue_add, flowsValue_indicator, IH.
      destruct ((t <? clip (month ls))%Z && (clip (month ls) <=? t + Z.of_nat n)%Z); lra.
    + intros k _. unfold clippedSum. simpl.
      destruct (decide (clip (month ls) = k)); lra.
Qed.

Lemma totalAmount_ext (P Q : Lump -> bool) (lumps : list Lump) :
  (forall ls, P ls = Q ls) -> totalAmount P lumps = totalAmount Q lumps.
Proof.
  intros HPQ. induction lumps as [|ls lumps IH]; simpl.
  - reflexivity.
  - now rewrite HPQ, IH.
Qed.

(** X4.  At a monthly rate of 0 and with a horizon of at least one month,
    the end wealth is the start wealth plus the saving of every month plus
    the amount of every lump sum whose month is 1 or later; the lump sums
    entered for a month before 1 are the only money that is lost. *)
Theorem X4_zero_rate_conservation (W0 s : R) (months : Z) (lumps : list Lump) :
  (1 <= months)%Z ->
  wealthAtRetireWithMonthlyAccum (Fin W0) (Fin s) months lumps (Fin 0)
  = Fin (W0 + IZR months * s
         + totalAmount (fun ls => (1 <=? Zfloor (month ls))%Z) lumps).
Proof.
  intros Hm. rewrite wealthAtRetireWithMonthlyAccum_eq by lia.
  rewrite accumAfter_flows. f_equal.
  rewrite (flowsValue_ext 0 _
             (fun k => s + clippedSum (clipToHorizon months) lumps k))
    by (intros k _; now rewrite buildByMonth_lookup).
  rewrite flowsValue_plus, annuityFactor_zero, flowsValue_clippedSum.
  rewrite Rplus_0_r, pow1, INR_IZR_INZ, Z2Nat.id by lia.
  rewrite (totalAmount_ext _ (fun ls => (1 <=? Zfloor (month ls))%Z)).
  - lra.
  - intros ls. unfold clipToHorizon.
    destruct (Z.leb_spec 1 (Zfloor (month ls))),
             (Z.ltb_spec 0 (Z.max 0 (Z.min months (Zfloor (month ls))))),
             (Z.leb_spec (Z.max 0 (Z.min months (Zfloor (month ls))))
                (0 + Z.of_nat (Z.to_nat months))); simpl; reflexivity || lia.
Qed.

Lemma X4_zero_rate_conservation_witness :
  wealthAtRetireWithMonthlyAccum (Fin 1000) (Fin 100) 3
    [mkLump 1 2 50; mkLump 2 (-1) 70] (Fin 0)
  = Fin (1000 + 3 * 100
         + totalAmount (fun ls => (1 <=? Zfloor (month ls))%Z)
             [mkLump 1 2 50; mkLump 2 (-1) 70]).
Proof.
  apply (X4_zero_rate_conservation 1000 100 3 [mkLump 1 2 50; mkLump 2 (-1) 70]). lia.
Defined.

(** ** The monthly rate *)

Lemma Rpower_one (c : R) : Rpower 1 c = 1.
Proof. unfold Rpower. now rewrite ln_1, Rmult_0_r, exp_0. Qed.

Lemma Rpower_pos (x y : R) : 0 < Rpower x y.
Proof. unfold Rpower. apply exp_pos. Qed.

Lemma twelfth_root_pow (x : R) : 0 < x -> Rpower x (1 / 12) ^ 12 = x.
Proof.
  intros Hx. rewrite <- Rpower_pow by apply Rpower_pos.
  rewrite Rpower_mult.
  replace (1 / 12 * INR 12) with 1 by (simpl; lra).
  now apply Rpower_1.
Qed.

Lemma twelfth_root_sign (x : R) :
  0 < x ->
  (1 <= x -> 1 <= Rpower x (1 / 12))
  /\ (1 < x -> 1 < Rpower x (1 / 12))
  /\ (x < 1 -> Rpower x (1 / 12) < 1).
Proof.
  intros Hx. pose proof (Rpower_one (1 / 12)) as E. repeat split; intros H.
  - assert (Rpower 1 (1 / 12) <= Rpower x (1 / 12)) by (apply Rle_Rpower_l; lra). lra.
  - assert (Rpower 1 (1 / 12) < Rpower x (1 / 12)) by (apply Rlt_Rpower_l; lra). lra.
  - assert (Rpower x (1 / 12) < Rpower 1 (1 / 12)) by (apply Rlt_Rpower_l; lra). lra.
Qed.

(** The monthly rate of an annual percentage above -100. *)
Lemma monthly_rate_facts (pct : R) :
  -100 < pct ->
  exists r : R,
    monthlyRateFromRealAnnual (Fin pct) = Fin r
    /\ -1 < r
    /\ ((0 <= pct -> 0 <= r) /\ (0 < pct -> 0 < r) /\ (pct < 0 -> r < 0)
        /\ (1 + r) ^ 12 = 1 + pct / 100).
Proof.
  intros Hp. exists (Rpower (1 + pct / 100) (1 / 12) - 1).
  destruct (twelfth_root_sign (1 + pct / 100)) as (Hge & Hgt & Hlt); [lra|].
  pose proof (Rpower_pos (1 + pct / 100) (1 / 12)).
  split; [now apply monthlyRateFromRealAnnual_Fin|].
  split; [lra|]. repeat split; intros.
  - assert (1 <= Rpower (1 + pct / 100) (1 / 12)) by (apply Hge; lra). lra.
  - assert (1 < Rpower (1 + pct / 100) (1 / 12)) by (apply Hgt; lra). lra.
  - assert (Rpower (1 + pct / 100) (1 / 12) < 1) by (apply Hlt; lra). lra.
  - replace (1 + (Rpower (1 + pct / 100) (1 / 12) - 1))
      with (Rpower (1 + pct / 100) (1 / 12)) by lra.
    apply twelfth_root_pow. lra.
Qed.

Lemma monthlyRate_at_minus_100 (pct : R) :
  pct = -100 -> monthlyRateFromRealAnnual (Fin pct) = Fin (-1).
Proof.
  intros ->. unfold monthlyRateFromRealAnnual, Num.pow.
  rewrite div_Fin, add_Fin by lra.
  rewrite (decide_False (P := 1 / 12 = 0)) by lra.
  rewrite (decide_True (P := 1 + -100 / 100 = 0)) by lra.
  rewrite (decide_True (P := 0 < 1 / 12)) by lra.
  rewrite sub_Fin. f_equal. lra.
Qed.

Lemma monthlyRate_below (pct : R) :
  pct < -100 -> monthlyRateFromRealAnnual (Fin pct) = NaN.
Proof.
  intros Hp. unfold monthlyRateFromRealAnnual, Num.pow.
  rewrite div_Fin, add_Fin by lra.
  rewrite (decide_False (P := 1 / 12 = 0)) by lra.
  rewrite (decide_False (P := 1 + pct / 100 = 0)) by lra.
  rewrite (decide_False (P := 0 < 1 + pct / 100)) by lra.
  now rewrite one_twelfth_not_int.
Qed.

(** X5.  [monthlyRateFromRealAnnual] inverts annual compounding: for an
    annual percentage above -100 the monthly rate [r] is a finite number
    above -1 with [(1 + r)^12 = 1 + pct / 100], and it has the sign of the
    percentage.  At -100 the rate is -1; below -100 it is NaN. *)
Theorem X5_monthly_rate_compounds_to_annual (pct : R) :
  (-100 < pct ->
     exists r : R,
       monthlyRateFromRealAnnual (Fin pct) = Fin r
       /\ -1 < r
       /\ (1 + r) ^ 12 = 1 + pct / 100
       /\ (0 <= pct -> 0 <= r) /\ (0 < pct -> 0 < r) /\ (pct < 0 -> r < 0))
  /\ (pct = -100 -> monthlyRateFromRealAnnual (Fin pct) = Fin (-1))
  /\ (pct < -100 -> monthlyRateFromRealAnnual (Fin pct) = NaN).
Proof.
  split; [|split].
  - intros Hp.
    destruct (monthly_rate_facts pct Hp) as (r & Hr & Hlo & H0 & H1 & H2 & Hpow).
    exists r. repeat split; assumption.
  - apply monthlyRate_at_minus_100.
  - apply monthlyRate_below.
Qed.

Lemma X5_monthly_rate_compounds_to_annual_witness :
  (exists r : R,
     monthlyRateFromRealAnnual (Fin 5) = Fin r
     /\ -1 < r /\ (1 + r) ^ 12 = 1 + 5 / 100 /\ 0 < r)
  /\ monthlyRateFromRealAnnual (Fin (-100)) = Fin (-1)
  /\ monthlyRateFromRealAnnual (Fin (-150)) = NaN.
Proof.
  split; [|split].
  - destruct (X5_monthly_rate_compounds_to_annual 5) as (H & _).
    destruct H as (r & Hr & Hlo & Hpow & _ & Hpos & _); [lra|].
    exists r. repeat split; try assumption. apply Hpos. lra.
  - destruct (X5_monthly_rate_compounds_to_annual (-100)) as (_ & H & _).
    now apply H.
  - destruct (X5_monthly_rate_compounds_to_annual (-150)) as (_ & _ & H).
    apply H. lra.
Defined.

(** ** The cards of the [App] component *)

Lemma max_Fin_l (x y : R) : y <= x -> Num.max (Fin x) (Fin y) = Fin x.
Proof. intros H. unfold Num.max. now rewrite (proj2 (lt_Fin_false x y)). Qed.

Lemma max_Fin_r (x y : R) : x < y -> Num.max (Fin x) (Fin y) = Fin y.
Proof. intros H. unfold Num.max. now rewrite (proj2 (lt_Fin x y)). Qed.

Lemma min_Fin_l (x y : R) : x <= y -> Num.min (Fin x) (Fin y) = Fin x.
Proof. intros H. unfold Num.min. now rewrite (proj2 (lt_Fin_false y x)). Qed.

Lemma min_Fin_r (x y : R) : y < x -> Num.min (Fin x) (Fin y) = Fin y.
Proof. intros H. unfold Num.min. now rewrite (proj2 (lt_Fin y x)). Qed.

Lemma gt_Fin (x y : R) : (Fin x >? Fin y)%js = true <-> y < x.
Proof. apply lt_Fin. Qed.

Lemma gt_Fin_false (x y : R) : (Fin x >? Fin y)%js = false <-> x <= y.
Proof. apply lt_Fin_false. Qed.

Lemma ge_Fin (x y : R) : (Fin x >=? Fin y)%js = true <-> y <= x.
Proof. apply le_Fin. Qed.

Lemma ge_Fin_false (x y : R) : (Fin x >=? Fin y)%js = false <-> x < y.
Proof. apply le_Fin_false. Qed.

(** The target is a finite number: the divisor is at least 1e-9. *)
Lemma targetWealth_Fin (p : Plan) :
  targetWealth p
  = Fin (monthlySpend p * 12 / Rmax (swrPct p / 100) (1 / 1000000000)).
Proof.
  unfold targetWealth. rewrite mul_Fin, div_Fin by lra.
  unfold Rmax. destruct (Rle_dec (swrPct p / 100) (1 / 1000000000)) as [Hle|Hgt].
  - destruct (Req_dec_T (swrPct p / 100) (1 / 1000000000)) as [Heq|Hne].
    + rewrite max_Fin_l by lra. rewrite div_Fin by lra. now rewrite Heq.
    + rewrite max_Fin_r by lra. now rewrite div_Fin by lra.
  - rewrite max_Fin_l by lra. now rewrite div_Fin by lra.
Qed.

Lemma monthsToRetire_nonneg (p : Plan) : (0 <= monthsToRetire p)%Z.
Proof. unfold monthsToRetire. lia. Qed.

(** The wealth at retirement of a plan whose annual return is above -100%. *)
Lemma wealthAtRetire_flows (p : Plan) (r : R) :
  monthlyAccum p = Fin r ->
  wealthAtRetire p
  = Fin (currentWealth p * (1 + r) ^ Z.to_nat (monthsToRetire p)
         + flowsValue r
             (fun k => monthlySaving p
                       + default 0 (buildByMonth (clipToHorizon (monthsToRetire p))
                                      (lumpSums p) !! k))
             (Z.to_nat (monthsToRetire p)) 0%Z).
Proof.
  intros Hr.
  change (wealthAtRetire p)
    with (wealthAtRetireWithMonthlyAccum (Fin (currentWealth p)) (Fin (monthlySaving p))
            (monthsToRetire p) (lumpSums p) (monthlyAccum p)).
  rewrite Hr, wealthAtRetireWithMonthlyAccum_eq by apply monthsToRetire_nonneg.
  apply accumAfter_flows.
Qed.

Lemma wealthAtRetire_withMonthlySaving (p : Plan) (r W e : R) :
  monthlyAccum p = Fin r ->
  wealthAtRetire p = Fin W ->
  wealthAtRetire (withMonthlySaving p (monthlySaving p + e))
  = Fin (W + e * annuityFactor r (Z.to_nat (monthsToRetire p))).
Proof.
  intros Hr HW.
  rewrite (wealthAtRetire_flows p r Hr) in HW. injection HW as HW.
  rewrite (wealthAtRetire_flows (withMonthlySaving p (monthlySaving p + e)) r Hr).
  cbn [withMonthlySaving currentWealth monthlySaving lumpSums].
  change (monthsToRetire (withMonthlySaving p (monthlySaving p + e)))
    with (monthsToRetire p).
  f_equal. rewrite <- HW.
  rewrite (flowsValue_ext r
             (fun k => monthlySaving p + e
                       + default 0 (buildByMonth (clipToHorizon (monthsToRetire p))
                                      (lumpSums p) !! k))
             (fun k => e + (monthlySaving p
                            + default 0 (buildByMonth (clipToHorizon (monthsToRetire p))
                                           (lumpSums p) !! k))))
    by (intros; lra).
  rewrite flowsValue_plus. lra.
Qed.

Lemma pow_monthsToRetire (p : Plan) (r : R) :
  -1 < r -> (0 < monthsToRetire p)%Z ->
  Num.pow (Fin 1 + Fin r) (Fin (IZR (monthsToRetire p)))
  = Fin ((1 + r) ^ Z.to_nat (monthsToRetire p)).
Proof.
  intros Hr Hm. rewrite add_Fin. unfold Num.pow.
  assert (Hn : IZR (monthsToRetire p) <> 0) by (apply not_0_IZR; lia).
  rewrite (decide_False (P := IZR (monthsToRetire p) = 0)) by exact Hn.
  rewrite (decide_False (P := 1 + r = 0)) by lra.
  rewrite (decide_True (P := 0 < 1 + r)) by lra.
  f_equal. rewrite <- Rpower_pow by lra.
  now rewrite INR_IZR_INZ, Z2Nat.id by lia.
Qed.

(** The extra saving when the gap [g] is positive and months remain: the
    gap over the annuity factor for a positive monthly rate, the gap over
    the number of months otherwise. *)
Lemma extraMonthlyNeeded_value (p : Plan) (r g : R) :
  monthlyAccum p = Fin r -> -1 < r ->
  gap p = Fin g -> 0 < g -> (0 < monthsToRetire p)%Z ->
  extraMonthlyNeeded p
  = Fin (g / (if decide (0 < r)
              then annuityFactor r (Z.to_nat (monthsToRetire p))
              else IZR (monthsToRetire p))).
Proof.
  intros Hr Hlo Hg Hpos Hm. unfold extraMonthlyNeeded. rewrite Hg, Hr.
  rewrite (proj2 (gt_Fin g 0)) by exact Hpos.
  replace (0 <? monthsToRetire p)%Z with true by (symmetry; apply Z.ltb_lt; lia).
  cbn [andb].
  assert (Hn : 1 <= IZR (monthsToRetire p)) by (apply IZR_le; lia).
  destruct (decide (0 < r)) as [Hr0|Hr0].
  - rewrite (proj2 (gt_Fin r 0)) by exact Hr0.
    rewrite pow_monthsToRetire, sub_Fin, div_Fin by (lra || lia).
    rewrite <- annuityFactor_closed by lra.
    assert (INR (Z.to_nat (monthsToRetire p)) <= annuityFactor r (Z.to_nat (monthsToRetire p)))
      by (apply annuityFactor_ge; lra).
    rewrite INR_IZR_INZ, Z2Nat.id in H by lia.
    rewrite max_Fin_l by lra. apply div_Fin. lra.
  - rewrite (proj2 (gt_Fin_false r 0)) by lra.
    rewrite max_Fin_l by lra. apply div_Fin. lra.
Qed.

(** X6.  When the annual accumulation return is not negative, the gap is
    positive and months remain, [extraMonthlyNeeded] is exactly the extra
    monthly saving that closes the gap: with it added to the monthly
    saving, the wealth at retirement equals the target. *)
Theorem X6_extra_saving_closes_the_gap (p : Plan) :
  0 <= accumRealReturn p ->
  (0 < monthsToRetire p)%Z ->
  (gap p >? Fin 0)%js = true ->
  exists e : R,
    extraMonthlyNeeded p = Fin e /\ 0 < e
    /\ wealthAtRetire (withMonthlySaving p (monthlySaving p + e)) = targetWealth p.
Proof.
  intros Ha Hm Hgap.
  destruct (monthly_rate_facts (accumRealReturn p)) as (r & Hr & Hlo & Hsign); [lra|].
  assert (Hr0 : 0 <= r) by (apply Hsign; exact Ha).
  fold (monthlyAccum p) in Hr.
  pose proof (wealthAtRetire_flows p r Hr) as HW.
  set (W := currentWealth p * (1 + r) ^ Z.to_nat (monthsToRetire p) + _) in HW.
  pose proof (targetWealth_Fin p) as HT.
  set (T := monthlySpend p * 12 / _) in HT.
  assert (Hg : gap p = Fin (T - W)) by (unfold gap; now rewrite HT, HW).
  rewrite Hg in Hgap. apply gt_Fin in Hgap.
  set (A := if decide (0 < r)
            then annuityFactor r (Z.to_nat (monthsToRetire p))
            else IZR (monthsToRetire p)).
  assert (HA : A = annuityFactor r (Z.to_nat (monthsToRetire p))).
  { unfold A. destruct (decide (0 < r)); [reflexivity|].
    replace r with 0 by lra. now rewrite annuityFactor_zero, INR_IZR_INZ, Z2Nat.id by lia. }
  assert (HA1 : 1 <= A).
  { rewrite HA.
    assert (INR (Z.to_nat (monthsToRetire p)) <= annuityFactor r (Z.to_nat (monthsToRetire p)))
      by (apply annuityFactor_ge; lra).
    rewrite INR_IZR_INZ, Z2Nat.id in H by lia.
    assert (1 <= IZR (monthsToRetire p)) by (apply IZR_le; lia). lra. }
  exists ((T - W) / A). split; [|split].
  - apply (extraMonthlyNeeded_value p r (T - W)); assumption || lra.
  - apply Rdiv_lt_0_compat; lra.
  - rewrite (wealthAtRetire_withMonthlySaving p r W) by assumption.
    change (targetWealth (withMonthlySaving p (monthlySaving p + (T - W) / A)))
      with (targetWealth p).
    rewrite HT, <- HA. f_equal. field. lra.
Qed.

Lemma unreachablePlan_gap : (gap unreachablePlan >? Fin 0)%js = true.
Proof.
  unfold gap. rewrite unreachablePlan_target, unreachablePlan_wealthAtRetire, sub_Fin.
  apply gt_Fin. lra.
Qed.

Lemma X6_extra_saving_closes_the_gap_witness :
  exists e : R,
    extraMonthlyNeeded unreachablePlan = Fin e /\ 0 < e
    /\ wealthAtRetire
         (withMonthlySaving unreachablePlan (monthlySaving unreachablePlan + e))
       = targetWealth unreachablePlan.
Proof.
  apply (X6_extra_saving_closes_the_gap unreachablePlan).
  - simpl. lra.
  - reflexivity.
  - exact unreachablePlan_gap.
Defined.

Lemma pow_le_one (x : R) (n : nat) : 0 <= x <= 1 -> x ^ n <= 1.
Proof. intros Hx. rewrite <- (pow1 n). now apply pow_incr. Qed.

Lemma annuityFactor_le (r : R) (n : nat) : 0 <= 1 + r <= 1 -> annuityFactor r n <= INR n.
Proof.
  intros Hr. induction n as [|n IH].
  - simpl. lra.
  - rewrite S_INR. simpl. pose proof (pow_le_one (1 + r) n Hr). lra.
Qed.

Lemma annuityFactor_lt (r : R) (n : nat) :
  0 <= 1 + r < 1 -> (2 <= n)%nat -> annuityFactor r n < INR n.
Proof.
  intros Hr Hn. destruct n as [|[|n]]; [lia | lia |].
  rewrite S_INR.
  change (annuityFactor r (S (S n))) with ((1 + r) ^ S n + annuityFactor r (S n)).
  assert (H1 : annuityFactor r (S n) <= INR (S n)) by (apply annuityFactor_le; lra).
  assert (H2 : (1 + r) ^ n <= 1) by (apply pow_le_one; lra).
  assert (H3 : 0 <= (1 + r) ^ n) by (apply pow_le; lra).
  assert (H4 : (1 + r) ^ S n < 1) by (simpl; nra).
  lra.
Qed.

(** X7.  When the annual accumulation return is negative (above -100%),
    [extraMonthlyNeeded] divides the gap by the number of months, as if the
    extra saving earned nothing; over two months or more it then falls short:
    with it added to the monthly saving, the wealth at retirement stays
    below the target. *)
Theorem X7_extra_saving_falls_short (p : Plan) :
  -100 < accumRealReturn p < 0 ->
  (2 <= monthsToRetire p)%Z ->
  (gap p >? Fin 0)%js = true ->
  exists e : R,
    extraMonthlyNeeded p = Fin e /\ 0 < e
    /\ (wealthAtRetire (withMonthlySaving p (monthlySaving p + e))
        <? targetWealth p)%js = true.
Proof.
  intros Ha Hm Hgap.
  destruct (monthly_rate_facts (accumRealReturn p)) as (r & Hr & Hlo & Hsign); [lra|].
  assert (Hr0 : r < 0) by (apply Hsign; lra).
  fold (monthlyAccum p) in Hr.
  pose proof (wealthAtRetire_flows p r Hr) as HW.
  set (W := currentWealth p * (1 + r) ^ Z.to_nat (monthsToRetire p) + _) in HW.
  pose proof (targetWealth_Fin p) as HT.
  set (T := monthlySpend p * 12 / _) in HT.
  assert (Hg : gap p = Fin (T - W)) by (unfold gap; now rewrite HT, HW).
  rewrite Hg in Hgap. apply gt_Fin in Hgap.
  assert (Hn : 2 <= IZR (monthsToRetire p)) by (apply IZR_le; lia).
  assert (HA : annuityFactor r (Z.to_nat (monthsToRetire p)) < IZR (monthsToRetire p)).
  { rewrite <- (Z2Nat.id (monthsToRetire p)) at 2 by lia.
    rewrite <- INR_IZR_INZ. apply annuityFactor_lt; [lra | lia]. }
  exists ((T - W) / IZR (monthsToRetire p)). split; [|split].
  - rewrite (extraMonthlyNeeded_value p r (T - W)) by (assumption || lra || lia).
    now rewrite decide_False by lra.
  - apply Rdiv_lt_0_compat; lra.
  - rewrite (wealthAtRetire_withMonthlySaving p r W) by assumption.
    change (targetWealth (withMonthlySaving p
              (monthlySaving p + (T - W) / IZR (monthsToRetire p))))
      with (targetWealth p).
    rewrite HT. apply lt_Fin.
    set (n := IZR (monthsToRetire p)) in *.
    set (A := annuityFactor r (Z.to_nat (monthsToRetire p))) in *.
    assert (He : (T - W) / n * A < T - W).
    { assert (0 < (T - W) / n) by (apply Rdiv_lt_0_compat; lra).
      replace (T - W) with ((T - W) / n * n) at 2 by (field; lra). nra. }
    lra.
Qed.

Lemma gap_of_nothing (c d e f : R) (x y : Z) :
  -100 < e -> 0 < c ->
  (gap (mkPlan x y 0 0 c d e f []) >? Fin 0)%js = true.
Proof.
  intros He Hc. unfold gap. rewrite targetWealth_Fin.
  assert (HW : wealthAtRetire (mkPlan x y 0 0 c d e f []) = Fin 0).
  { unfold wealthAtRetire, accumulation, monthlyAccum.
    cbn [currentWealth monthlySaving accumRealReturn lumpSums].
    rewrite monthlyRateFromRealAnnual_Fin by lra.
    apply wealthAtRetire_nothing. apply monthsToRetire_nonneg. }
  rewrite HW, sub_Fin. apply gt_Fin. cbn [monthlySpend swrPct].
  assert (0 < Rmax (d / 100) (1 / 1000000000)).
  { pose proof (Rmax_r (d / 100) (1 / 1000000000)). lra. }
  assert (0 < c * 12 / Rmax (d / 100) (1 / 1000000000))
    by (apply Rdiv_lt_0_compat; lra).
  lra.
Qed.

Lemma X7_extra_saving_falls_short_witness :
  let p := mkPlan 30 32 0 0 100 4 (-5) (7 / 2) [] in
  exists e : R,
    extraMonthlyNeeded p = Fin e /\ 0 < e
    /\ (wealthAtRetire (withMonthlySaving p (monthlySaving p + e))
        <? targetWealth p)%js = true.
Proof.
  intros p. apply (X7_extra_saving_falls_short p).
  - simpl. lra.
  - vm_compute. discriminate.
  - apply gap_of_nothing; lra.
Defined.

(** ** The two projections side by side *)

Lemma fullLoop_take (mtr : Z) (s ra rr sp : number) (byMonth : gmap Z R) (n1 n2 : nat) :
  forall (t : Z) (W : number),
    take n1 (fullLoop mtr s ra rr sp byMonth (n1 + n2) t W)
    = fullLoop mtr s ra rr sp byMonth n1 t W.
Proof.
  induction n1 as [|n1 IH]; intros t W; simpl.
  - reflexivity.
  - now rewrite IH.
Qed.

Lemma retirementLoop_lookup (rate s : number) (byMonth : gmap Z R) (n : nat) :
  forall (j : nat) (t : Z) (W : number),
    (j < n)%nat ->
    retirementLoop rate s byMonth n t W !! j
    = Some (mkRow (t + Z.of_nat j) (accumAfter rate s byMonth j t W)).
Proof.
  induction n as [|n IH]; intros j t W Hj; [lia|].
  destruct j as [|j]; simpl.
  - do 2 f_equal. lia.
  - rewrite IH by lia. do 2 f_equal. lia.
Qed.

Lemma monthsToRetire_le_monthsTo100 (p : Plan) :
  (retireAge p <= 100)%Z -> (monthsToRetire p <= monthsTo100 p)%Z.
Proof. unfold monthsToRetire, monthsTo100, monthsTo100Of. lia. Qed.

(** X8.  For a retirement age of at most 100, the rows of the full
    projection up to the retirement month are the rows of the accumulation
    projection, floored at 0; the row of the retirement month shows the
    wealth at retirement, floored at 0. *)
Theorem X8_chart_agrees_with_accumulation (p : Plan) :
  (retireAge p <= 100)%Z ->
  take (Z.to_nat (monthsToRetire p + 1)) (fullProjection p)
  = map floorRow (accumulation p)
  /\ fullProjection p !! Z.to_nat (monthsToRetire p)
     = Some (mkRow (monthsToRetire p) (Num.max (Fin 0) (wealthAtRetire p))).
Proof.
  intros Hage.
  pose proof (monthsToRetire_le_monthsTo100 p Hage) as Hle.
  pose proof (monthsToRetire_nonneg p) as H0.
  assert (Htake : take (Z.to_nat (monthsToRetire p + 1)) (fullProjection p)
                  = map floorRow (accumulation p)).
  { unfold fullProjection, projectFullTo100, accumulation, projectToRetirement.
    fold (monthsTo100 p).
    replace (Z.to_nat (monthsTo100 p + 1))
      with (Z.to_nat (monthsToRetire p + 1)
            + Z.to_nat (monthsTo100 p - monthsToRetire p))%nat by lia.
    rewrite fullLoop_take. apply fullLoop_accumulation_only. lia. }
  split; [exact Htake|].
  rewrite <- (lookup_take_lt (fullProjection p) (Z.to_nat (monthsToRetire p + 1))) by lia.
  rewrite Htake, list_lookup_fmap.
  unfold accumulation, projectToRetirement.
  rewrite retirementLoop_lookup by lia. simpl. unfold floorRow. simpl.
  do 2 f_equal; [lia|]. f_equal.
  change (wealthAtRetire p)
    with (wealthAtRetireWithMonthlyAccum (Fin (currentWealth p)) (Fin (monthlySaving p))
            (monthsToRetire p) (lumpSums p) (monthlyAccum p)).
  now rewrite wealthAtRetireWithMonthlyAccum_eq by exact H0.
Qed.

Lemma X8_chart_agrees_with_accumulation_witness :
  take (Z.to_nat (monthsToRetire unreachablePlan + 1)) (fullProjection unreachablePlan)
  = map floorRow (accumulation unreachablePlan).
Proof. apply (X8_chart_agrees_with_accumulation unreachablePlan). simpl. lia. Defined.

(** ** Retirement: once the wealth is gone it stays gone *)

Lemma rawWealth_depleted (mtr : Z) (s ra rr sp : R) (byMonth : gmap Z R) (W0 : R)
    (i : nat) (k : nat) :
  0 <= sp -> 0 <= 1 + rr -> (mtr <= Z.of_nat i)%Z ->
  forall x : R,
    rawWealth mtr (Fin s) (Fin ra) (Fin rr) (Fin sp) byMonth (Fin W0) i = Fin x ->
    x <= 0 ->
    exists y : R,
      rawWealth mtr (Fin s) (Fin ra) (Fin rr) (Fin sp) byMonth (Fin W0) (i + k) = Fin y
      /\ y <= 0.
Proof.
  intros Hsp Hrr Hi x Hx Hneg. induction k as [|k (y & Hy & Hyneg)].
  - exists x. now rewrite Nat.add_0_r.
  - replace (i + S k)%nat with (S (i + k)) by lia. simpl rawWealth. rewrite Hy.
    unfold fullStep. replace (Z.of_nat (i + k) <? mtr)%Z with false
      by (symmetry; apply Z.ltb_ge; lia).
    unfold spendStep. rewrite add_Fin, mul_Fin, sub_Fin.
    eexists. split; [reflexivity|]. nra.
Qed.

Lemma max_zero_is_zero (x : R) : Num.max (Fin 0) (Fin x) = Fin 0 <-> x <= 0.
Proof.
  unfold Num.max. simpl. destruct (bool_decide_reflect (0 < x)) as [H|H].
  - split; [intros [= ->]; lra | lra].
  - split; [lra | reflexivity].
Qed.

Lemma projectFullTo100_lookup (age : Z) (W0 : number) (mtr : Z)
    (s ra rr sp : number) (lumps : list Lump) (t : nat) :
  (Z.of_nat t <= monthsTo100Of age)%Z ->
  projectFullTo100 age W0 mtr s ra rr sp lumps !! t
  = Some (mkRow (Z.of_nat t)
            (Num.max (Fin 0)
               (rawWealth mtr s ra rr sp (buildByMonth (clipToHorizon mtr) lumps) W0 t))).
Proof.
  intros Ht. unfold projectFullTo100.
  rewrite (fullLoop_raw mtr s ra rr sp _ W0 _ 0%nat).
  rewrite list_lookup_fmap, lookup_seq_lt by lia. reflexivity.
Qed.

(** X9.  On finite inputs with a monthly spend that is not negative and a
    retirement rate of at least -100%, a row of [projectFullTo100] at or
    after the retirement month that shows 0 is followed by rows that show 0
    only: the wealth does not come back once it is gone. *)
Theorem X9_depletion_is_final (age : Z) (W0 : R) (monthsToRetire : Z)
    (s accumRate retireRate spend : R) (lumps : list Lump) (i j : nat) :
  0 <= spend -> 0 <= 1 + retireRate ->
  (monthsToRetire <= Z.of_nat i)%Z -> (i <= j)%nat ->
  (Z.of_nat j <= monthsTo100Of age)%Z ->
  let rows :=
    projectFullTo100 age (Fin W0) monthsToRetire (Fin s) (Fin accumRate)
      (Fin retireRate) (Fin spend) lumps in
  rows !! i = Some (mkRow (Z.of_nat i) (Fin 0)) ->
  rows !! j = Some (mkRow (Z.of_nat j) (Fin 0)).
Proof.
  intros Hsp Hrr Hi Hij Hj rows.
  set (bm := buildByMonth (clipToHorizon monthsToRetire) lumps).
  unfold rows. rewrite !projectFullTo100_lookup by lia. fold bm. intros [= Hzero].
  destruct (rawWealth_Fin monthsToRetire s accumRate retireRate spend bm W0 i) as [x Hx].
  rewrite Hx in Hzero. apply max_zero_is_zero in Hzero.
  destruct (rawWealth_depleted monthsToRetire s accumRate retireRate spend bm W0 i (j - i)
              Hsp Hrr Hi x Hx Hzero) as (y & Hy & Hyneg).
  replace (i + (j - i))%nat with j in Hy by lia.
  rewrite Hy. do 2 f_equal. now apply max_zero_is_zero.
Qed.

Lemma X9_depletion_is_final_witness :
  projectFullTo100 99 (Fin 100) 0 (Fin 0) (Fin 0) (Fin 0) (Fin 100) [] !! 2%nat
  = Some (mkRow (Z.of_nat 2) (Fin 0)).
Proof.
  apply (X9_depletion_is_final 99 100 0 0 0 0 100 [] 1 2); try lra; try lia.
  - vm_compute. discriminate.
  - rewrite projectFullTo100_lookup by (vm_compute; discriminate).
    do 2 f_equal. apply max_zero_is_zero.
    unfold buildByMonth. simpl. unfold fullStep, spendStep. simpl. lra.
Defined.

(** ** The estimator and the projection *)

(** What the loop of the estimator returns, in full. *)
Lemma goalLoop_cases (rate s : number) (byMonth : gmap Z R) (target : number) (n : nat) :
  forall (t : Z) (W : number),
    (goalLoop rate s byMonth target n t W = PosInf
     /\ forall i : nat, (i < n)%nat ->
          (accumAfter rate s byMonth i t W >=? target)%js = false)
    \/ exists j : nat,
         (j < n)%nat
         /\ goalLoop rate s byMonth target n t W = Fin (IZR (t + Z.of_nat j))
         /\ (accumAfter rate s byMonth j t W >=? target)%js = true
         /\ forall i : nat, (i < j)%nat ->
              (accumAfter rate s byMonth i t W >=? target)%js = false.
Proof.
  induction n as [|n IH]; intros t W.
  - left. split; [reflexivity | intros; lia].
  - cbn [goalLoop]. destruct (W >=? target)%js eqn:E.
    + right. exists 0%nat. repeat split; [lia | do 2 f_equal; lia | exact E | intros; lia].
    + destruct (IH (t + 1)%Z (accumStep rate s byMonth t W))
        as [[Hinf Hnever] | (j & Hj & Hres & Hhit & Hbefore)].
      * left. split; [exact Hinf|]. intros [|i] Hi; [exact E | apply Hnever; lia].
      * right. exists (S j). repeat split.
        -- lia.
        -- rewrite Hres. do 2 f_equal. lia.
        -- exact Hhit.
        -- intros [|i] Hi; [exact E | apply Hbefore; lia].
Qed.

Lemma accumAfter_ext (rate s : number) (bm1 bm2 : gmap Z R) (n : nat) :
  forall (t : Z) (W : number),
    (forall k : Z, (t < k <= t + Z.of_nat n)%Z ->
       default 0 (bm1 !! k) = default 0 (bm2 !! k)) ->
    accumAfter rate s bm1 n t W = accumAfter rate s bm2 n t W.
Proof.
  induction n as [|n IH]; intros t W Hagree; simpl.
  - reflexivity.
  - replace (accumStep rate s bm1 t W) with (accumStep rate s bm2 t W).
    + apply IH. intros k Hk. apply Hagree. lia.
    + unfold accumStep, oneOffAt. now rewrite (Hagree (t + 1)%Z) by lia.
Qed.

Lemma clippedSum_ext (clip1 clip2 : R -> Z) (lumps : list Lump) (k : Z) :
  Forall (fun ls => clip1 (month ls) = clip2 (month ls)) lumps ->
  clippedSum clip1 lumps k = clippedSum clip2 lumps k.
Proof.
  induction 1 as [|ls lumps Hls _ IH]; simpl.
  - reflexivity.
  - now rewrite Hls, IH.
Qed.

Lemma clips_agree_in_range (months : Z) (month : R) :
  1 <= month < IZR months + 1 -> clipFromOne month = clipToHorizon months month.
Proof.
  intros [Hlo Hhi]. unfold clipFromOne, clipToHorizon.
  assert (1 <= Zfloor month)%Z by (apply Zfloor_lub; lra).
  assert (Zfloor month <= months)%Z.
  { pose proof (Zfloor_bound month) as [Hfl _].
    assert (IZR (Zfloor month) < IZR (months + 1)) by (rewrite plus_IZR; lra).
    apply lt_IZR in H0. lia. }
  lia.
Qed.

(** X10.  When every lump sum is entered for a month from 1 to the horizon
    and the horizon is at most 1200 months, the estimator and
    [projectToRetirement] simulate the same wealth up to the horizon: the
    estimator returns the month of the first row of the projection whose
    wealth reaches the target, and when no row reaches it the estimator
    returns no month up to the horizon. *)
Theorem X10_estimator_agrees_with_projection (targetWealth W0 s rate : number)
    (months : Z) (lumps : list Lump) :
  (0 <= months <= cap)%Z ->
  Forall (fun ls => 1 <= month ls < IZR months + 1) lumps ->
  (targetWealth <=? Fin 0)%js = false ->
  let rows := projectToRetirement W0 s months rate lumps in
  (forall (t : nat) (row : Row),
     rows !! t = Some row ->
     (wealth row >=? targetWealth)%js = true ->
     (forall (i : nat) (earlier : Row), (i < t)%nat -> rows !! i = Some earlier ->
        (wealth earlier >=? targetWealth)%js = false) ->
     monthsToGoal targetWealth W0 s lumps rate = Fin (IZR (m row)))
  /\
  (Forall (fun row => (wealth row >=? targetWealth)%js = false) rows ->
   forall t : Z, monthsToGoal targetWealth W0 s lumps rate = Fin (IZR t) ->
     (months < t)%Z).
Proof.
  intros Hm Hlumps Htarget rows.
  set (bmG := buildByMonth clipFromOne lumps).
  set (bmP := buildByMonth (clipToHorizon months) lumps).
  assert (Hbm : forall k : Z, default 0 (bmG !! k) = default 0 (bmP !! k)).
  { intros k. unfold bmG, bmP. rewrite !buildByMonth_lookup.
    apply clippedSum_ext. eapply Forall_impl; [exact Hlumps|].
    intros ls Hls. now apply clips_agree_in_range. }
  assert (Hsame : forall j : nat,
            accumAfter rate s bmG j 0 W0 = accumAfter rate s bmP j 0 W0).
  { intros j. apply accumAfter_ext. intros k _. apply Hbm. }
  assert (Hrow : forall j : nat, (Z.of_nat j <= months)%Z ->
            rows !! j = Some (mkRow (Z.of_nat j) (accumAfter rate s bmG j 0 W0))).
  { intros j Hj. unfold rows, projectToRetirement. fold bmP.
    rewrite retirementLoop_lookup by lia. now rewrite Hsame, Z.add_0_l. }
  assert (Hlen : length rows = Z.to_nat (months + 1)).
  { unfold rows, projectToRetirement. apply length_retirementLoop. }
  assert (Hgoal : monthsToGoal targetWealth W0 s lumps rate
                  = goalLoop rate s bmG targetWealth (Z.to_nat (cap + 1)) 0 W0).
  { unfold monthsToGoal. now rewrite Htarget. }
  unfold cap in *. split.
  - intros t row Ht Hhit Hbefore.
    assert (Htlt : (t < length rows)%nat) by (apply lookup_lt_is_Some; eauto).
    rewrite Hrow in Ht by lia. injection Ht as <-. cbn [m wealth] in Hhit |- *.
    rewrite Hgoal, (goalLoop_first _ _ _ _ _ t); [do 2 f_equal; lia | lia | exact Hhit |].
    intros i Hi.
    apply (Hbefore i (mkRow (Z.of_nat i) (accumAfter rate s bmG i 0 W0)) Hi).
    apply Hrow. lia.
  - intros Hnone t Ht. rewrite Hgoal in Ht.
    destruct (goalLoop_cases rate s bmG targetWealth (Z.to_nat (1200 + 1)) 0 W0)
      as [[Hinf _] | (j & Hj & Hres & Hhit & _)].
    + rewrite Hinf in Ht. discriminate.
    + rewrite Hres in Ht. injection Ht as Ht. apply eq_IZR in Ht. subst t.
      destruct (Z_lt_le_dec months (0 + Z.of_nat j)) as [|Hle]; [assumption|].
      rewrite Forall_forall in Hnone.
      assert (Hin : mkRow (Z.of_nat j) (accumAfter rate s bmG j 0 W0) ∈ rows).
      { apply list_elem_of_lookup. exists j. apply Hrow. lia. }
      apply Hnone in Hin. simpl in Hin. congruence.
Qed.

Lemma X10_estimator_agrees_with_projection_witness :
  monthsToGoal (Fin 15) (Fin 0) (Fin 10) [mkLump 1 (3 / 2) 5] (Fin 0) = Fin (IZR 1).
Proof.
  destruct (X10_estimator_agrees_with_projection (Fin 15) (Fin 0) (Fin 10) (Fin 0) 2
              [mkLump 1 (3 / 2) 5])
    as [Hfirst _].
  - unfold cap. lia.
  - constructor; [simpl; lra | constructor].
  - apply le_Fin_false. lra.
  - assert (Hfloor : Zfloor (3 / 2) = 1%Z) by (apply Zfloor_eq; simpl; lra).
    assert (Hrows : projectToRetirement (Fin 0) (Fin 10) 2 (Fin 0) [mkLump 1 (3 / 2) 5]
                    = [mkRow 0 (Fin 0); mkRow 1 (Fin 15); mkRow 2 (Fin 25)]).
    { unfold projectToRetirement.
      rewrite (retirementLoop_clipped (Fin 0) (Fin 10) (Fin 0) 2 [mkLump 1 (3 / 2) 5] _ 0).
      change (Z.to_nat (2 + 1)) with 3%nat.
      cbn [seq map clippedWealth clippedSum fold_right month amount].
      rewrite Hfloor. simpl. repeat f_equal; lra. }
    apply (Hfirst 1%nat (mkRow 1 (Fin 15))).
    + now rewrite Hrows.
    + apply ge_Fin. lra.
    + intros i earlier Hi Hrow. rewrite Hrows in Hrow.
      destruct i as [|i]; [|lia]; cbn in Hrow; injection Hrow as <-;
        apply ge_Fin_false; lra.
Defined.

(** X11.  Whatever its inputs, [monthsToGoal] returns either [Infinity] or
    a whole number of months from 0 to 1200: never NaN, never a negative or
    fractional month, never a month beyond the cap. *)
Theorem X11_months_to_goal_range (targetWealth W0 s : number) (lumps : list Lump)
    (rate : number) :
  monthsToGoal targetWealth W0 s lumps rate = PosInf
  \/ exists t : Z,
       (0 <= t <= cap)%Z /\ monthsToGoal targetWealth W0 s lumps rate = Fin (IZR t).
Proof.
  unfold monthsToGoal. destruct (targetWealth <=? Fin 0)%js.
  - right. exists 0%Z. unfold cap. split; [lia | reflexivity].
  - destruct (goalLoop_cases rate s (buildByMonth clipFromOne lumps) targetWealth
                (Z.to_nat (cap + 1)) 0 W0) as [[Hinf _] | (j & Hj & Hres & _)].
    + now left.
    + right. exists (0 + Z.of_nat j)%Z. split; [unfold cap in *; lia | exact Hres].
Qed.

(** ** The solver: what it returns with a positive horizon *)

(** The bracket the expansion loop leaves: at most three expansions are
    made, so its ends are within -1.25 and 1.25, and the test on
    [fLo * fHi] fails on it. *)
Lemma expandLoop_bracket (f : number -> number) :
  f NaN = NaN ->
  exists (lo hi : R) (fl fh : number),
    expandLoop f 10 (evalBracket f (Fin (- (1 / 2))) (Fin (1 / 2)))
    = mkBracket (Fin lo) (Fin hi) fl fh
    /\ - (5 / 4) <= lo /\ lo <= - (1 / 2) /\ 1 / 2 <= hi /\ hi <= 5 / 4
    /\ (fl * fh >? Fin 0)%js = false.
Proof.
  intros HNaN. unfold evalBracket.
  rewrite expandLoop_S. cbn [fLo fHi loA hiA].
  destruct (f (toMonthly (Fin (- (1 / 2)))) * f (toMonthly (Fin (1 / 2))) >? Fin 0)%js eqn:E0.
  2:{ do 4 eexists. split; [reflexivity|]. repeat split; try lra. exact E0. }
  cbv zeta. unfold evalBracket. rewrite !sub_Fin, !add_Fin. cbn [hiA].
  rewrite (proj2 (gt_Fin_false _ 3)) by lra.
  rewrite expandLoop_S. cbn [fLo fHi loA hiA].
  destruct (f (toMonthly (Fin (- (1 / 2) - 1 / 4)))
            * f (toMonthly (Fin (1 / 2 + 1 / 4))) >? Fin 0)%js eqn:E1.
  2:{ do 4 eexists. split; [reflexivity|]. repeat split; try lra. exact E1. }
  cbv zeta. unfold evalBracket. rewrite !sub_Fin, !add_Fin. cbn [hiA].
  rewrite (proj2 (gt_Fin_false _ 3)) by lra.
  rewrite expandLoop_S. cbn [fLo fHi loA hiA].
  destruct (f (toMonthly (Fin (- (1 / 2) - 1 / 4 - 1 / 4)))
            * f (toMonthly (Fin (1 / 2 + 1 / 4 + 1 / 4))) >? Fin 0)%js eqn:E2.
  2:{ do 4 eexists. split; [reflexivity|]. repeat split; try lra. exact E2. }
  cbv zeta. unfold evalBracket. rewrite !sub_Fin, !add_Fin. cbn [hiA].
  rewrite (proj2 (gt_Fin_false _ 3)) by lra.
  rewrite (toMonthly_below (- (1 / 2) - 1 / 4 - 1 / 4 - 1 / 4)) by lra. rewrite HNaN.
  rewrite expandLoop_stops by reflexivity.
  do 4 eexists. split; [reflexivity|]. repeat split; try lra.
Qed.

(** The bisection returns a point of the bracket it is given. *)
Lemma bisectLoop_in_bracket (f : number -> number) (n : nat) :
  forall (lo hi : R) (fl fh : number),
    lo <= hi ->
    exists x : R,
      bisectLoop f n (mkBracket (Fin lo) (Fin hi) fl fh) = Fin x /\ lo <= x <= hi.
Proof.
  induction n as [|n IH]; intros lo hi fl fh Hle.
  - cbn [bisectLoop loA hiA]. rewrite add_Fin, div_Fin by lra.
    eexists. split; [reflexivity | lra].
  - rewrite bisectLoop_S. cbn [loA hiA fLo fHi]. cbv zeta.
    rewrite add_Fin, div_Fin by lra.
    destruct (Num.abs (f (toMonthly (Fin ((lo + hi) / 2)))) <? Fin 1)%js.
    + eexists. split; [reflexivity | lra].
    + destruct (fl * f (toMonthly (Fin ((lo + hi) / 2))) <=? Fin 0)%js.
      * destruct (IH lo ((lo + hi) / 2) fl (f (toMonthly (Fin ((lo + hi) / 2)))))
          as (x & Hx & Hin); [lra|].
        exists x. split; [exact Hx | lra].
      * destruct (IH ((lo + hi) / 2) hi (f (toMonthly (Fin ((lo + hi) / 2)))) fh)
          as (x & Hx & Hin); [lra|].
        exists x. split; [exact Hx | lra].
Qed.

(** X12.  With a positive horizon [solveRequiredMonthlyAccum] always
    returns a finite annual rate between -1.25 and 1.25, whatever the
    wealth, the saving, the lump sums and the target: never [null], never
    NaN, and never a rate near the 3.0 up to which it is written to
    search. *)
Theorem X12_solver_result_is_bounded (monthsToRetire : Z)
    (currentWealth monthlySaving : number) (lumpSums : list Lump)
    (wealthAtRetire target : number) :
  (0 < monthsToRetire)%Z ->
  exists x : R,
    solveRequiredMonthlyAccum monthsToRetire currentWealth monthlySaving lumpSums
      wealthAtRetire target = Some (Fin x)
    /\ - (5 / 4) <= x <= 5 / 4.
Proof.
  intros Hm. unfold solveRequiredMonthlyAccum.
  replace (monthsToRetire <=? 0)%Z with false by (symmetry; apply Z.leb_gt; lia).
  cbv zeta. destruct (wealthAtRetire >=? target)%js.
  - exists 0. split; [reflexivity | lra].
  - set (f := fun rate : number =>
                (wealthAtRetireWithMonthlyAccum currentWealth monthlySaving
                   monthsToRetire lumpSums rate - target)%js).
    assert (HNaN : f NaN = NaN) by (unfold f; now rewrite wealthAtRetire_NaN_rate).
    destruct (expandLoop_bracket f HNaN)
      as (lo & hi & fl & fh & -> & Hlo1 & Hlo2 & Hhi1 & Hhi2 & Htest).
    cbn [fLo fHi]. rewrite Htest.
    destruct (bisectLoop_in_bracket f 40 lo hi fl fh) as (x & -> & Hx); [lra|].
    exists x. split; [reflexivity | lra].
Qed.

Lemma X12_solver_result_is_bounded_witness :
  exists x : R,
    solveRequiredMonthlyAccum 12 (Fin 0) (Fin 0) [] (Fin 0) (Fin 30000) = Some (Fin x)
    /\ - (5 / 4) <= x <= 5 / 4.
Proof.
  apply (X12_solver_result_is_bounded 12 (Fin 0) (Fin 0) [] (Fin 0) (Fin 30000)). lia.
Defined.

(** ** The solver on a bracket with a sign change *)

Lemma bisectLoop_keeps_sign_change (f : number -> number) (g : R -> R) (lo0 hi0 : R) :
  (forall a : R, lo0 <= a <= hi0 -> f (toMonthly (Fin a)) = Fin (g a)) ->
  forall (n : nat) (lo hi : R),
    lo0 <= lo -> lo <= hi -> hi <= hi0 -> g lo * g hi <= 0 ->
    exists x : R,
      bisectLoop f n (mkBracket (Fin lo) (Fin hi) (Fin (g lo)) (Fin (g hi))) = Fin x
      /\ lo <= x <= hi
      /\ (Rabs (g x) < 1
          \/ exists lo' hi' : R,
               lo <= lo' /\ hi' <= hi /\ x = (lo' + hi') / 2
               /\ hi' - lo' = (hi - lo) / 2 ^ n /\ g lo' * g hi' <= 0).
Proof.
  intros Hf. induction n as [|n IH]; intros lo hi H0 Hle H1 Hsign.
  - cbn [bisectLoop loA hiA]. rewrite add_Fin, div_Fin by lra.
    eexists. split; [reflexivity|]. split; [lra|]. right.
    exists lo, hi. repeat split; try lra; simpl; lra.
  - rewrite bisectLoop_S. cbn [loA hiA fLo fHi]. cbv zeta.
    rewrite add_Fin, div_Fin by lra. rewrite Hf by lra.
    set (mid := (lo + hi) / 2).
    assert (Hp : 0 < 2 ^ n) by (apply pow_lt; lra).
    destruct (Rlt_dec (Rabs (g mid)) 1) as [Hnear|Hfar].
    + change (Num.abs (Fin (g mid))) with (Fin (Rabs (g mid))).
      rewrite (proj2 (lt_Fin _ 1)) by exact Hnear.
      exists mid. unfold mid. split; [reflexivity|]. split; [lra|]. now left.
    + change (Num.abs (Fin (g mid))) with (Fin (Rabs (g mid))).
      rewrite (proj2 (lt_Fin_false _ 1)) by lra.
      rewrite mul_Fin. destruct (Rle_dec (g lo * g mid) 0) as [Hleft|Hright].
      * rewrite (proj2 (le_Fin _ 0)) by exact Hleft.
        destruct (IH lo mid) as (x & Hx & Hin & Hres); [lra | unfold mid; lra | unfold mid; lra | exact Hleft |].
        exists x. split; [exact Hx|]. split; [unfold mid in Hin; lra|].
        destruct Hres as [Hnear | (lo' & hi' & Hl & Hh & Hxm & Hw & Hs)]; [now left|].
        right. exists lo', hi'. repeat split; try assumption.
        -- unfold mid in Hh. lra.
        -- rewrite Hw. unfold mid. simpl. field. lra.
      * rewrite (proj2 (le_Fin_false _ 0)) by lra.
        assert (Hsign' : g mid * g hi <= 0) by nra.
        destruct (IH mid hi) as (x & Hx & Hin & Hres); [unfold mid; lra | unfold mid; lra | lra | exact Hsign' |].
        exists x. split; [exact Hx|]. split; [unfold mid in Hin; lra|].
        destruct Hres as [Hnear | (lo' & hi' & Hl & Hh & Hxm & Hw & Hs)]; [now left|].
        right. exists lo', hi'. repeat split; try assumption.
        -- unfold mid in Hl. lra.
        -- rewrite Hw. unfold mid. simpl. field. lra.
Qed.

(** The objective is a finite number at every annual rate above -1. *)
Lemma objective_Fin (W s T : R) (monthsToRetire : Z) (lumps : list Lump) :
  (0 <= monthsToRetire)%Z ->
  exists g : R -> R,
    forall a : R, - (1 / 2) <= a <= 1 / 2 ->
      objective (Fin W) (Fin s) monthsToRetire lumps (Fin T) a = Fin (g a).
Proof.
  intros Hm.
  exists (fun a =>
            W * (1 + (Rpower (1 + a) (1 / 12) - 1)) ^ Z.to_nat monthsToRetire
            + flowsValue (Rpower (1 + a) (1 / 12) - 1)
                (fun k => s + default 0
                                (buildByMonth (clipToHorizon monthsToRetire) lumps !! k))
                (Z.to_nat monthsToRetire) 0%Z
            - T).
  intros a Ha. unfold objective. rewrite toMonthly_above by lra.
  rewrite wealthAtRetireWithMonthlyAccum_eq by exact Hm.
  now rewrite accumAfter_flows, sub_Fin.
Qed.

(** X13.  On finite inputs with a positive horizon and a target that is not
    met yet, when the objective (end wealth minus target) does not have the
    same sign at the annual rates -0.5 and 0.5, the solver returns a rate
    [x] of that bracket at which the end wealth is within 1 of the target,
    or else the midpoint of a bracket of width [2^-40] inside it across
    which the objective still changes sign. *)
Theorem X13_bisection_keeps_the_root (monthsToRetire : Z) (W s T : R)
    (lumps : list Lump) (wealthAtRetire : number) :
  let obj := objective (Fin W) (Fin s) monthsToRetire lumps (Fin T) in
  (0 < monthsToRetire)%Z ->
  (wealthAtRetire >=? Fin T)%js = false ->
  (obj (- (1 / 2))%R * obj (1 / 2)%R <=? Fin 0)%js = true ->
  exists x : R,
    solveRequiredMonthlyAccum monthsToRetire (Fin W) (Fin s) lumps wealthAtRetire (Fin T)
    = Some (Fin x)
    /\ - (1 / 2) <= x <= 1 / 2
    /\ ((Num.abs (obj x) <? Fin 1)%js = true
        \/ exists lo hi : R,
             - (1 / 2) <= lo /\ hi <= 1 / 2 /\ x = (lo + hi) / 2
             /\ hi - lo = 1 / 2 ^ 40
             /\ (obj lo * obj hi <=? Fin 0)%js = true).
Proof.
  intros obj Hm Hmet Hsign.
  destruct (objective_Fin W s T monthsToRetire lumps) as [g Hg]; [lia|].
  fold obj in Hg.
  rewrite !Hg in Hsign by lra. rewrite mul_Fin in Hsign. apply le_Fin in Hsign.
  unfold solveRequiredMonthlyAccum.
  replace (monthsToRetire <=? 0)%Z with false by (symmetry; apply Z.leb_gt; lia).
  cbv zeta. rewrite Hmet.
  set (f := fun rate : number =>
              (wealthAtRetireWithMonthlyAccum (Fin W) (Fin s) monthsToRetire lumps rate
               - Fin T)%js).
  assert (Hf : forall a : R, - (1 / 2) <= a <= 1 / 2 -> f (toMonthly (Fin a)) = Fin (g a)).
  { intros a Ha. rewrite <- Hg by exact Ha. reflexivity. }
  unfold evalBracket. rewrite !Hf by lra.
  rewrite expandLoop_stops
    by (cbn [fLo fHi]; rewrite mul_Fin; apply gt_Fin_false; exact Hsign).
  cbn [fLo fHi]. rewrite mul_Fin, (proj2 (gt_Fin_false _ 0)) by exact Hsign.
  destruct (bisectLoop_keeps_sign_change f g (- (1 / 2)) (1 / 2) Hf 40 (- (1 / 2)) (1 / 2))
    as (x & Hx & Hin & Hres); [lra | lra | lra | exact Hsign |].
  exists x. split; [now rewrite Hx|]. split; [exact Hin|].
  destruct Hres as [Hnear | (lo & hi & Hl & Hh & Hxm & Hw & Hs)].
  - left. rewrite Hg by exact Hin.
    change (Num.abs (Fin (g x))) with (Fin (Rabs (g x))). now apply lt_Fin.
  - right. exists lo, hi. repeat split; try assumption.
    + rewrite Hw. lra.
    + assert (0 < 2 ^ 40) by (apply pow_lt; lra).
      assert (0 < hi - lo) by (rewrite Hw; apply Rdiv_lt_0_compat; lra).
      rewrite !Hg by lra. rewrite mul_Fin. now apply le_Fin.
Qed.

Lemma X13_bisection_keeps_the_root_witness :
  let obj := objective (Fin 100) (Fin 0) 1 [] (Fin 100) in
  exists x : R,
    solveRequiredMonthlyAccum 1 (Fin 100) (Fin 0) [] (Fin 90) (Fin 100) = Some (Fin x)
    /\ - (1 / 2) <= x <= 1 / 2
    /\ ((Num.abs (obj x) <? Fin 1)%js = true
        \/ exists lo hi : R,
             - (1 / 2) <= lo /\ hi <= 1 / 2 /\ x = (lo + hi) / 2
             /\ hi - lo = 1 / 2 ^ 40
             /\ (obj lo * obj hi <=? Fin 0)%js = true).
Proof.
  apply (X13_bisection_keeps_the_root 1 100 0 100 [] (Fin 90)).
  - lia.
  - apply ge_Fin_false. lra.
  - unfold objective. rewrite !toMonthly_above by lra.
    rewrite !wealthAtRetireWithMonthlyAccum_eq by lia. js_eval.
    destruct (twelfth_root_sign (1 + - (1 / 2))) as (_ & _ & Hlow); [lra|].
    destruct (twelfth_root_sign (1 + 1 / 2)) as (_ & Hhigh & _); [lra|].
    apply bool_decide_eq_true.
    assert (Rpower (1 + - (1 / 2)) (1 / 12) < 1) by (apply Hlow; lra).
    assert (1 < Rpower (1 + 1 / 2) (1 / 12)) by (apply Hhigh; lra).
    nra.
Defined.

(** ** Runway *)

Lemma Rdiv_nonneg (x y : R) : 0 <= x -> 0 < y -> 0 <= x / y.
Proof. intros Hx Hy. unfold Rdiv. now apply Rle_mult_inv_pos. Qed.

(** The finite case of [yearsOfRunway]. *)
Lemma yearsOfRunway_finite (W spend pct : R) :
  0 < spend -> pct / 100 <> 0 -> 0 < 1 + pct / 100 ->
  0 < 1 - W * (pct / 100) / spend ->
  yearsOfRunway (Fin W) (Fin spend) (Fin pct)
  = Fin (- ln (1 - W * (pct / 100) / spend) / ln (1 + pct / 100)).
Proof.
  intros Hs Hr Hr1 Hratio. unfold yearsOfRunway. cbv zeta.
  rewrite (div_Fin pct 100) by lra.
  rewrite (proj2 (le_Fin_false spend 0)) by exact Hs.
  rewrite (proj2 (eq_Fin_false _ 0)) by exact Hr.
  rewrite mul_Fin, div_Fin, sub_Fin by lra.
  rewrite (proj2 (le_Fin_false _ 0)) by exact Hratio.
  rewrite add_Fin, !log_Fin by lra. rewrite neg_Fin.
  apply div_Fin. intros Hz. rewrite <- ln_1 in Hz. apply ln_inv in Hz; lra.
Qed.

(** X14.  When [yearsOfRunway] returns a finite number of years [y] for a
    positive spend and a return [r = pct / 100] other than 0 and above -1,
    [y] is the time at which the wealth, compounded yearly at [r] and drawn
    on at the annual spend, is exactly used up:
    [W (1+r)^y = spend ((1+r)^y - 1) / r]; and [y >= 0] when the wealth is
    not negative.  With [r = 0] the runway is [W / spend]. *)
Theorem X14_runway_is_the_depletion_time (W spend pct : R) :
  let r := pct / 100 in
  0 < spend ->
  (r <> 0 -> 0 < 1 + r -> 0 < 1 - W * r / spend ->
     exists y : R,
       yearsOfRunway (Fin W) (Fin spend) (Fin pct) = Fin y
       /\ W * Rpower (1 + r) y = spend * (Rpower (1 + r) y - 1) / r
       /\ (0 <= W -> 0 <= y))
  /\ (r = 0 ->
        exists y : R,
          yearsOfRunway (Fin W) (Fin spend) (Fin pct) = Fin y /\ y * spend = W).
Proof.
  intros r Hs. split.
  - intros Hr Hr1 Hratio.
    exists (- ln (1 - W * r / spend) / ln (1 + r)).
    assert (Hln : ln (1 + r) <> 0).
    { intros Hz. rewrite <- ln_1 in Hz. apply ln_inv in Hz; lra. }
    split; [now apply yearsOfRunway_finite|]. split.
    + assert (Hpow : Rpower (1 + r) (- ln (1 - W * r / spend) / ln (1 + r))
                     = / (1 - W * r / spend)).
      { unfold Rpower.
        replace (- ln (1 - W * r / spend) / ln (1 + r) * ln (1 + r))
          with (- ln (1 - W * r / spend)) by (field; exact Hln).
        rewrite exp_Ropp, exp_ln by exact Hratio. reflexivity. }
      assert (Hden : 0 < spend - W * r).
      { replace (spend - W * r) with ((1 - W * r / spend) * spend) by (field; lra).
        apply Rmult_lt_0_compat; lra. }
      rewrite Hpow. field. repeat split; lra.
    + intros HW. destruct (Rlt_dec 0 r) as [Hpos|Hneg].
      * assert (0 < ln (1 + r)) by (rewrite <- ln_1; apply ln_increasing; lra).
        assert (ln (1 - W * r / spend) <= 0).
        { rewrite <- ln_1.
          assert (0 <= W * r / spend) by (apply Rdiv_nonneg; nra).
          destruct (Req_dec_T (1 - W * r / spend) 1) as [->|Hne]; [lra|].
          left. apply ln_increasing; lra. }
        apply Rdiv_nonneg; lra.
      * assert (ln (1 + r) < 0) by (rewrite <- ln_1; apply ln_increasing; lra).
        assert (0 <= ln (1 - W * r / spend)).
        { rewrite <- ln_1.
          assert (0 <= W * (- r) / spend) by (apply Rdiv_nonneg; nra).
          destruct (Req_dec_T (1 - W * r / spend) 1) as [->|Hne]; [lra|].
          left. apply ln_increasing; lra. }
        replace (- ln (1 - W * r / spend) / ln (1 + r))
          with (ln (1 - W * r / spend) / (- ln (1 + r))) by (field; exact Hln).
        apply Rdiv_nonneg; lra.
  - intros Hr. exists (W / spend). split.
    + unfold yearsOfRunway. cbv zeta. rewrite (div_Fin pct 100) by lra. fold r.
      rewrite (proj2 (le_Fin_false spend 0)) by exact Hs.
      rewrite (proj2 (eq_Fin r 0)) by exact Hr.
      apply div_Fin. lra.
    + field. lra.
Qed.

Lemma X14_runway_is_the_depletion_time_witness :
  (exists y : R,
     yearsOfRunway (Fin 100) (Fin 10) (Fin 5) = Fin y
     /\ 100 * Rpower (1 + 5 / 100) y = 10 * (Rpower (1 + 5 / 100) y - 1) / (5 / 100)
     /\ (0 <= 100 -> 0 <= y))
  /\ (exists y : R, yearsOfRunway (Fin 100) (Fin 10) (Fin 0) = Fin y /\ y * 10 = 100).
Proof.
  split.
  - destruct (X14_runway_is_the_depletion_time 100 10 5) as [H _]; [lra|].
    apply H; lra.
  - destruct (X14_runway_is_the_depletion_time 100 10 0) as [_ H]; [lra|].
    apply H. lra.
Defined.

(** ** Target, implied withdrawal rate and progress *)

(** X15.  The target and the implied withdrawal rate are inverse to each
    other: for a positive monthly spend and a withdrawal rate of at least
    1e-7 percent, a wealth at retirement equal to the target has the plan's
    own withdrawal rate as its implied rate.  When the wealth at retirement
    is not positive there is no implied rate ([null]). *)
Theorem X15_implied_rate_inverts_target (p : Plan) :
  (0 < monthlySpend p -> 1 / 1000000000 <= swrPct p / 100 ->
   wealthAtRetire p = targetWealth p ->
   impliedSWRPct p = Some (Fin (swrPct p)))
  /\ ((wealthAtRetire p >? Fin 0)%js = false -> impliedSWRPct p = None).
Proof.
  split.
  - intros Hs Hswr HW. unfold impliedSWRPct. rewrite HW, targetWealth_Fin.
    rewrite Rmax_left by lra.
    assert (HT : 0 < monthlySpend p * 12 / (swrPct p / 100))
      by (apply Rdiv_lt_0_compat; lra).
    rewrite (proj2 (gt_Fin _ 0)) by exact HT.
    rewrite mul_Fin, div_Fin, mul_Fin by lra.
    do 2 f_equal. field. lra.
  - intros H. unfold impliedSWRPct. now rewrite H.
Qed.

Lemma X15_implied_rate_inverts_target_witness :
  let p := mkPlan 30 30 30000 0 100 4 5 (7 / 2) [] in
  impliedSWRPct p = Some (Fin (swrPct p))
  /\ impliedSWRPct (mkPlan 30 30 0 0 100 4 5 (7 / 2) []) = None.
Proof.
  intros p. split.
  - apply (X15_implied_rate_inverts_target p).
    + simpl. lra.
    + simpl. lra.
    + rewrite targetWealth_Fin. unfold p. cbn [monthlySpend swrPct].
      rewrite Rmax_left by lra.
      change (wealthAtRetire (mkPlan 30 30 30000 0 100 4 5 (7 / 2) []))
        with (Fin 30000).
      f_equal. lra.
  - apply (X15_implied_rate_inverts_target (mkPlan 30 30 0 0 100 4 5 (7 / 2) [])).
    change (wealthAtRetire (mkPlan 30 30 0 0 100 4 5 (7 / 2) [])) with (Fin 0).
    apply gt_Fin_false. lra.
Defined.

(** The wealth at retirement is a finite number or NaN, never an infinity. *)
Lemma accumAfter_Fin_or_NaN (rate : number) (s : R) (byMonth : gmap Z R) (n : nat) :
  (rate = NaN \/ exists r : R, rate = Fin r) ->
  forall (t : Z) (W : number),
    (W = NaN \/ exists x : R, W = Fin x) ->
    accumAfter rate (Fin s) byMonth n t W = NaN
    \/ exists x : R, accumAfter rate (Fin s) byMonth n t W = Fin x.
Proof.
  intros Hrate. induction n as [|n IH]; intros t W HW; simpl.
  - exact HW.
  - apply IH. destruct HW as [->|[x ->]]; [now left|].
    destruct Hrate as [->|[r ->]]; [now left | right].
    rewrite accumStep_Fin. eauto.
Qed.

Lemma monthlyRate_Fin_or_NaN (pct : R) :
  monthlyRateFromRealAnnual (Fin pct) = NaN
  \/ exists r : R, monthlyRateFromRealAnnual (Fin pct) = Fin r.
Proof.
  destruct (Rlt_dec pct (-100)) as [Hlt|Hge].
  - left. now apply monthlyRate_below.
  - right. destruct (Req_dec_T pct (-100)) as [Heq|Hne].
    + rewrite monthlyRate_at_minus_100 by exact Heq. eauto.
    + rewrite monthlyRateFromRealAnnual_Fin by lra. eauto.
Qed.

Lemma wealthAtRetire_Fin_or_NaN (p : Plan) :
  wealthAtRetire p = NaN \/ exists W : R, wealthAtRetire p = Fin W.
Proof.
  change (wealthAtRetire p)
    with (wealthAtRetireWithMonthlyAccum (Fin (currentWealth p)) (Fin (monthlySaving p))
            (monthsToRetire p) (lumpSums p) (monthlyAccum p)).
  rewrite wealthAtRetireWithMonthlyAccum_eq by apply monthsToRetire_nonneg.
  apply accumAfter_Fin_or_NaN.
  - destruct (monthlyRate_Fin_or_NaN (accumRealReturn p)) as [H|H]; [left | right]; exact H.
  - right. eauto.
Qed.

(** X16.  The progress shown is a number from 0 to 100 whenever the wealth
    at retirement is a number, and it is 100 exactly when that wealth is at
    least the larger of the target and 1; it is NaN only when the wealth at
    retirement is. *)
Theorem X16_progress_is_a_percentage (p : Plan) :
  (wealthAtRetire p = NaN /\ progressPct p = NaN)
  \/ exists W x : R,
       wealthAtRetire p = Fin W /\ progressPct p = Fin x
       /\ 0 <= x <= 100
       /\ (x = 100 <->
           Rmax (monthlySpend p * 12 / Rmax (swrPct p / 100) (1 / 1000000000)) 1 <= W).
Proof.
  unfold progressPct. rewrite targetWealth_Fin.
  set (T := monthlySpend p * 12 / Rmax (swrPct p / 100) (1 / 1000000000)).
  assert (HM : Num.max (Fin T) (Fin 1) = Fin (Rmax T 1)).
  { unfold Rmax. destruct (Rle_dec T 1) as [Hle|Hgt].
    - destruct (Req_dec_T T 1) as [->|Hne]; [now rewrite max_Fin_l by lra|].
      now rewrite max_Fin_r by lra.
    - now rewrite max_Fin_l by lra. }
  rewrite HM. assert (HM1 : 1 <= Rmax T 1) by apply Rmax_r.
  destruct (wealthAtRetire_Fin_or_NaN p) as [->|[W ->]]; [left; split; reflexivity|].
  right. exists W. rewrite mul_Fin, div_Fin by lra.
  set (q := 100 * W / Rmax T 1).
  assert (Hq : q = 100 * (W / Rmax T 1)) by (unfold q; field; lra).
  assert (Hone : Rmax T 1 <= W <-> 100 <= q).
  { rewrite Hq. split; intros H.
    - assert (1 <= W / Rmax T 1).
      { apply (Rmult_le_reg_r (Rmax T 1)); [lra|].
        replace (W / Rmax T 1 * Rmax T 1) with W by (field; lra). lra. }
      lra.
    - assert (H1 : 1 <= W / Rmax T 1) by lra.
      apply (Rmult_le_compat_r (Rmax T 1)) in H1; [|lra].
      replace (W / Rmax T 1 * Rmax T 1) with W in H1 by (field; lra). lra. }
  destruct (Rlt_dec q 100) as [Hlt|Hge].
  - rewrite min_Fin_r by lra.
    destruct (Rlt_dec 0 q) as [Hpos|Hneg].
    + exists q. rewrite max_Fin_r by lra.
      split; [reflexivity|]. split; [reflexivity|]. split; [lra|].
      split; intros Hx; [apply Hone; lra | apply Hone in Hx; lra].
    + exists 0. rewrite max_Fin_l by lra.
      split; [reflexivity|]. split; [reflexivity|]. split; [lra|].
      split; intros Hx; [lra | apply Hone in Hx; lra].
  - exists 100. rewrite min_Fin_l by lra. rewrite max_Fin_r by lra.
    split; [reflexivity|]. split; [reflexivity|]. split; [lra|].
    split; intros Hx; [apply Hone; lra | reflexivity].
Qed.

(** ** Perpetuity *)

(** Monthly compounding beats twelve times the monthly rate. *)
Lemma annual_at_least_twelve_monthly (r : R) : 0 < r -> 1 + 12 * r <= (1 + r) ^ 12.
Proof. intros Hr. pose proof (poly 12 r Hr) as H. simpl INR in H. lra. Qed.

(** X17.  When the card shows perpetuity ([hasPerpetuity]) for a wealth at
    retirement that is not negative, the runway is [Infinity], and so is
    the age at which the money ends: the two cards do not contradict each
    other. *)
Theorem X17_perpetuity_has_no_end (p : Plan) :
  (Fin 0 <=? wealthAtRetire p)%js = true ->
  hasPerpetuity p = true ->
  runwayY p = PosInf /\ endAge p = PosInf.
Proof.
  intros HW0 Hperp.
  assert (Hrun : runwayY p = PosInf).
  { unfold runwayY, yearsOfRunway. cbv zeta. rewrite mul_Fin.
    destruct (Rle_dec (monthlySpend p * 12) 0) as [Hfree|Hspend].
    { now rewrite (proj2 (le_Fin _ 0)) by exact Hfree. }
    rewrite (proj2 (le_Fin_false _ 0)) by lra.
    destruct (wealthAtRetire_Fin_or_NaN p) as [HNaN|[W HW]];
      [rewrite HNaN in HW0; discriminate|].
    rewrite HW in HW0 |- *. apply le_Fin in HW0.
    unfold hasPerpetuity, sustainableMonthlySWR in Hperp. rewrite HW in Hperp.
    unfold monthlyRetire in Hperp.
    destruct (Rlt_dec (-100) (retireRealReturn p)) as [Hb|Hb].
    - destruct (monthly_rate_facts (retireRealReturn p) Hb)
        as (r & Hr & Hlo & H0 & Hpos & Hneg & Hpow).
      rewrite Hr, mul_Fin in Hperp. apply ge_Fin in Hperp.
      assert (Hr0 : 0 < r).
      { destruct (Rlt_dec 0 r) as [|Hn]; [assumption|]. exfalso. nra. }
      assert (Hb0 : 0 < retireRealReturn p).
      { destruct (Rlt_dec 0 (retireRealReturn p)) as [|Hn]; [assumption|]. exfalso.
        destruct (Req_dec_T (retireRealReturn p) 0) as [Hz|Hnz].
        - rewrite Hz in Hpow. pose proof (annual_at_least_twelve_monthly r Hr0). lra.
        - assert (r < 0) by (apply Hneg; lra). lra. }
      pose proof (annual_at_least_twelve_monthly r Hr0) as Hbern.
      rewrite div_Fin by lra.
      rewrite (proj2 (eq_Fin_false _ 0)) by lra.
      rewrite mul_Fin, div_Fin, sub_Fin by lra.
      rewrite (proj2 (le_Fin _ 0)); [reflexivity|].
      assert (H12 : monthlySpend p * 12 <= W * (retireRealReturn p / 100)) by nra.
      assert (1 <= W * (retireRealReturn p / 100) / (monthlySpend p * 12)).
      { apply (Rmult_le_reg_r (monthlySpend p * 12)); [lra|].
        replace (W * (retireRealReturn p / 100) / (monthlySpend p * 12)
                 * (monthlySpend p * 12))
          with (W * (retireRealReturn p / 100)) by (field; lra).
        lra. }
      lra.
    - exfalso. destruct (Req_dec_T (retireRealReturn p) (-100)) as [Heq|Hne].
      + pose proof (monthlyRate_at_minus_100 (retireRealReturn p) Heq) as Hr.
        rewrite Hr, mul_Fin in Hperp. apply ge_Fin in Hperp. lra.
      + destruct (monthlyRate_Fin_or_NaN (retireRealReturn p)) as [Hr|[r Hr]].
        * rewrite Hr in Hperp. discriminate.
        * rewrite monthlyRate_below in Hr by lra. discriminate. }
  split; [exact Hrun|]. unfold endAge. now rewrite Hrun.
Qed.

Lemma X17_perpetuity_has_no_end_witness :
  let p := mkPlan 30 30 1000000 0 1000 4 5 5 [] in
  runwayY p = PosInf /\ endAge p = PosInf.
Proof.
  intros p. apply (X17_perpetuity_has_no_end p).
  - change (wealthAtRetire p) with (Fin 1000000). apply le_Fin. lra.
  - unfold hasPerpetuity, sustainableMonthlySWR, monthlyRetire.
    change (wealthAtRetire p) with (Fin 1000000). cbn [retireRealReturn monthlySpend p].
    destruct (monthly_rate_facts 5) as (r & Hr & Hlo & _ & _ & _ & Hpow); [lra|].
    rewrite Hr, mul_Fin. apply ge_Fin.
    destruct (Rle_dec (1 / 1000) r) as [Hge|Hlt]; [lra|]. exfalso.
    assert (H : (1 + r) ^ 12 <= (1 + 1 / 1000) ^ 12) by (apply pow_incr; lra).
    assert ((1 + 1 / 1000) ^ 12 < 1 + 5 / 100) by (simpl; lra).
    lra.
Defined.

(** ** The numeric inputs: digits and caret *)

Lemma countDigitsLoop_count (str : list N) :
  forall (n : nat) (c : Z),
    countDigitsLoop str n c = (c + Z.of_nat (length (parseDigits (take n str))))%Z.
Proof.
  unfold parseDigits. induction str as [|ch str IH]; intros n c.
  - destruct n; simpl; lia.
  - destruct n as [|n]; [simpl; lia|].
    cbn [countDigitsLoop take]. rewrite IH, filter_cons.
    destruct (isDigit ch) eqn:E.
    + rewrite decide_True by reflexivity. simpl. lia.
    + rewrite decide_False by discriminate. lia.
Qed.

(** X18.  [parseDigits] keeps the digits of a string, in their order, and
    nothing else: its result consists of digits, parsing twice changes
    nothing, and a string of digits is left as it is.  [countDigitsLeft]
    counts the digits of the first [pos] characters, for any [pos]: a
    negative [pos] counts nothing and a [pos] beyond the string counts all
    the digits. *)
Theorem X18_digits_of_a_string (s : list N) (pos : Z) :
  Forall (fun ch => isDigit ch = true) (parseDigits s)
  /\ parseDigits (parseDigits s) = parseDigits s
  /\ (Forall (fun ch => isDigit ch = true) s <-> parseDigits s = s)
  /\ countDigitsLeft s pos
     = Z.of_nat (length (parseDigits (take (Z.to_nat pos) s)))
  /\ (0 <= countDigitsLeft s pos <= Z.of_nat (length (parseDigits s)))%Z.
Proof.
  assert (Hall : Forall (fun ch => isDigit ch = true) (parseDigits s)).
  { apply Forall_forall. intros ch Hin. now apply list_elem_of_filter in Hin. }
  assert (Hfix : forall l : list N,
            Forall (fun ch => isDigit ch = true) l -> parseDigits l = l).
  { intros l Hl. unfold parseDigits. induction Hl as [|ch l Hch _ IH]; [reflexivity|].
    now rewrite filter_cons_True, IH by exact Hch. }
  assert (Hcount : countDigitsLeft s pos
                   = Z.of_nat (length (parseDigits (take (Z.to_nat pos) s)))).
  { unfold countDigitsLeft. rewrite countDigitsLoop_count, Z.add_0_l.
    do 3 f_equal. destruct (Z_lt_le_dec pos (Z.of_nat (length s))) as [Hin|Hout].
    - f_equal. lia.
    - rewrite !take_ge by lia. reflexivity. }
  split; [exact Hall|]. split; [now apply Hfix|]. split; [|split].
  - split; [apply Hfix | intros <-; exact Hall].
  - exact Hcount.
  - rewrite Hcount. split; [lia|]. apply inj_le.
    rewrite <- (take_drop (Z.to_nat pos) s) at 2.
    unfold parseDigits. rewrite filter_app, length_app. lia.
Qed.

Lemma countDigitsLeft_count (s : list N) (q : nat) :
  (q <= length s)%nat ->
  countDigitsLeft s (Z.of_nat q) = Z.of_nat (length (parseDigits (take q s))).
Proof.
  intros Hq. unfold countDigitsLeft. rewrite countDigitsLoop_count, Z.add_0_l.
  do 4 f_equal. lia.
Qed.

Lemma posFromDigitsLoop_found (str : list N) (k : Z) :
  forall i c : Z,
    (c < k)%Z -> (k - c <= Z.of_nat (length (parseDigits str)))%Z ->
    exists q : nat,
      posFromDigitsLoop str k i c = (i + Z.of_nat q)%Z
      /\ (1 <= q <= length str)%nat
      /\ Z.of_nat (length (parseDigits (take q str))) = (k - c)%Z
      /\ exists ch : N, str !! (q - 1)%nat = Some ch /\ isDigit ch = true.
Proof.
  unfold parseDigits. induction str as [|ch str IH]; intros i c Hc Hk.
  - simpl in Hk. lia.
  - cbn [posFromDigitsLoop]. rewrite filter_cons in Hk. destruct (isDigit ch) eqn:E.
    + rewrite decide_True in Hk by reflexivity. simpl length in Hk.
      destruct (Z.leb_spec k (c + 1)) as [Hlast|Hmore].
      * exists 1%nat. split; [lia|]. split; [simpl; lia|]. split.
        -- simpl. rewrite filter_cons, E, decide_True by reflexivity.
           rewrite take_0. simpl. lia.
        -- exists ch. split; [reflexivity | exact E].
      * destruct (IH (i + 1)%Z (c + 1)%Z) as (q & Hq & Hrange & Hcount & d & Hd & Hdigit);
          [lia | lia |].
        exists (S q). split; [lia|]. split; [simpl; lia|]. split.
        -- simpl take. rewrite filter_cons, E, decide_True by reflexivity.
           simpl length. lia.
        -- exists d. split; [|exact Hdigit].
           destruct q as [|q]; [lia|]. simpl in Hd |- *.
           now rewrite Nat.sub_0_r in Hd.
    + rewrite decide_False in Hk by discriminate.
      destruct (Z.leb_spec k c) as [Hlast|Hmore]; [lia|].
      destruct (IH (i + 1)%Z c) as (q & Hq & Hrange & Hcount & d & Hd & Hdigit);
        [lia | lia |].
      exists (S q). split; [lia|]. split; [simpl; lia|]. split.
      * simpl take. rewrite filter_cons, E, decide_False by discriminate. lia.
      * exists d. split; [|exact Hdigit].
        destruct q as [|q]; [lia|]. simpl in Hd |- *.
        now rewrite Nat.sub_0_r in Hd.
Qed.

Lemma posFromDigitsLoop_beyond (str : list N) (k : Z) :
  forall i c : Z,
    (Z.of_nat (length (parseDigits str)) < k - c)%Z ->
    posFromDigitsLoop str k i c = (i + Z.of_nat (length str))%Z.
Proof.
  unfold parseDigits. induction str as [|ch str IH]; intros i c Hk.
  - simpl. lia.
  - cbn [posFromDigitsLoop]. rewrite filter_cons in Hk. destruct (isDigit ch) eqn:E.
    + rewrite decide_True in Hk by reflexivity. simpl length in Hk.
      destruct (Z.leb_spec k (c + 1)); [lia|].
      rewrite IH by lia. simpl length. lia.
    + rewrite decide_False in Hk by discriminate.
      destruct (Z.leb_spec k c); [lia|].
      rewrite IH by lia. simpl length. lia.
Qed.

(** X19.  [posFromDigitsCount] undoes [countDigitsLeft]: for a count [k]
    from 1 to the number of digits of the string, the position returned is
    the one just after the [k]-th digit, and [k] digits lie to its left.
    For a larger count it is the end of the string; for a count of 0 or
    less it is 1 (or 0 on the empty string), not 0. *)
Theorem X19_caret_after_the_kth_digit (str : list N) (k : Z) :
  ((1 <= k <= Z.of_nat (length (parseDigits str)))%Z ->
     (1 <= posFromDigitsCount str k <= Z.of_nat (length str))%Z
     /\ countDigitsLeft str (posFromDigitsCount str k) = k
     /\ exists ch : N,
          str !! Z.to_nat (posFromDigitsCount str k - 1) = Some ch
          /\ isDigit ch = true)
  /\ ((Z.of_nat (length (parseDigits str)) < k)%Z ->
        posFromDigitsCount str k = Z.of_nat (length str))
  /\ ((k <= 0)%Z ->
        posFromDigitsCount str k = Z.min 1 (Z.of_nat (length str))).
Proof.
  unfold posFromDigitsCount. split; [|split].
  - intros Hk.
    destruct (posFromDigitsLoop_found str k 0 0)
      as (q & -> & Hrange & Hcount & ch & Hch & Hdigit); [lia | lia |].
    rewrite Z.add_0_l. split; [lia|]. split.
    + rewrite countDigitsLeft_count by lia. lia.
    + exists ch. split; [|exact Hdigit].
      now replace (Z.to_nat (Z.of_nat q - 1)) with (q - 1)%nat by lia.
  - intros Hk. rewrite posFromDigitsLoop_beyond by lia. lia.
  - intros Hk. destruct str as [|ch str]; [reflexivity|].
    cbn [posFromDigitsLoop]. simpl length.
    destruct (isDigit ch); destruct (Z.leb_spec k (0 + 1)), (Z.leb_spec k 0); lia.
Qed.

Lemma X19_caret_after_the_kth_digit_witness :
  (* "1.234": the caret after two digits goes just after the "2" *)
  let str := [49; 46; 50; 51; 52]%N in
  countDigitsLeft str (posFromDigitsCount str 2) = 2%Z
  /\ posFromDigitsCount str 9 = Z.of_nat (length str)
  /\ posFromDigitsCount str 0 = Z.min 1 (Z.of_nat (length str)).
Proof.
  intros str. split; [|split].
  - destruct (X19_caret_after_the_kth_digit str 2) as (H & _).
    apply H. vm_compute. split; discriminate.
  - destruct (X19_caret_after_the_kth_digit str 9) as (_ & H & _).
    apply H. vm_compute. reflexivity.
  - destruct (X19_caret_after_the_kth_digit str 0) as (_ & _ & H).
    apply H. lia.
Defined.

(** ** The list of lump sums *)

Lemma idsIncrease_last (arr : list Lump) (ls : Lump) :
  idsIncrease arr -> ls ∈ arr -> (0 < id ls <= from_option id 0 (last arr))%Z.
Proof.
  intros [Hsorted Hpos] Hin.
  rewrite Forall_forall in Hpos. split; [now apply Hpos|].
  destruct (last arr) as [x|] eqn:Hlast.
  - apply last_Some in Hlast as [l' ->]. simpl.
    apply elem_of_app in Hin as [Hin|Hin].
    + apply Z.lt_le_incl.
      apply (StronglySorted_app_1_elem_of _ l' [x] ls x Hsorted Hin). set_solver.
    + apply list_elem_of_singleton in Hin as ->. lia.
  - apply last_None in Hlast. subst arr. set_solver.
Qed.

Lemma idsIncrease_addLump (arr : list Lump) : idsIncrease arr -> idsIncrease (addLump arr).
Proof.
  intros Hinv. pose proof Hinv as [Hsorted Hpos]. unfold addLump. split.
  - apply StronglySorted_app_2; [|exact Hsorted|repeat constructor].
    intros x1 x2 H1 H2. apply list_elem_of_singleton in H2 as ->. simpl.
    pose proof (idsIncrease_last arr x1 Hinv H1). lia.
  - apply Forall_app. split; [exact Hpos|]. constructor; [|constructor]. simpl.
    destruct (last arr) as [x|] eqn:Hlast; simpl; [|lia].
    assert (x ∈ arr) by (apply last_Some in Hlast as [l' ->]; set_solver).
    pose proof (idsIncrease_last arr x Hinv H). lia.
Qed.

Lemma id_setField (ls : Lump) (field : LumpField) (value : R) :
  id (setField ls field value) = id ls.
Proof. now destruct field. Qed.

Lemma idsIncrease_updateLump (i : Z) (field : LumpField) (value : R) (arr : list Lump) :
  idsIncrease arr -> idsIncrease (updateLump i field value arr).
Proof.
  intros [Hsorted Hpos]. unfold updateLump. split.
  - induction Hsorted as [|x l Hl IH Hx]; simpl; constructor.
    + apply IH. now inversion Hpos.
    + apply Forall_fmap. eapply Forall_impl; [exact Hx|].
      intros y Hy. simpl.
      destruct (decide (id x = i)), (decide (id y = i));
        rewrite ?id_setField; exact Hy.
  - apply Forall_fmap. eapply Forall_impl; [exact Hpos|].
    intros y Hy. simpl. destruct (decide (id y = i)); rewrite ?id_setField; exact Hy.
Qed.

Lemma idsIncrease_removeLump (i : Z) (arr : list Lump) :
  idsIncrease arr -> idsIncrease (removeLump i arr).
Proof.
  intros [Hsorted Hpos]. unfold removeLump. split.
  - induction Hsorted as [|x l Hl IH Hx]; [constructor|].
    assert (Hrest : StronglySorted (fun a b => (id a < id b)%Z)
                      (filter (fun ls => id ls <> i) l))
      by (apply IH; now inversion Hpos).
    rewrite filter_cons. destruct (decide (id x <> i)); [|exact Hrest].
    constructor; [exact Hrest|].
    apply Forall_forall. intros y Hy. apply list_elem_of_filter in Hy as [_ Hy].
    rewrite Forall_forall in Hx. now apply Hx.
  - apply Forall_forall. intros y Hy. apply list_elem_of_filter in Hy as [_ Hy].
    rewrite Forall_forall in Hpos. now apply Hpos.
Qed.

Lemma idsIncrease_lumpsAfter (actions : list LumpAction) : idsIncrease (lumpsAfter actions).
Proof.
  unfold lumpsAfter.
  assert (H : forall arr, idsIncrease arr -> idsIncrease (fold_left applyAction actions arr)).
  { induction actions as [|a actions IH]; intros arr Harr; [exact Harr|].
    simpl. apply IH. destruct a; simpl.
    - now apply idsIncrease_addLump.
    - now apply idsIncrease_updateLump.
    - now apply idsIncrease_removeLump. }
  apply H. split; constructor.
Qed.

Lemma idsIncrease_NoDup (arr : list Lump) : idsIncrease arr -> NoDup (map id arr).
Proof.
  intros [Hsorted _]. induction Hsorted as [|x l Hl IH Hx]; simpl; constructor.
  - intros Hin. apply list_elem_of_fmap in Hin as (y & Hy & Hin).
    rewrite Forall_forall in Hx. specialize (Hx y Hin). lia.
  - exact IH.
Qed.

(** X20.  Whatever sequence of additions, edits and removals the form
    performs, starting from the empty list, the ids of the lump sums stay
    positive, increasing along the list, and therefore pairwise
    different. *)
Theorem X20_lump_ids_stay_distinct (actions : list LumpAction) :
  idsIncrease (lumpsAfter actions) /\ NoDup (map id (lumpsAfter actions)).
Proof.
  pose proof (idsIncrease_lumpsAfter actions) as H.
  split; [exact H | now apply idsIncrease_NoDup].
Qed.

Lemma removeLump_absent (i : Z) (arr : list Lump) :
  Forall (fun ls => id ls <> i) arr -> removeLump i arr = arr.
Proof.
  unfold removeLump. induction 1 as [|x l Hx _ IH]; [reflexivity|].
  now rewrite filter_cons_True, IH by exact Hx.
Qed.

Lemma removeLump_length (i : Z) (arr : list Lump) :
  StronglySorted (fun a b => (id a < id b)%Z) arr ->
  (exists ls, ls ∈ arr /\ id ls = i) ->
  S (length (removeLump i arr)) = length arr.
Proof.
  unfold removeLump. induction 1 as [|x l Hl IH Hx]; intros (ls & Hin & Hid).
  - set_solver.
  - rewrite filter_cons. destruct (decide (id x <> i)) as [Hne|Heq].
    + simpl. f_equal. apply IH. exists ls. split; [|exact Hid].
      apply elem_of_cons in Hin as [->|Hin]; [congruence | exact Hin].
    + assert (Hxi : id x = i) by (destruct (decide (id x = i)); [assumption | contradiction]).
      fold (removeLump i l). rewrite removeLump_absent; [reflexivity|].
      eapply Forall_impl; [exact Hx|]. intros y Hy. simpl in Hy. lia.
Qed.

(** X21.  On every list the form can reach: removing the lump sum that was
    just added gives the list back; removing an id that is in the list
    removes exactly one lump sum and leaves none with that id; an edit
    keeps the length and the ids, and changes no lump sum of another id. *)
Theorem X21_lump_edits_hit_one_row (actions : list LumpAction) (i : Z)
    (field : LumpField) (value : R) :
  let arr := lumpsAfter actions in
  removeLump (from_option id 0%Z (last arr) + 1) (addLump arr) = arr
  /\ ((exists ls, ls ∈ arr /\ id ls = i) -> S (length (removeLump i arr)) = length arr)
  /\ Forall (fun ls => id ls <> i) (removeLump i arr)
  /\ map id (updateLump i field value arr) = map id arr
  /\ (forall ls, ls ∈ arr -> id ls <> i -> ls ∈ updateLump i field value arr).
Proof.
  intros arr. pose proof (idsIncrease_lumpsAfter actions) as Hinv. fold arr in Hinv.
  split; [|split; [|split; [|split]]].
  - unfold addLump, removeLump. rewrite filter_app.
    fold (removeLump (from_option id 0%Z (last arr) + 1) arr).
    rewrite removeLump_absent.
    + rewrite filter_cons_False by (simpl; lia). apply app_nil_r.
    + apply Forall_forall. intros ls Hin.
      pose proof (idsIncrease_last arr ls Hinv Hin). lia.
  - apply removeLump_length. apply Hinv.
  - apply Forall_forall. intros ls Hin. now apply list_elem_of_filter in Hin.
  - unfold updateLump. rewrite <- list_fmap_compose. apply list_fmap_ext.
    intros k ls _. simpl. destruct (decide (id ls = i)); [apply id_setField | reflexivity].
  - intros ls Hin Hne. unfold updateLump. apply list_elem_of_fmap. exists ls.
    split; [|exact Hin]. now rewrite decide_False.
Qed.

Lemma X21_lump_edits_hit_one_row_witness :
  S (length (removeLump 1 (lumpsAfter [ActAdd; ActAdd]))) = length (lumpsAfter [ActAdd; ActAdd]).
Proof.
  apply (X21_lump_edits_hit_one_row [ActAdd; ActAdd] 1 FieldMonth 0).
  exists (mkLump 1 1 100000). split; [|reflexivity].
  unfold lumpsAfter, addLump. simpl. set_solver.
Defined.

(** ** The ticks of the time axis *)

Lemma stepYearsOf_ge (age : Z) : (2 <= stepYearsOf age)%Z.
Proof. unfold stepYearsOf. cbv zeta. lia. Qed.

(** The loop of [yearTicks], when it is not cut short: it starts at [m0],
    climbs by the step and stops less than one step below the bound. *)
Lemma ticksLoop_shape (M step : Z) (n : nat) :
  (0 < step)%Z ->
  forall m0 : Z,
    (m0 <= M)%Z -> (M - m0 < Z.of_nat n * step)%Z ->
    exists (rest : list Z) (l : Z),
      ticksLoop M step n m0 = m0 :: rest
      /\ last (m0 :: rest) = Some l
      /\ (M - step < l <= M)%Z
      /\ StronglySorted Z.lt (m0 :: rest)
      /\ Forall (fun x => (m0 <= x <= M)%Z /\ ((x - m0) mod step = 0)%Z) (m0 :: rest).
Proof.
  intros Hstep. induction n as [|n IH]; intros m0 Hm0 Hfuel; [lia|].
  cbn [ticksLoop]. replace (m0 <=? M)%Z with true by (symmetry; apply Z.leb_le; lia).
  assert (Hself : ((m0 - m0) mod step = 0)%Z) by (now rewrite Z.sub_diag, Z.mod_0_l by lia).
  destruct (Z_le_gt_dec (m0 + step) M) as [Hmore|Hdone].
  - destruct (IH (m0 + step)%Z) as (rest & l & Heq & Hlast & Hl & Hsorted & Hall);
      [lia | lia |].
    rewrite Heq. exists ((m0 + step)%Z :: rest), l.
    split; [reflexivity|]. split; [now rewrite last_cons_cons|]. split; [exact Hl|].
    split.
    + constructor; [exact Hsorted|].
      eapply Forall_impl; [exact Hall|]. intros x [Hx _]. simpl in Hx. lia.
    + constructor; [split; [lia | exact Hself]|].
      eapply Forall_impl; [exact Hall|]. intros x [Hx Hmod]. simpl in *. split; [lia|].
      replace (x - m0)%Z with (x - (m0 + step) + 1 * step)%Z by lia.
      now rewrite Z.mod_add by lia.
  - assert (Hnil : ticksLoop M step n (m0 + step) = []).
    { destruct n; [reflexivity|]. cbn [ticksLoop].
      now replace (m0 + step <=? M)%Z with false by (symmetry; apply Z.leb_gt; lia). }
    rewrite Hnil. exists [], m0.
    split; [reflexivity|]. split; [reflexivity|]. split; [lia|]. split.
    + repeat constructor.
    + constructor; [split; [lia | exact Hself]|constructor].
Qed.

(** X22.  Whatever the age, the ticks of the time axis start at month 0,
    end at [monthsTo100] and increase strictly; the step between them is at
    least 24 months, and every tick but the last is a multiple of it. *)
Theorem X22_ticks_span_the_axis (age : Z) :
  let step := (stepYearsOf age * 12)%Z in
  (24 <= step)%Z
  /\ head (yearTicks age) = Some 0%Z
  /\ last (yearTicks age) = Some (monthsTo100Of age)
  /\ StronglySorted Z.lt (yearTicks age)
  /\ Forall (fun x => (x mod step = 0)%Z \/ x = monthsTo100Of age) (yearTicks age).
Proof.
  intros step. pose proof (stepYearsOf_ge age) as Hstep.
  assert (HM : (0 <= monthsTo100Of age)%Z) by (unfold monthsTo100Of; lia).
  split; [unfold step; lia|].
  unfold yearTicks. cbv zeta. fold step.
  destruct (ticksLoop_shape (monthsTo100Of age) step (Z.to_nat (monthsTo100Of age + 1))
              ltac:(unfold step; lia) 0%Z HM)
    as (rest & l & -> & Hlast & Hbound & Hsorted & Hall).
  { unfold step. nia. }
  assert (Hmult : Forall (fun x => (x mod step = 0)%Z \/ x = monthsTo100Of age) (0%Z :: rest)).
  { eapply Forall_impl; [exact Hall|]. intros x [_ Hmod]. left.
    now rewrite Z.sub_0_r in Hmod. }
  destruct (decide (last (0%Z :: rest) = Some (monthsTo100Of age))) as [Hend|Hnot].
  - split; [reflexivity|]. split; [exact Hend|]. split; [exact Hsorted | exact Hmult].
  - split; [reflexivity|]. split; [apply last_snoc|]. split.
    + apply StronglySorted_app_2; [|exact Hsorted|repeat constructor].
      intros x1 x2 H1 H2. apply list_elem_of_singleton in H2 as ->.
      assert (Hx1 : (x1 <= l)%Z).
      { apply last_Some in Hlast as [l' Hsplit].
        rewrite Hsplit in Hsorted, H1. apply elem_of_app in H1 as [H1|H1].
        - apply Z.lt_le_incl.
          apply (StronglySorted_app_1_elem_of _ l' [l] x1 l Hsorted H1).
          now apply list_elem_of_singleton.
        - apply list_elem_of_singleton in H1 as ->. lia. }
      assert (l <> monthsTo100Of age) by congruence. lia.
    + apply Forall_app. split; [exact Hmult|]. constructor; [now right | constructor].
Qed.

(** ** The required return shown by the [App] *)

(** X23.  The [App] asks the solver only when the gap is positive, so the
    solver's answer 0 for a target already met never reaches the page: with
    a positive gap and months to go the required return is a finite rate
    between -1.25 and 1.25 found by the search, and otherwise it is
    [null]. *)
Theorem X23_required_return_of_the_app (p : Plan) :
  ((gap p >? Fin 0)%js = true -> (0 < monthsToRetire p)%Z ->
     (wealthAtRetire p >=? targetWealth p)%js = false
     /\ exists x : R,
          requiredAccumAnnualToHitTarget p = Some (Fin x) /\ - (5 / 4) <= x <= 5 / 4)
  /\ ((gap p >? Fin 0)%js = false \/ (monthsToRetire p <= 0)%Z ->
        requiredAccumAnnualToHitTarget p = None).
Proof.
  split.
  - intros Hgap Hm.
    assert (Hmet : (wealthAtRetire p >=? targetWealth p)%js = false).
    { unfold gap in Hgap. rewrite targetWealth_Fin in Hgap |- *.
      destruct (wealthAtRetire_Fin_or_NaN p) as [HW|[W HW]];
        rewrite HW in Hgap |- *; [reflexivity|].
      rewrite sub_Fin in Hgap. apply gt_Fin in Hgap. apply ge_Fin_false. lra. }
    split; [exact Hmet|].
    unfold requiredAccumAnnualToHitTarget. rewrite Hgap.
    unfold solveRequiredMonthlyAccum.
    replace (monthsToRetire p <=? 0)%Z with false by (symmetry; apply Z.leb_gt; lia).
    cbv zeta. rewrite Hmet.
    set (f := fun rate : number =>
                (wealthAtRetireWithMonthlyAccum (Fin (currentWealth p))
                   (Fin (monthlySaving p)) (monthsToRetire p) (lumpSums p) rate
                 - targetWealth p)%js).
    assert (HNaN : f NaN = NaN) by (unfold f; now rewrite wealthAtRetire_NaN_rate).
    destruct (expandLoop_bracket f HNaN)
      as (lo & hi & fl & fh & -> & Hlo1 & Hlo2 & Hhi1 & Hhi2 & Htest).
    cbn [fLo fHi]. rewrite Htest.
    destruct (bisectLoop_in_bracket f 40 lo hi fl fh) as (x & -> & Hx); [lra|].
    exists x. split; [reflexivity | lra].
  - intros [Hgap|Hm]; unfold requiredAccumAnnualToHitTarget.
    + now rewrite Hgap.
    + destruct (gap p >? Fin 0)%js; [|reflexivity].
      unfold solveRequiredMonthlyAccum.
      now replace (monthsToRetire p <=? 0)%Z with true by (symmetry; apply Z.leb_le; lia).
Qed.

Lemma X23_required_return_of_the_app_witness :
  ((wealthAtRetire unreachablePlan >=? targetWealth unreachablePlan)%js = false
   /\ exists x : R,
        requiredAccumAnnualToHitTarget unreachablePlan = Some (Fin x)
        /\ - (5 / 4) <= x <= 5 / 4)
  /\ requiredAccumAnnualToHitTarget (mkPlan 30 30 0 0 100 4 5 (7 / 2) []) = None.
Proof.
  split.
  - destruct (X23_required_return_of_the_app unreachablePlan) as [H _].
    apply H; [exact unreachablePlan_gap | reflexivity].
  - destruct (X23_required_return_of_the_app (mkPlan 30 30 0 0 100 4 5 (7 / 2) []))
      as [_ H].
    apply H. right. vm_compute. discriminate.
Defined.

(** ** The slider *)

(** X24.  For a track at least as wide as the thumb (20) and [min < max],
    the centre of the thumb stays between 10 and [w - 10] and the filled
    part ends at the centre of the thumb; at or below [min] the thumb is at
    the left end, at or above [max] at the right end. *)
Theorem X24_slider_thumb_stays_on_track (value min max w : R) :
  min < max -> 20 <= w ->
  exists c : R,
    sliderCenter (Fin w) (sliderT (Fin value) (Fin min) (Fin max)) = Fin c
    /\ 10 <= c <= w - 10
    /\ sliderFill (Fin w) (Fin c) = Fin c
    /\ (value <= min -> c = 10)
    /\ (max <= value -> c = w - 10).
Proof.
  intros Hmm Hw. unfold sliderT. rewrite !sub_Fin, div_Fin by lra.
  set (q := (value - min) / (max - min)).
  assert (Hq0 : value <= min -> q <= 0).
  { intros H. unfold q.
    replace ((value - min) / (max - min)) with (- ((min - value) / (max - min)))
      by (field; lra).
    assert (0 <= (min - value) / (max - min)) by (apply Rdiv_nonneg; lra). lra. }
  assert (Hq1 : max <= value -> 1 <= q).
  { intros H. unfold q. apply (Rmult_le_reg_r (max - min)); [lra|].
    replace ((value - min) / (max - min) * (max - min)) with (value - min)
      by (field; lra). lra. }
  assert (Hq0' : min <= value -> 0 <= q) by (intros H; apply Rdiv_nonneg; lra).
  assert (Hq1' : value <= max -> q <= 1).
  { intros H. unfold q. apply (Rmult_le_reg_r (max - min)); [lra|].
    replace ((value - min) / (max - min) * (max - min)) with (value - min)
      by (field; lra). lra. }
  assert (Ht : exists t : R,
             Num.max (Fin 0) (Num.min (Fin 1) (Fin q)) = Fin t
             /\ 0 <= t <= 1 /\ (value <= min -> t = 0) /\ (max <= value -> t = 1)).
  { destruct (Rlt_dec q 1) as [Hlt|Hge].
    - rewrite min_Fin_r by lra. destruct (Rlt_dec 0 q) as [Hpos|Hneg].
      + exists q. rewrite max_Fin_r by lra.
        split; [reflexivity|]. split; [lra|].
        split; intros H; [apply Hq0 in H | apply Hq1 in H]; lra.
      + exists 0. rewrite max_Fin_l by lra.
        split; [reflexivity|]. split; [lra|].
        split; intros H; [reflexivity | apply Hq1 in H; lra].
    - exists 1. rewrite min_Fin_l by lra. rewrite max_Fin_r by lra.
      split; [reflexivity|]. split; [lra|].
      split; intros H; [apply Hq0 in H; lra | reflexivity]. }
  destruct Ht as (t & -> & Ht & Hleft & Hright).
  unfold sliderCenter. rewrite decide_False by lra.
  rewrite div_Fin, sub_Fin, mul_Fin, add_Fin by lra.
  exists (20 / 2 + (w - 20) * t). split; [reflexivity|].
  assert (Hc : 10 <= 20 / 2 + (w - 20) * t <= w - 10) by nra.
  split; [exact Hc|]. split.
  - unfold sliderFill. rewrite div_Fin by lra. rewrite min_Fin_l by lra.
    destruct (Req_dec_T (20 / 2) (20 / 2 + (w - 20) * t)) as [Heq|Hne].
    + rewrite max_Fin_l by lra. f_equal. exact Heq.
    + apply max_Fin_r. lra.
  - split; intros H.
    + rewrite Hleft by exact H. lra.
    + rewrite Hright by exact H. lra.
Qed.

Lemma X24_slider_thumb_stays_on_track_witness :
  exists c : R,
    sliderCenter (Fin 300) (sliderT (Fin (7 / 2)) (Fin (5 / 2)) (Fin 8)) = Fin c
    /\ 10 <= c <= 300 - 10
    /\ sliderFill (Fin 300) (Fin c) = Fin c
    /\ (7 / 2 <= 5 / 2 -> c = 10)
    /\ (8 <= 7 / 2 -> c = 300 - 10).
Proof. apply (X24_slider_thumb_stays_on_track (7 / 2) (5 / 2) 8 300); lra. Defined.
